(** * Billing summary and amount in words of the invoice generator

    A shallow embedding of the arithmetic that [generate_filled_invoice]
    (app.py, ui.py, working_app.py) performs on the line items of an invoice:
    the amounts are read from the rows, added up as Python floats, rounded to
    a whole rupee with the builtin [round], and the difference is kept as the
    rounding adjustment.  The rows are also written into the line-items table
    of the template, as far as the table has room.

    Python floats are IEEE 754 binary64 numbers.  They are modelled by the
    [spec_float] type of the standard library at precision 53 and maximal
    exponent 1024; sums and differences are the correctly rounded operations
    [SFadd] and [SFsub].

    The amount-in-words helper [num2words] lives in a module that is not part
    of the sources at hand; it is modelled from its specification in the
    module [AmountWords]. *)

From Stdlib Require Import ZArith QArith Qpower Qround Qabs.
From Stdlib Require Import List String Ascii Bool Lia Lqa.
From Stdlib Require Import DecimalString.
From Stdlib Require Import Floats.SpecFloat.
Import ListNotations.

Local Open Scope string_scope.
Local Open Scope list_scope.
Local Open Scope Z_scope.

(** ** Floats and their values *)

(** The rational number [m * 2^e]. *)
Definition dyadic (m e : Z) : Q := (inject_Z m * 2 ^ e)%Q.

(** The rational number a finite float stands for; 0 for the others. *)
Definition to_Q (x : spec_float) : Q :=
  match x with
  | S754_finite s m e => dyadic (cond_Zopp s (Zpos m)) e
  | _ => 0%Q
  end.

Definition is_finite (x : spec_float) : bool :=
  match x with S754_zero _ | S754_finite _ _ _ => true | _ => false end.

Definition is_nan (x : spec_float) : bool :=
  match x with S754_nan => true | _ => false end.

Module Binary64.

Definition prec : Z := 53.
Definition emax : Z := 1024.

Definition float : Type := spec_float.

Definition fadd : float -> float -> float := SFadd prec emax.
Definition fsub : float -> float -> float := SFsub prec emax.
Definition fabs : float -> float := SFabs.
Definition feqb : float -> float -> bool := SFeqb.
Definition fleb : float -> float -> bool := SFleb.

(** Well-formed floats: the mantissa has at most 53 bits and sits at the
    exponent the format prescribes. *)
Definition valid (x : float) : bool := valid_binary prec emax x.

Definition pzero : float := S754_zero false.
Definition nan : float := S754_nan.

(** The float nearest to an integer (ties to even); an infinity when the
    integer is out of range. *)
Definition of_Z (n : Z) : float := binary_normalize prec emax n 0 false.

(** The decimal number [n / 10^k] with the sign [neg], rounded to the
    format by the division of the standard library: what a correctly
    rounding reader makes of a decimal numeral with [k] digits after the
    point. *)
Definition of_decimal (neg : bool) (n : N) (k : nat) : float :=
  match n with
  | N0 => S754_zero neg
  | Npos p =>
      let '(q, e, l) :=
        SFdiv_core_binary prec emax (Zpos p) 0 (10 ^ Z.of_nat k) 0 in
      binary_round_aux prec emax neg q e l
  end.

End Binary64.

Import Binary64.

(** ** Python builtins used by the summary *)

(** The exceptions that the modelled code can raise. *)
Inductive exn : Type :=
| OverflowError
| ValueError
| IndexError.

Definition result (A : Type) : Type := (exn + A)%type.

Definition bind {A B : Type} (r : result A) (k : A -> result B) : result B :=
  match r with
  | inl e => inl e
  | inr a => k a
  end.

Notation "x <- r ;; k" := (bind r (fun x => k))
  (at level 61, r at next level, right associativity).

(** [sum(amounts)]: the items are added to the start value [0] from left to
    right.  The integer [0] is converted to [0.0] by the first addition; for
    an empty list the total is the integer [0], whose float value is [0.0]. *)
Definition py_sum (amounts : list float) : float :=
  fold_left fadd amounts pzero.

(** From version 3.12 on, CPython adds floats with Neumaier's compensated
    summation: besides the running total [f_result] it keeps the rounding
    errors in [c] and adds them at the end.  The development follows the
    left-to-right sum above; the concrete invoices below are also evaluated
    with this variant. *)
Fixpoint neumaier (items : list float) (f_result c : float) : float :=
  match items with
  | [] =>
      if negb (feqb c pzero) && is_finite c then fadd f_result c else f_result
  | x :: rest =>
      let t := fadd f_result x in
      let c' :=
        if fleb (fabs x) (fabs f_result)
        then fadd c (fadd (fsub f_result t) x)
        else fadd c (fadd (fsub x t) f_result) in
      neumaier rest t c'
  end.

Definition py_sum_compensated (amounts : list float) : float :=
  match amounts with
  | [] => pzero
  | x :: rest => neumaier rest (fadd pzero x) pzero
  end.

(** Rounding of the positive dyadic [m * 2^e] to the nearest integer, ties
    to the even one: the bits below the point are cut off and compared with
    one half. *)
Definition round_half_even_pos (m : positive) (e : Z) : Z :=
  match e with
  | Z0 => Zpos m
  | Zpos _ => Zpos m * 2 ^ e
  | Zneg k =>
      let q := Zpos m / 2 ^ Zpos k in
      let r := Zpos m mod 2 ^ Zpos k in
      match 2 * r ?= 2 ^ Zpos k with
      | Lt => q
      | Gt => q + 1
      | Eq => if Z.even q then q else q + 1
      end
  end.

(** [round(x)] on a float, without [ndigits]: an integer, [OverflowError] on
    an infinity and [ValueError] on a NaN. *)
Definition py_round (x : float) : result Z :=
  match x with
  | S754_nan => inl ValueError
  | S754_infinity _ => inl OverflowError
  | S754_zero _ => inr 0
  | S754_finite s m e => inr (cond_Zopp s (round_half_even_pos m e))
  end.

(** [float(n)] on an integer: the nearest float, [OverflowError] when [n] is
    too large for a float. *)
Definition py_float_of_int (n : Z) : result float :=
  match of_Z n with
  | S754_infinity _ => inl OverflowError
  | x => inr x
  end.

(** ** The billing summary *)

(** The three figures of the billing summary table. *)
Record BillingSummary : Type := mkSummary {
  subtotal : float;
  rounding_value : float;
  net_payable : float
}.

(** [rounded_total = float(round(subtotal))],
    [rounding_value = rounded_total - subtotal],
    [net_payable = rounded_total]. *)
Definition summary_of_subtotal (sub : float) : result BillingSummary :=
  n <- py_round sub ;;
  rounded_total <- py_float_of_int n ;;
  inr (mkSummary sub (fsub rounded_total sub) rounded_total).

(** The summary of a list of amounts: [subtotal = sum(amounts)] and the two
    figures derived from it. *)
Definition summarize (amounts : list float) : result BillingSummary :=
  summary_of_subtotal (py_sum amounts).

(** ** Rows of the invoice *)

(** A row is the dict built by the form: column name to text. *)
Definition row_data : Type := list (string * string).

(** [row_data.get(key)]. *)
Fixpoint get (d : row_data) (key : string) : option string :=
  match d with
  | [] => None
  | (k, v) :: rest => if String.eqb k key then Some v else get rest key
  end.

Definition amount_key : string := "Amount (₹)".

(** The columns of the line-items table, in order. *)
Definition column_keys : list string :=
  ["No."; "Item Description"; "Weight"; "Rate (₹)"; amount_key].

Section Rows.

(** The numeral reader behind [pd.to_numeric]: the float that a text
    denotes, [None] for a text that is not a number. *)
Variable numeric_of_text : string -> option float.

(** [pd.to_numeric(text, errors="coerce")]: what cannot be read becomes
    NaN. *)
Definition to_numeric_coerce (text : string) : float :=
  match numeric_of_text text with
  | Some x => x
  | None => nan
  end.

(** One turn of the loop that collects the amounts:
    [amt = pd.to_numeric(row_data.get("Amount (₹)", 0), errors="coerce")],
    [if pd.isna(amt): amt = 0.0], [amounts.append(float(amt))].  A row
    without the column yields the default [0]. *)
Definition amount_of_row (row : row_data) : float :=
  match get row amount_key with
  | None => pzero
  | Some text =>
      let amt := to_numeric_coerce text in
      if is_nan amt then pzero else amt
  end.

Definition amounts_of (rows : list row_data) : list float :=
  map amount_of_row rows.

(** The summary block of [generate_filled_invoice], from the rows. *)
Definition summarize_rows (rows : list row_data) : result BillingSummary :=
  summarize (amounts_of rows).

(** *** The line-items table *)

(** A table is a list of rows, a row a list of cell texts; row 0 is the
    header. *)
Definition table : Type := list (list string).

(** How the amount is printed in its cell: [str(value)] in working_app.py
    and ui.py, the amount with two decimals in app.py. *)
Variable render_amount : string -> string.

(** The text written for one column of a row. *)
Definition cell_text (row : row_data) (key : string) : string :=
  let value := match get row key with Some v => v | None => "" end in
  if String.eqb key amount_key then render_amount value else value.

(** [cells[col].text = txt]; there is no cell outside the row. *)
Fixpoint set_cell (cells : list string) (col : nat) (txt : string)
  : result (list string) :=
  match cells, col with
  | [], _ => inl IndexError
  | _ :: rest, O => inr (txt :: rest)
  | c :: rest, S col' => rest' <- set_cell rest col' txt ;; inr (c :: rest')
  end.

(** The inner loop over [enumerate(column_keys)], from column [col] on. *)
Fixpoint write_cells (keys : list string) (col : nat) (row : row_data)
    (cells : list string) : result (list string) :=
  match keys with
  | [] => inr cells
  | key :: keys' =>
      cells' <- set_cell cells col (cell_text row key) ;;
      write_cells keys' (S col) row cells'
  end.

(** A table row after [row] has been written into it: the five texts,
    then the cells beyond the fifth column as they were. *)
Definition written_row (row : row_data) (cells : list string) : list string :=
  map (cell_text row) column_keys ++ skipn 5 cells.

(** [l[i] = x] for an index inside the list. *)
Fixpoint update {A : Type} (l : list A) (i : nat) (x : A) : list A :=
  match l, i with
  | [], _ => []
  | _ :: rest, O => x :: rest
  | y :: rest, S i' => y :: update rest i' x
  end.

(** One turn of the loop over [range(rows_to_fill)]:
    [row_data = rows[i]], [target_row = line_table.rows[i + 1]]. *)
Definition write_row (rows : list row_data) (i : nat) (tbl : table)
  : result table :=
  match nth_error rows i, nth_error tbl (S i) with
  | Some row, Some target_row =>
      cells <- write_cells column_keys 0 row target_row ;;
      inr (update tbl (S i) cells)
  | _, _ => inl IndexError
  end.

(** [for i in range(count)], starting at [i]. *)
Fixpoint write_rows (count i : nat) (rows : list row_data) (tbl : table)
  : result table :=
  match count with
  | O => inr tbl
  | S count' =>
      tbl' <- write_row rows i tbl ;;
      write_rows count' (S i) rows tbl'
  end.

(** The rows below the header are emptied: every cell gets the text [""]. *)
Definition clear_data_rows (tbl : table) : table :=
  match tbl with
  | [] => []
  | header :: data => header :: map (map (fun _ => ""%string)) data
  end.

(** The cell whose font is sampled: row 1 if there is one, else row 0;
    column 0. *)
Definition sample_cell (tbl : table) : result string :=
  let row := match tbl with
             | _ :: r1 :: _ => Some r1
             | [r0] => Some r0
             | [] => None
             end in
  match row with
  | Some (c :: _) => inr c
  | _ => inl IndexError
  end.

(** The part of [generate_filled_invoice] that deals with the line items:
    the table is cleared, the first rows are written as far as the table
    has data rows, and the summary is computed from all the rows.  The
    result is the filled table and the three figures that go to the
    summary table.  The text boxes, the check marks, the fonts and the
    printing of the three figures are left out. *)
Definition generate_filled_invoice (rows : list row_data) (line_table : table)
  : result (table * BillingSummary) :=
  let max_rows := List.length line_table in
  _ <- sample_cell line_table ;;
  let available_data_rows := (max_rows - 1)%nat in
  let cleared := clear_data_rows line_table in
  let rows_to_fill := Nat.min (List.length rows) available_data_rows in
  filled <- write_rows rows_to_fill 0 rows cleared ;;
  summary <- summarize_rows rows ;;
  inr (filled, summary).

End Rows.

(** ** A reader of decimal numerals

    The examples need a concrete reader in the place of [pd.to_numeric]'s.
    This one reads plain decimal numerals, with an optional sign and at most
    one point, to the nearest float. *)

Definition digit_of_ascii (c : ascii) : option N :=
  let n := N_of_ascii c in
  if (48 <=? n)%N && (n <=? 57)%N then Some (n - 48)%N else None.

(** The digits read so far are in [acc]; [after_point] counts the digits
    after the point once it has been met, and [seen] tells whether there was
    a digit at all. *)
Fixpoint read_digits (s : string) (acc : N) (after_point : option nat)
    (seen : bool) : option (N * nat) :=
  match s with
  | EmptyString =>
      if seen
      then Some (acc, match after_point with Some k => k | None => O end)
      else None
  | String c rest =>
      if Ascii.eqb c "."
      then match after_point with
           | None => read_digits rest acc (Some O) seen
           | Some _ => None
           end
      else match digit_of_ascii c with
           | Some d =>
               read_digits rest (10 * acc + d)%N (option_map S after_point) true
           | None => None
           end
  end.

Definition read_decimal (s : string) : option float :=
  match s with
  | String "-" rest =>
      match read_digits rest 0 None false with
      | Some (n, k) => Some (of_decimal true n k)
      | None => None
      end
  | _ =>
      match read_digits s 0 None false with
      | Some (n, k) => Some (of_decimal false n k)
      | None => None
      end
  end.

(** ** Rounding policies, as the specification words them *)

(** [n] is the integer nearest to [q], and the even one of the two when [q]
    lies half-way between two integers. *)
Definition nearest_even (q : Q) (n : Z) : Prop :=
  (Qabs (inject_Z n - q) <= 1 # 2)%Q
  /\ ((Qabs (inject_Z n - q) == 1 # 2)%Q -> Z.even n = true).

(** Round-half-up to zero decimal places, ties away from zero. *)
Definition round_half_up (q : Q) : Z :=
  if Qle_bool 0 q then Qfloor (q + (1 # 2)) else - Qfloor (- q + (1 # 2)).

(** [n] is an integer nearest to [q]. *)
Definition nearest_integer (q : Q) (n : Z) : Prop :=
  forall k : Z, (Qabs (inject_Z n - q) <= Qabs (inject_Z k - q))%Q.

(** The sum of the values of a list of floats, as a rational number. *)
Definition exact_sum (amounts : list float) : Q :=
  fold_right (fun a acc => (to_Q a + acc)%Q) 0%Q amounts.

(** An amount that is a whole number of quarter rupees, such as 100.25,
    50.50 or 25.00. *)
Definition quarter_amount (a : float) : Prop :=
  valid a = true /\ is_finite a = true
  /\ exists k : Z, 0 <= k /\ (to_Q a == inject_Z k / 4)%Q.

(** ** The floating-point format *)

(** A mantissa and an exponent in canonical position. *)
Definition canonical (prec emax m e : Z) : Prop :=
  fexp prec emax (Zdigits2 m + e) = e.

(** A rational number that the format holds without rounding. *)
Definition fits (prec emax : Z) (q : Q) : Prop :=
  exists m e : Z,
    (q == dyadic m e)%Q /\ Zdigits2 (Z.abs m) <= prec /\ emin prec emax <= e
    /\ Zdigits2 (Z.abs m) + e <= emax.

(** ** Amounts in words *)

Module AmountWords.

(** Modelled from the spec: the amounts that [to_words] can be given, a
    decimal of arbitrary precision or one of the non-finite values. The
    helper module [number_to_words], from which app.py imports
    [num2words], is not among the sources. *)
Inductive Amount : Type :=
| Finite (q : Q)
| NotANumber
| Infinite (negative : bool).

(** Modelled from the spec: the two failures of [to_words]. *)
Inductive error : Type :=
| InvalidAmount
| UnsupportedMagnitude.

(** Modelled from the spec: the irregular names of 1 to 19. *)
Definition unit_names : list string :=
  ["One"; "Two"; "Three"; "Four"; "Five"; "Six"; "Seven"; "Eight"; "Nine";
   "Ten"; "Eleven"; "Twelve"; "Thirteen"; "Fourteen"; "Fifteen"; "Sixteen";
   "Seventeen"; "Eighteen"; "Nineteen"]%string.

(** Modelled from the spec: the names of 20, 30, ..., 90. *)
Definition tens_names : list string :=
  ["Twenty"; "Thirty"; "Forty"; "Fifty"; "Sixty"; "Seventy"; "Eighty";
   "Ninety"]%string.

(** Modelled from the spec: the scale words of the two-digit groups above
    the hundreds group.  The specification names thousand, lakh and crore;
    the words for the four groups up to the ceiling of 10^17 are the usual
    ones of the Indian system. *)
Definition scale_words : list string :=
  ["Thousand"; "Lakh"; "Crore"; "Arab"; "Kharab"; "Neel"; "Padma"]%string.

Definition unit_name (n : Z) : string := nth (Z.to_nat (n - 1)) unit_names ""%string.
Definition tens_name (n : Z) : string := nth (Z.to_nat (n - 2)) tens_names ""%string.

(** Modelled from the spec: the 0-99 naming table; nothing for 0. *)
Definition name_below_hundred (n : Z) : list string :=
  if n =? 0 then []
  else if n <? 20 then [unit_name n]
  else tens_name (n / 10)
       :: (if n mod 10 =? 0 then [] else [unit_name (n mod 10)]).

(** Modelled from the spec: the last three digits, as hundreds plus the
    0-99 table. *)
Definition name_hundreds_group (n : Z) : list string :=
  (if n / 100 =? 0 then [] else [unit_name (n / 100); "Hundred"%string])
  ++ name_below_hundred (n mod 100).

(** Modelled from the spec: the two-digit groups above the hundreds
    group, most significant first; a group of zero is skipped. *)
Fixpoint name_groups (scales : list string) (n : Z) : list string :=
  match scales with
  | [] => []
  | scale :: scales' =>
      name_groups scales' (n / 100)
      ++ (if n mod 100 =? 0 then [] else name_below_hundred (n mod 100) ++ [scale])
  end.

Definition name_integer (i : Z) : list string :=
  name_groups scale_words (i / 1000) ++ name_hundreds_group (i mod 1000).

Definition ceiling : Z := 10 ^ 17.

(** Modelled from the spec: the fraction of the amount in hundredths,
    rounded to an integer in [0,99] (section 4.1, steps 1 and 5): the
    integer of that range nearest to the hundredths, the upper one on a
    tie. *)
Definition hundredths (q : Q) : Z :=
  Z.min 99 (Qfloor ((q - inject_Z (Qfloor q)) * 100 + (1 # 2))).

(** Modelled from the spec: the words of an amount with the integer part
    [I] and [F] hundredths (section 4.1, steps 3 to 5): the words of [I],
    then, if [F > 0], the word [and] and the 0-99 naming of [F]. *)
Definition amount_words (I F : Z) : list string :=
  name_integer I
  ++ (if 0 <? F then "and"%string :: name_below_hundred F else []).

(** Modelled from the spec: [to_words], section 4.1.  The amount is split
    into its integer part [I] and its hundredths [F]; a negative or
    non-finite amount is an [InvalidAmount], an integer part of 10^17 or
    more an [UnsupportedMagnitude].  The words are joined by single
    spaces, so that the phrase has no blank at either end. *)
Definition to_words (amount : Amount) : error + string :=
  match amount with
  | NotANumber | Infinite _ => inl InvalidAmount
  | Finite q =>
      if negb (Qle_bool 0 q) then inl InvalidAmount
      else
        let I := Qfloor q in
        let F := hundredths q in
        if ceiling <=? I then inl UnsupportedMagnitude
        else if (I =? 0) && (F =? 0) then inr "Zero"%string
        else inr (String.concat " " (amount_words I F))
  end.

(** *** Reading a phrase back

    Section 8 of the specification asks that a phrase, parsed back by a
    reference table, gives the integer part and the hundredths of the
    amount.  This is that reader. *)

(** Modelled from the spec: what a word of a phrase stands for. *)
Inductive token : Type :=
| Number (n : Z)
| Hundred
| Scale (v : Z)
| And.

(** Modelled from the spec: the reference table of the words. *)
Definition word_table : list (string * token) :=
  [("Zero", Number 0); ("One", Number 1); ("Two", Number 2);
   ("Three", Number 3); ("Four", Number 4); ("Five", Number 5);
   ("Six", Number 6); ("Seven", Number 7); ("Eight", Number 8);
   ("Nine", Number 9); ("Ten", Number 10); ("Eleven", Number 11);
   ("Twelve", Number 12); ("Thirteen", Number 13); ("Fourteen", Number 14);
   ("Fifteen", Number 15); ("Sixteen", Number 16); ("Seventeen", Number 17);
   ("Eighteen", Number 18); ("Nineteen", Number 19); ("Twenty", Number 20);
   ("Thirty", Number 30); ("Forty", Number 40); ("Fifty", Number 50);
   ("Sixty", Number 60); ("Seventy", Number 70); ("Eighty", Number 80);
   ("Ninety", Number 90); ("Hundred", Hundred);
   ("Thousand", Scale (10 ^ 3)); ("Lakh", Scale (10 ^ 5));
   ("Crore", Scale (10 ^ 7)); ("Arab", Scale (10 ^ 9));
   ("Kharab", Scale (10 ^ 11)); ("Neel", Scale (10 ^ 13));
   ("Padma", Scale (10 ^ 15)); ("and", And)]%string.

Fixpoint lookup_word (table : list (string * token)) (w : string)
  : option token :=
  match table with
  | [] => None
  | (k, t) :: rest => if String.eqb k w then Some t else lookup_word rest w
  end.

Definition token_of_word (w : string) : option token :=
  lookup_word word_table w.

(** The scale words [scales] stand for [v], [100 * v], [100 * 100 * v]
    and so on. *)
Fixpoint scales_from (v : Z) (scales : list string) : Prop :=
  match scales with
  | [] => True
  | scale :: scales' =>
      token_of_word scale = Some (Scale v) /\ scales_from (100 * v) scales'
  end.

(** The words of a phrase: the pieces between its blanks.  A blank at
    either end and two blanks in a row leave an empty piece. *)
Fixpoint words_of (phrase : string) : list string :=
  match phrase with
  | EmptyString => [EmptyString]
  | String c rest =>
      if Ascii.eqb c " " then EmptyString :: words_of rest
      else match words_of rest with
           | w :: ws => String c w :: ws
           | [] => [String c EmptyString]
           end
  end.

(** The value of the words after [and]: number words only. *)
Fixpoint sum_numbers (ws : list string) (acc : Z) : option Z :=
  match ws with
  | [] => Some acc
  | w :: rest =>
      match token_of_word w with
      | Some (Number n) => sum_numbers rest (acc + n)
      | _ => None
      end
  end.

(** The value of a list of words: number words add up in a group,
    [Hundred] multiplies the group, a scale word closes the group, and
    the words after [and] are the hundredths.  A piece that is not in the
    table has no value. *)
Fixpoint value_from (ws : list string) (total group : Z) : option (Z * Z) :=
  match ws with
  | [] => Some (total + group, 0)
  | w :: rest =>
      match token_of_word w with
      | Some (Number n) => value_from rest total (group + n)
      | Some Hundred => value_from rest total (group * 100)
      | Some (Scale v) => value_from rest (total + group * v) 0
      | Some And =>
          match sum_numbers rest 0 with
          | Some f => Some (total + group, f)
          | None => None
          end
      | None => None
      end
  end.

(** Modelled from the spec: the integer part and the hundredths that a
    phrase reads as; nothing for a phrase with a piece that is not a word
    of the table, such as a digit or the empty piece that a misplaced
    blank leaves. *)
Definition value_of_phrase (phrase : string) : option (Z * Z) :=
  value_from (words_of phrase) 0 0.

End AmountWords.

(** ** Cells and signs *)

(** The text of the cell in row [r] and column [c], if there is one. *)
Definition cell_at (tbl : table) (r c : nat) : option string :=
  match nth_error tbl r with
  | Some cells => nth_error cells c
  | None => None
  end.

(** Two tables of the same shape: as many rows, and as many cells in each. *)
Definition same_shape (t1 t2 : table) : Prop :=
  Forall2 (fun cells1 cells2 => List.length cells1 = List.length cells2) t1 t2.

(** A float that is not negative: a zero, a positive number or the positive
    infinity. *)
Definition nonneg_float (x : float) : bool :=
  match x with
  | S754_nan => false
  | S754_infinity s => negb s
  | S754_zero _ => true
  | S754_finite s _ _ => negb s
  end.

(** ** Printing of the figures *)

(** The decimal digit [d], for [0 <= d <= 9]. *)
Definition digit_char (d : Z) : ascii := ascii_of_N (48 + Z.to_N d).

(** The two decimal digits of [k], for [0 <= k < 100]. *)
Definition two_digits (k : Z) : string :=
  String (digit_char (k / 10)) (String (digit_char (k mod 10)) "").

(** The decimal numeral of a natural number. *)
Definition decimal_of_Z (n : Z) : string :=
  NilZero.string_of_uint (N.to_uint (Z.to_N n)).

(** Commas between groups of three digits, on the reversed digits. *)
Fixpoint commas_rev (rev_digits : list ascii) : list ascii :=
  match rev_digits with
  | a :: rest1 =>
      match rest1 with
      | b :: rest2 =>
          match rest2 with
          | c :: rest3 =>
              match rest3 with
              | [] => rev_digits
              | _ :: _ => a :: b :: c :: ","%char :: commas_rev rest3
              end
          | [] => rev_digits
          end
      | [] => rev_digits
      end
  | [] => []
  end.

(** The thousands separator of the format [","]. *)
Definition group_thousands (digits : string) : string :=
  string_of_list_ascii (rev (commas_rev (rev (list_ascii_of_string digits)))).

(** The hundredths of the positive dyadic [m * 2^e], rounded to the nearest
    integer, ties to even: the digits that the format [".2f"] prints. *)
Definition round_to_cents (m : positive) (e : Z) : Z :=
  round_half_even_pos (100 * m) e.

(** [f"{x:,.2f}"] on a float. *)
Definition format_amount (x : float) : string :=
  match x with
  | S754_nan => "nan"
  | S754_infinity s => if s then "-inf" else "inf"
  | S754_zero s => String.append (if s then "-" else "") "0.00"
  | S754_finite s m e =>
      let n := round_to_cents m e in
      String.append (if s then "-" else "")
        (String.append (group_thousands (decimal_of_Z (n / 100)))
           (String.append "." (two_digits (n mod 100))))
  end.

(** The text of the amount cell in app.py: [float(value)] printed with
    [",.2f"], and the value itself when [float] raises. *)
Definition render_amount_app (float_of_text : string -> option float)
    (value : string) : string :=
  match float_of_text value with
  | Some amount_val => format_amount amount_val
  | None => value
  end.

(** *** The billing summary table *)

(** [tbl.rows[r].cells[c].text = txt]. *)
Definition set_table_cell (tbl : table) (r c : nat) (txt : string)
  : result table :=
  match nth_error tbl r with
  | None => inl IndexError
  | Some cells => cells' <- set_cell cells c txt ;; inr (update tbl r cells')
  end.

(** The three calls of [set_summary_cell]: the subtotal in row 1, the
    rounding in row 2 and the net payable in row 3, each in column 1.  The
    net payable carries the prefix ["₹ "] in app.py and none in ui.py and
    working_app.py. *)
Definition fill_summary_table (prefix : string) (summary_table : table)
    (s : BillingSummary) : result table :=
  t1 <- set_table_cell summary_table 1 1 (format_amount (subtotal s)) ;;
  t2 <- set_table_cell t1 2 1 (format_amount (rounding_value s)) ;;
  set_table_cell t2 3 1 (String.append prefix (format_amount (net_payable s))).

(** The work of [generate_filled_invoice] on the two tables, in ui.py and
    working_app.py the whole of the function once the tables [LineItems]
    and [BillingSummary] are found: the line items are written and the
    summary is computed, then the three figures are written into the
    summary table.  The result is the two tables as they are saved.  (In
    app.py the text boxes, the check boxes and the amount in words come in
    addition, and [prefix] is the rupee sign.) *)
Definition generate_filled_invoice_tables
    (numeric_of_text : string -> option float)
    (render_amount : string -> string) (prefix : string)
    (rows : list row_data) (line_table summary_table : table)
  : result (table * table) :=
  line_items <- generate_filled_invoice numeric_of_text render_amount rows
                  line_table ;;
  summary_filled <- fill_summary_table prefix summary_table (snd line_items) ;;
  inr (fst line_items, summary_filled).

(** ** The net payable computed by [main] (app.py)

    Before it calls [generate_filled_invoice], [main] computes the net
    payable a second time, from the validated rows, with [float] in the
    place of [pd.to_numeric]. *)

(** The exceptions of that computation: those of the builtins, and the
    [KeyError] of [x["Amount (₹)"]]. *)
Inductive main_exn : Type :=
| Builtin (e : exn)
| KeyError.

Section Main.

(** Python's [float] on a text: [None] when it raises [ValueError]. *)
Variable float_of_text : string -> option float.

(** [float(x["Amount (₹)"])]. *)
Definition float_of_amount (x : row_data) : main_exn + float :=
match get x amount_key with
| None => inl KeyError
| Some text =>
    match float_of_text text with
    | None => inl (Builtin ValueError)
    | Some amount => inr amount
    end
end.

(** The list comprehension [[float(x["Amount (₹)"]) for x in validated]]. *)
Fixpoint floats_of_amounts (validated : list row_data) : main_exn + list float :=
match validated with
| [] => inr []
| x :: rest =>
    match float_of_amount x with
    | inl e => inl e
    | inr amount =>
        match floats_of_amounts rest with
        | inl e => inl e
        | inr amounts => inr (amount :: amounts)
        end
    end
end.

(** [amounts = [...]], [subtotal = sum(amounts)],
  [net_payable = float(round(subtotal))]. *)
Definition main_net_payable (validated : list row_data) : main_exn + float :=
match floats_of_amounts validated with
| inl e => inl e
| inr amounts =>
    match (n <- py_round (py_sum amounts) ;; py_float_of_int n) with
    | inl e => inl (Builtin e)
    | inr net_payable => inr net_payable
    end
end.

End Main.

(** ** Check boxes of the payment method *)

(** A shape of the slide, as far as the check boxes go. *)
Record shape : Type := mkShape {
  shape_name : string;
  has_text_frame : bool;
  shape_text : string
}.

Definition checkbox_names : list (string * string) :=
  [("Cash", "Cash Check"); ("NEFT / IMPS", "NEFT Check");
   ("UPI", "UPI Check"); ("Cheque", "Cheque Check")].

Definition check_mark : string := "✔".

(** [name in checkbox_names.values()]. *)
Definition is_checkbox_name (name : string) : bool :=
  existsb (String.eqb name) (map snd checkbox_names).

(** The body of the loop over the shapes: the box of the payment method is
    ticked, the other boxes are emptied, every other shape is left alone. *)
Definition mark_checkbox (payment_method : string) (s : shape) : shape :=
  if has_text_frame s then
    if is_checkbox_name (shape_name s) then
      match get checkbox_names payment_method with
      | Some box =>
          if String.eqb (shape_name s) box
          then mkShape (shape_name s) true check_mark
          else mkShape (shape_name s) true ""
      | None => mkShape (shape_name s) true ""
      end
    else s
  else s.

Definition mark_checkboxes (payment_method : string) (shapes : list shape)
  : list shape :=
  map (mark_checkbox payment_method) shapes.

(** A box that carries the check mark. *)
Definition is_ticked (s : shape) : bool :=
  has_text_frame s && is_checkbox_name (shape_name s)
  && String.eqb (shape_text s) check_mark.

(** ** The name of the download *)

(** The characters of the class that the file name is cleaned of: the
    backslash, the slash, the star, the question mark, the colon, the double
    quote, the angle brackets and the bar. *)
Definition forbidden_in_filename (c : ascii) : bool :=
  existsb (Ascii.eqb c)
    [ascii_of_nat 92; "/"; "*"; "?"; ":"; ascii_of_nat 34; "<"; ">"; "|"]%char.

(** [re.sub] with that class and the empty replacement: the characters of
    the class are dropped. *)
Fixpoint sanitize_filename (filename : string) : string :=
  match filename with
  | EmptyString => EmptyString
  | String c rest =>
      if forbidden_in_filename c then sanitize_filename rest
      else String c (sanitize_filename rest)
  end.

(** The file name of the download, from the invoice number, the name and
    the phone number of the client and the date as [%Y%m%d]. *)
Definition download_filename (bill_no client_bill_to client_phone today : string)
  : string :=
  sanitize_filename
    (String.append "RishabGems_"
       (String.append bill_no
          (String.append "_"
             (String.append client_bill_to
                (String.append "_"
                   (String.append client_phone
                      (String.append "_" (String.append today ".pptx")))))))).

(** ** Reading a number from a form field

    [parse_number] works on the characters of a text.  A Python text is a
    sequence of code points, and so it is here. *)

Definition text : Type := list N.

Definition text_of_string (s : string) : text :=
  map N_of_ascii (list_ascii_of_string s).

Definition comma : N := 44.
Definition full_stop : N := 46.
Definition rupee_sign : N := 8377.

(** [str.isspace] on one character. *)
Definition is_space (c : N) : bool :=
  ((9 <=? c) && (c <=? 13) || (28 <=? c) && (c <=? 32) || (c =? 133)
   || (c =? 160) || (c =? 5760) || (8192 <=? c) && (c <=? 8202)
   || (c =? 8232) || (c =? 8233) || (c =? 8239) || (c =? 8287)
   || (c =? 12288))%N.

(** The characters that [r] and [s] match when case is ignored; [s] also
    matches the long s. *)
Definition matches_r (c : N) : bool := ((c =? 114) || (c =? 82))%N.
Definition matches_s (c : N) : bool := ((c =? 115) || (c =? 83) || (c =? 383))%N.

(** [s.replace(",", "")]. *)
Definition remove_commas (s : text) : text :=
  filter (fun c => negb (c =? comma)%N) s.

(** [re.sub(r"(rs\.?|₹)", "", s, flags=re.IGNORECASE)]: from left to right,
    every [rs], with the full stop that follows it if there is one, and
    every rupee sign is dropped. *)
Fixpoint remove_currency (s : text) : text :=
  match s with
  | [] => []
  | c :: rest =>
      if (c =? rupee_sign)%N then remove_currency rest
      else if matches_r c then
        match rest with
        | c1 :: rest1 =>
            if matches_s c1 then
              match rest1 with
              | c2 :: rest2 =>
                  if (c2 =? full_stop)%N then remove_currency rest2
                  else remove_currency rest1
              | [] => []
              end
            else c :: remove_currency rest
        | [] => [c]
        end
      else c :: remove_currency rest
  end.

Fixpoint lstrip (s : text) : text :=
  match s with
  | c :: rest => if is_space c then lstrip rest else s
  | [] => []
  end.

Definition rstrip (s : text) : text := rev (lstrip (rev s)).

(** [s.strip()]. *)
Definition strip (s : text) : text := rstrip (lstrip s).

Section ParseNumber.

(** Python's [float] on a text: [None] when it raises [ValueError]. *)
Variable float_of : text -> option float.

(** [parse_number(val)], on [None] or a text. *)
Definition parse_number (val : option text) : result float :=
match val with
| None => inl ValueError
| Some s =>
    let s := remove_commas s in
    let s := remove_currency s in
    let s := strip s in
    match s with
    | [] => inl ValueError
    | _ :: _ =>
        match float_of s with
        | Some x => inr x
        | None => inl ValueError
        end
    end
end.

End ParseNumber.

(** * Properties of the floating-point format *)

(** ** Number of binary digits *)

Section Digits.

Lemma digits2_pos_bounds (m : positive) :
  2 ^ (Zpos (digits2_pos m) - 1) <= Zpos m < 2 ^ Zpos (digits2_pos m).
Proof.
  induction m as [p IH | p IH | ]; cbn [digits2_pos].
  - rewrite Pos2Z.inj_succ, (Pos2Z.inj_xI p).
    replace (Z.succ (Zpos (digits2_pos p)) - 1) with (Z.succ (Zpos (digits2_pos p) - 1)) by lia.
    rewrite !Z.pow_succ_r by lia.
    destruct IH as [IH1 IH2]. revert IH1 IH2.
    generalize (2 ^ (Zpos (digits2_pos p) - 1)) (2 ^ Zpos (digits2_pos p)). lia.
  - rewrite Pos2Z.inj_succ, (Pos2Z.inj_xO p).
    replace (Z.succ (Zpos (digits2_pos p)) - 1) with (Z.succ (Zpos (digits2_pos p) - 1)) by lia.
    rewrite !Z.pow_succ_r by lia.
    destruct IH as [IH1 IH2]. revert IH1 IH2.
    generalize (2 ^ (Zpos (digits2_pos p) - 1)) (2 ^ Zpos (digits2_pos p)). lia.
  - cbn. lia.
Qed.

Lemma Zdigits2_bounds (m : Z) :
  0 < m -> 0 < Zdigits2 m /\ 2 ^ (Zdigits2 m - 1) <= m < 2 ^ Zdigits2 m.
Proof.
  destruct m as [ | p | p]; try lia. intros _. cbn [Zdigits2].
  split; [lia | apply digits2_pos_bounds].
Qed.

Lemma Zdigits2_unique (m d : Z) :
  2 ^ (d - 1) <= m < 2 ^ d -> 0 < m -> Zdigits2 m = d.
Proof.
  intros Hd Hm.
  destruct (Zdigits2_bounds m Hm) as [Hpos Hb].
  assert (0 < d).
  { destruct (Z_lt_le_dec 0 d) as [ | Hle]; [assumption | ].
    destruct (Z.eq_dec d 0) as [-> | ]; [cbn in Hd; lia | ].
    rewrite (Z.pow_neg_r 2 d) in Hd by lia. lia. }
  destruct (Z.lt_trichotomy (Zdigits2 m) d) as [Hlt | [Heq | Hgt]]; [ | assumption | ].
  - assert (2 ^ Zdigits2 m <= 2 ^ (d - 1)) by (apply Z.pow_le_mono_r; lia). lia.
  - assert (2 ^ d <= 2 ^ (Zdigits2 m - 1)) by (apply Z.pow_le_mono_r; lia). lia.
Qed.

Lemma Zdigits2_nonneg (m : Z) : 0 <= Zdigits2 m.
Proof. destruct m; cbn; lia. Qed.

Lemma Zdigits2_div_pow (m k : Z) :
  0 < m -> 0 <= k < Zdigits2 m -> Zdigits2 (m / 2 ^ k) = Zdigits2 m - k.
Proof.
  intros Hm Hk.
  destruct (Zdigits2_bounds m Hm) as [Hpos Hb].
  assert (Hp : 0 < 2 ^ k) by (apply Z.pow_pos_nonneg; lia).
  assert (Hlo : 2 ^ (Zdigits2 m - k - 1) <= m / 2 ^ k).
  { apply Z.div_le_lower_bound; [assumption | ].
    rewrite <- Z.pow_add_r by lia.
    replace (k + (Zdigits2 m - k - 1)) with (Zdigits2 m - 1) by lia. lia. }
  assert (Hhi : m / 2 ^ k < 2 ^ (Zdigits2 m - k)).
  { apply Z.div_lt_upper_bound; [assumption | ].
    rewrite <- Z.pow_add_r by lia.
    replace (k + (Zdigits2 m - k)) with (Zdigits2 m) by lia. lia. }
  apply Zdigits2_unique; [lia | ].
  assert (0 < 2 ^ (Zdigits2 m - k - 1)) by (apply Z.pow_pos_nonneg; lia). lia.
Qed.

Lemma Zdigits2_div_small (m k : Z) :
  0 <= m -> Zdigits2 m <= k -> m / 2 ^ k = 0.
Proof.
  intros Hm Hk. apply Z.div_small.
  destruct (Z.eq_dec m 0) as [-> | Hne].
  - split; [lia | apply Z.pow_pos_nonneg; [lia | cbn in Hk; lia]].
  - destruct (Zdigits2_bounds m ltac:(lia)) as [Hpos Hb].
    assert (2 ^ Zdigits2 m <= 2 ^ k) by (apply Z.pow_le_mono_r; lia). lia.
Qed.

Lemma Zdigits2_mul_pow (m k : Z) :
  0 < m -> 0 <= k -> Zdigits2 (m * 2 ^ k) = Zdigits2 m + k.
Proof.
  intros Hm Hk.
  destruct (Zdigits2_bounds m Hm) as [Hpos Hb].
  assert (Hp : 0 < 2 ^ k) by (apply Z.pow_pos_nonneg; lia).
  apply Zdigits2_unique; [ | nia].
  replace (Zdigits2 m + k - 1) with ((Zdigits2 m - 1) + k) by lia.
  rewrite !Z.pow_add_r by lia. nia.
Qed.

Lemma Zdigits2_le (m n : Z) : 0 < m -> m <= n -> Zdigits2 m <= Zdigits2 n.
Proof.
  intros Hm Hmn.
  destruct (Zdigits2_bounds m Hm) as [_ Hb].
  destruct (Zdigits2_bounds n ltac:(lia)) as [_ Hb'].
  destruct (Z_le_gt_dec (Zdigits2 m) (Zdigits2 n)) as [ | Hgt]; [assumption | ].
  assert (2 ^ Zdigits2 n <= 2 ^ (Zdigits2 m - 1)) by (apply Z.pow_le_mono_r; lia). lia.
Qed.

Lemma Zdigits2_le_pow (m d : Z) : 0 <= d -> 0 <= m < 2 ^ d -> Zdigits2 m <= d.
Proof.
  intros Hd Hm.
  destruct (Z.eq_dec m 0) as [-> | Hne]; [cbn; lia | ].
  destruct (Zdigits2_bounds m ltac:(lia)) as [_ Hb].
  destruct (Z_le_gt_dec (Zdigits2 m) d) as [ | Hgt]; [assumption | ].
  assert (2 ^ d <= 2 ^ (Zdigits2 m - 1)) by (apply Z.pow_le_mono_r; lia). lia.
Qed.

End Digits.

(** ** Shifting mantissas *)

Section Shifts.

Lemma iter_pos_nat {A : Type} (f : A -> A) (p : positive) (x : A) :
  iter_pos f p x = Nat.iter (Pos.to_nat p) f x.
Proof.
  revert x. induction p as [p IH | p IH | ]; intro x; cbn [iter_pos].
  - rewrite !IH, Pos2Nat.inj_xI.
    replace (S (2 * Pos.to_nat p)) with (Pos.to_nat p + S (Pos.to_nat p))%nat by lia.
    rewrite Nat.iter_add, Nat.iter_succ_r. reflexivity.
  - rewrite !IH, Pos2Nat.inj_xO.
    replace (2 * Pos.to_nat p)%nat with (Pos.to_nat p + Pos.to_nat p)%nat by lia.
    rewrite Nat.iter_add. reflexivity.
  - reflexivity.
Qed.

Lemma shr_m_shr_1 (mrs : shr_record) :
  0 <= shr_m mrs -> shr_m (shr_1 mrs) = shr_m mrs / 2.
Proof.
  destruct mrs as [m r s]. cbn [shr_m]. intros Hm.
  rewrite <- Z.div2_div.
  destruct m as [ | [p | p | ] | p]; try lia; reflexivity.
Qed.

Lemma shr_m_iter (n : nat) (mrs : shr_record) :
  0 <= shr_m mrs ->
  shr_m (Nat.iter n shr_1 mrs) = shr_m mrs / 2 ^ Z.of_nat n.
Proof.
  intros Hm. induction n as [ | n IH].
  - cbn. symmetry. apply Z.div_1_r.
  - rewrite Nat.iter_succ, shr_m_shr_1, IH.
    + rewrite Nat2Z.inj_succ, Z.pow_succ_r by lia.
      rewrite Z.div_div by (try apply Z.pow_pos_nonneg; lia).
      f_equal. apply Z.mul_comm.
    + rewrite IH. apply Z.div_pos; [assumption | apply Z.pow_pos_nonneg; lia].
Qed.

Lemma shr_1_exact (m : Z) :
  0 <= m -> Z.even m = true ->
  shr_1 (Build_shr_record m false false) = Build_shr_record (m / 2) false false.
Proof.
  intros Hm Hev. rewrite <- Z.div2_div.
  destruct m as [ | [p | p | ] | p]; try lia; try discriminate; reflexivity.
Qed.

Lemma iter_shr_exact (n : nat) (m : Z) :
  0 <= m -> (2 ^ Z.of_nat n | m) ->
  Nat.iter n shr_1 (Build_shr_record m false false)
  = Build_shr_record (m / 2 ^ Z.of_nat n) false false.
Proof.
  revert m. induction n as [ | n IH]; intros m Hm [q Hq].
  - cbn. rewrite Z.div_1_r. reflexivity.
  - rewrite Nat2Z.inj_succ, Z.pow_succ_r in * by lia.
    assert (Hp : 0 < 2 ^ Z.of_nat n) by (apply Z.pow_pos_nonneg; lia).
    rewrite Nat.iter_succ_r, shr_1_exact; [ | assumption | ].
    + assert (Hhalf : m / 2 = q * 2 ^ Z.of_nat n).
      { subst m. replace (q * (2 * 2 ^ Z.of_nat n)) with (q * 2 ^ Z.of_nat n * 2) by ring.
        apply Z.div_mul. lia. }
      rewrite IH.
      * f_equal. rewrite Z.div_div by lia. reflexivity.
      * apply Z.div_pos; lia.
      * exists q. exact Hhalf.
    + subst m. rewrite Z.mul_assoc, Z.mul_shuffle0, Z.even_mul. cbn. apply orb_true_r.
Qed.

Lemma shr_spec (mrs : shr_record) (e n : Z) :
  0 <= shr_m mrs ->
  shr_m (fst (shr mrs e n)) = shr_m mrs / 2 ^ Z.max 0 n
  /\ snd (shr mrs e n) = e + Z.max 0 n.
Proof.
  intros Hm. destruct n as [ | p | p]; cbn [shr fst snd].
  - cbn. rewrite Z.div_1_r. split; [reflexivity | lia].
  - rewrite iter_pos_nat, shr_m_iter by assumption.
    rewrite positive_nat_Z. replace (Z.max 0 (Zpos p)) with (Zpos p) by lia.
    split; reflexivity.
  - replace (Z.max 0 (Zneg p)) with 0 by lia. cbn. rewrite Z.div_1_r. split; [reflexivity | lia].
Qed.

Lemma shr_exact (m e n : Z) :
  0 <= m -> 0 <= n -> (2 ^ n | m) ->
  shr (Build_shr_record m false false) e n
  = (Build_shr_record (m / 2 ^ n) false false, e + n).
Proof.
  intros Hm Hn Hdiv. destruct n as [ | p | p]; cbn [shr]; try lia.
  - cbn. rewrite Z.div_1_r, Z.add_0_r. reflexivity.
  - rewrite iter_pos_nat, iter_shr_exact, positive_nat_Z; try assumption.
    + reflexivity.
    + rewrite positive_nat_Z. assumption.
Qed.

Lemma iter_xO_spec (m d : positive) :
  Zpos (Pos.iter xO m d) = Zpos m * 2 ^ Zpos d.
Proof.
  induction d as [ | d IH] using Pos.peano_ind.
  - cbn. lia.
  - rewrite Pos.iter_succ, Pos2Z.inj_succ, Z.pow_succ_r by lia.
    rewrite (Pos2Z.inj_xO (Pos.iter xO m d)), IH. ring.
Qed.

Lemma shl_align_spec (mx : positive) (ex e' : Z) :
  let '(mz, ez) := shl_align mx ex e' in
  ez = Z.min ex e' /\ Zpos mz = Zpos mx * 2 ^ (ex - ez).
Proof.
  unfold shl_align. destruct (e' - ex) as [ | d | d] eqn:Hd.
  - replace (Z.min ex e') with ex by lia. rewrite Z.sub_diag. cbn. lia.
  - replace (Z.min ex e') with ex by lia. rewrite Z.sub_diag. cbn. lia.
  - replace (Z.min ex e') with e' by lia. split; [reflexivity | ].
    rewrite iter_xO_spec. f_equal. f_equal. lia.
Qed.

End Shifts.

(** ** Dyadic rationals *)

Section Dyadic.

Local Open Scope Q_scope.

Lemma pow2_pos (e : Z) : 0 < 2 ^ e.
Proof. apply Qpower_0_lt. reflexivity. Qed.

Lemma pow2_add (a b : Z) : 2 ^ (a + b) == 2 ^ a * 2 ^ b.
Proof. apply Qpower_plus. discriminate. Qed.

Lemma pow2_inject (k : Z) : (0 <= k)%Z -> inject_Z (2 ^ k) == 2 ^ k.
Proof. intros Hk. apply (Zpower_Qpower 2 k Hk). Qed.

Lemma dyadic_shift (m a b : Z) :
  (b <= a)%Z -> dyadic (m * 2 ^ (a - b)) b == dyadic m a.
Proof.
  intros Hab. unfold dyadic.
  rewrite inject_Z_mult, pow2_inject by lia.
  replace a with ((a - b) + b)%Z at 2 by lia.
  rewrite pow2_add. ring.
Qed.

Lemma dyadic_inj (m m' e : Z) : dyadic m e == dyadic m' e -> m = m'.
Proof.
  unfold dyadic. intros H. apply inject_Z_injective.
  apply Qmult_inj_r in H; [assumption | ].
  pose proof (pow2_pos e) as Hp. intros Hz. rewrite Hz in Hp.
  apply Qlt_irrefl in Hp. exact Hp.
Qed.

Lemma dyadic_eq_le (m e m' e' : Z) :
  dyadic m e == dyadic m' e' -> (e <= e')%Z -> m = (m' * 2 ^ (e' - e))%Z.
Proof.
  intros H Hle. apply (dyadic_inj _ _ e).
  rewrite dyadic_shift by assumption. exact H.
Qed.

Lemma dyadic_add (m m' e : Z) : dyadic m e + dyadic m' e == dyadic (m + m') e.
Proof. unfold dyadic. rewrite inject_Z_plus. ring. Qed.

Lemma dyadic_opp (m e : Z) : - dyadic m e == dyadic (- m) e.
Proof. unfold dyadic. rewrite inject_Z_opp. ring. Qed.

Lemma dyadic_sub (m m' e : Z) : dyadic m e - dyadic m' e == dyadic (m - m') e.
Proof. unfold dyadic, Z.sub. rewrite inject_Z_plus, inject_Z_opp. ring. Qed.

Lemma dyadic_0 (e : Z) : dyadic 0 e == 0.
Proof. unfold dyadic. ring. Qed.

Lemma dyadic_int (m : Z) : dyadic m 0 == inject_Z m.
Proof. unfold dyadic. change (2 ^ 0) with 1. ring. Qed.

Lemma dyadic_sign (m e : Z) : (0 < m)%Z <-> 0 < dyadic m e.
Proof.
  unfold dyadic. pose proof (pow2_pos e) as Hp. split; intros H.
  - apply Qmult_lt_0_compat; [ | assumption].
    rewrite Zlt_Qlt in H. exact H.
  - rewrite Zlt_Qlt. apply (Qmult_lt_r _ _ (2 ^ e)); [assumption | ].
    rewrite Qmult_0_l. exact H.
Qed.

Lemma dyadic_digits (m e m' e' : Z) :
  (0 < m)%Z -> (0 < m')%Z -> dyadic m e == dyadic m' e' ->
  (Zdigits2 m + e = Zdigits2 m' + e')%Z.
Proof.
  intros Hm Hm' H. destruct (Z_le_gt_dec e e') as [Hle | Hgt].
  - rewrite (dyadic_eq_le _ _ _ _ H Hle), Zdigits2_mul_pow by lia. lia.
  - symmetry in H.
    rewrite (dyadic_eq_le _ _ _ _ H ltac:(lia)), Zdigits2_mul_pow by lia. lia.
Qed.

End Dyadic.


(** ** Rounding to the nearest integer *)

Section NearestEven.

Local Open Scope Q_scope.

Lemma dyadic_le (m m' e : Z) : (m <= m')%Z -> dyadic m e <= dyadic m' e.
Proof.
  intros H. unfold dyadic. apply Qmult_le_compat_r.
  - rewrite <- Zle_Qle. exact H.
  - apply Qlt_le_weak, pow2_pos.
Qed.

Lemma dyadic_le_inv (m m' e : Z) : dyadic m e <= dyadic m' e -> (m <= m')%Z.
Proof.
  unfold dyadic. intros H. rewrite Zle_Qle.
  apply (Qmult_le_r _ _ (2 ^ e)); [apply pow2_pos | exact H].
Qed.

Lemma dyadic_abs (m e : Z) : Qabs (dyadic m e) == dyadic (Z.abs m) e.
Proof.
  unfold dyadic. rewrite Qabs_Qmult.
  rewrite (Qabs_pos (2 ^ e)) by (apply Qlt_le_weak, pow2_pos).
  apply Qmult_comp; [ | reflexivity].
  destruct m as [ | p | p]; reflexivity.
Qed.

Lemma dyadic_half (k : positive) : dyadic (2 ^ Zpos k) (Zneg k) == 1.
Proof.
  rewrite <- (dyadic_int 1), <- (dyadic_shift 1 0 (Zneg k)) by lia.
  rewrite Z.mul_1_l. reflexivity.
Qed.

(** The distance of the integer [n] to the dyadic [m / 2^k], scaled by [2^k]. *)
Lemma int_minus_dyadic (n m : Z) (k : positive) :
  inject_Z n - dyadic m (Zneg k) == dyadic (n * 2 ^ Zpos k - m) (Zneg k).
Proof.
  rewrite <- dyadic_sub, <- (dyadic_int n), (dyadic_shift n 0 (Zneg k)) by lia.
  reflexivity.
Qed.

Lemma dist_le_half (n m : Z) (k : positive) :
  Qabs (inject_Z n - dyadic m (Zneg k)) <= 1 # 2
  <-> (2 * Z.abs (n * 2 ^ Zpos k - m) <= 2 ^ Zpos k)%Z.
Proof.
  rewrite int_minus_dyadic, dyadic_abs.
  set (d := Z.abs (n * 2 ^ Zpos k - m)).
  assert (H2 : dyadic (2 * d) (Zneg k) == 2 * dyadic d (Zneg k)).
  { unfold dyadic. rewrite inject_Z_mult. ring. }
  pose proof (dyadic_half k) as H1. split; intros H.
  - apply (dyadic_le_inv _ _ (Zneg k)). rewrite H2, H1. lra.
  - apply (dyadic_le _ _ (Zneg k)) in H. rewrite H2, H1 in H. lra.
Qed.

Lemma dist_eq_half (n m : Z) (k : positive) :
  Qabs (inject_Z n - dyadic m (Zneg k)) == 1 # 2
  -> (2 * Z.abs (n * 2 ^ Zpos k - m) = 2 ^ Zpos k)%Z.
Proof.
  rewrite int_minus_dyadic, dyadic_abs.
  set (d := Z.abs (n * 2 ^ Zpos k - m)).
  assert (H2 : dyadic (2 * d) (Zneg k) == 2 * dyadic d (Zneg k)).
  { unfold dyadic. rewrite inject_Z_mult. ring. }
  pose proof (dyadic_half k) as H1. intros H.
  apply (dyadic_inj _ _ (Zneg k)). rewrite H2, H1, H. reflexivity.
Qed.

(** [round_half_even_pos] picks the nearest integer, the even one on a tie. *)
Theorem round_half_even_pos_nearest (m : positive) (e : Z) :
  nearest_even (dyadic (Zpos m) e) (round_half_even_pos m e).
Proof.
  assert (Hexact : forall n, inject_Z n == dyadic (Zpos m) e ->
                             nearest_even (dyadic (Zpos m) e) n).
  { intros n Hn. unfold nearest_even.
    assert (Hd : Qabs (inject_Z n - dyadic (Zpos m) e) == 0).
    { rewrite Hn. setoid_replace (dyadic (Zpos m) e - dyadic (Zpos m) e) with 0 by ring.
      reflexivity. }
    rewrite Hd. split; [lra | ]. intros Habs. lra. }
  destruct e as [ | k | k]; cbn [round_half_even_pos].
  - apply Hexact. rewrite dyadic_int. reflexivity.
  - apply Hexact. rewrite <- dyadic_int.
    rewrite <- (dyadic_shift (Zpos m) (Zpos k) 0) by lia.
    rewrite Z.sub_0_r. reflexivity.
  - set (P := (2 ^ Zpos k)%Z).
    assert (HP : (0 < P)%Z) by (apply Z.pow_pos_nonneg; lia).
    pose proof (Z.div_mod (Zpos m) P ltac:(lia)) as Hdm.
    pose proof (Z.mod_pos_bound (Zpos m) P HP) as Hr.
    set (q := (Zpos m / P)%Z) in *. set (r := (Zpos m mod P)%Z) in *.
    unfold nearest_even.
    destruct (2 * r ?= P)%Z eqn:Hc.
    + apply Z.compare_eq in Hc.
      destruct (Z.even q) eqn:Hev.
      * split; [apply dist_le_half; fold P; nia | intros _; exact Hev].
      * split; [apply dist_le_half; fold P; nia | ].
        intros _. rewrite Z.add_1_r, Z.even_succ, <- Z.negb_even, Hev. reflexivity.
    + rewrite Z.compare_lt_iff in Hc.
      split; [apply dist_le_half; fold P; nia | ].
      intros Habs. apply dist_eq_half in Habs. fold P in Habs. nia.
    + rewrite Z.compare_gt_iff in Hc.
      split; [apply dist_le_half; fold P; nia | ].
      intros Habs. apply dist_eq_half in Habs. fold P in Habs. nia.
Qed.

Lemma nearest_even_opp (q : Q) (n : Z) :
  nearest_even q n -> nearest_even (- q) (- n).
Proof.
  unfold nearest_even. intros [H1 H2].
  assert (Heq : Qabs (inject_Z (- n) - - q) == Qabs (inject_Z n - q)).
  { rewrite inject_Z_opp, <- Qabs_opp. apply Qabs_wd. ring. }
  rewrite Heq, Z.even_opp. split; assumption.
Qed.

Lemma nearest_even_compat (q q' : Q) (n : Z) :
  q == q' -> nearest_even q n -> nearest_even q' n.
Proof.
  unfold nearest_even. intros Heq [H1 H2].
  assert (Hd : Qabs (inject_Z n - q') == Qabs (inject_Z n - q)).
  { apply Qabs_wd. rewrite Heq. reflexivity. }
  rewrite Hd. split; assumption.
Qed.

(** There is one such integer. *)
Theorem nearest_even_unique (q : Q) (n n' : Z) :
  nearest_even q n -> nearest_even q n' -> n = n'.
Proof.
  unfold nearest_even. intros [H1 H2] [H1' H2'].
  pose proof H1 as B. pose proof H1' as B'.
  apply Qabs_Qle_condition in B. apply Qabs_Qle_condition in B'.
  assert (Hz : (n' - 1 <= n <= n' + 1)%Z).
  { split; rewrite Zle_Qle; [unfold Z.sub; rewrite inject_Z_plus, inject_Z_opp | rewrite inject_Z_plus];
      change (inject_Z 1) with 1; lra. }
  destruct (Z.eq_dec n n') as [ | Hne]; [assumption | exfalso].
  assert (Hcase : n = (n' + 1)%Z \/ n' = (n + 1)%Z) by lia.
  assert (Htie : forall a b : Z, b = (a + 1)%Z ->
            Qabs (inject_Z a - q) <= 1 # 2 -> Qabs (inject_Z b - q) <= 1 # 2 ->
            Qabs (inject_Z a - q) == 1 # 2 /\ Qabs (inject_Z b - q) == 1 # 2).
  { intros a b -> Ha Hb. rewrite inject_Z_plus in *. change (inject_Z 1) with 1 in *.
    pose proof Ha as Ha'. pose proof Hb as Hb'.
    apply Qabs_Qle_condition in Ha'. apply Qabs_Qle_condition in Hb'.
    split.
    - rewrite Qabs_neg by lra. lra.
    - rewrite Qabs_pos by lra. lra. }
  destruct Hcase as [-> | ->].
  - destruct (Htie n' (n' + 1)%Z eq_refl H1' H1) as [T' T].
    specialize (H2 T). specialize (H2' T').
    rewrite Z.add_1_r, Z.even_succ, <- Z.negb_even, H2' in H2. discriminate.
  - destruct (Htie n (n + 1)%Z eq_refl H1 H1') as [T T'].
    specialize (H2 T). specialize (H2' T').
    rewrite Z.add_1_r, Z.even_succ, <- Z.negb_even, H2 in H2'. discriminate.
Qed.

End NearestEven.

(** ** Rounding to the format *)

Section Format.

Variables prec emax : Z.
Hypothesis prec_pos : 0 < prec.
Hypothesis prec_lt_emax : prec < emax.

Local Set Default Proof Using "prec_pos prec_lt_emax".

Abbreviation fexp := (SpecFloat.fexp prec emax).
Abbreviation emin := (SpecFloat.emin prec emax).

Lemma fexp_ge_emin (e : Z) : emin <= fexp e.
Proof. unfold SpecFloat.fexp. lia. Qed.

Lemma fexp_mono (a b : Z) : a <= b -> fexp a <= fexp b.
Proof. unfold SpecFloat.fexp. lia. Qed.

Lemma shr_fexp_spec (m e : Z) (l : location) :
  0 <= m ->
  let n := Z.max 0 (fexp (Zdigits2 m + e) - e) in
  shr_m (fst (shr_fexp prec emax m e l)) = m / 2 ^ n
  /\ snd (shr_fexp prec emax m e l) = e + n.
Proof.
  intros Hm n. unfold shr_fexp.
  assert (Hl : shr_m (shr_record_of_loc m l) = m) by (destruct l as [ | [ | | ]]; reflexivity).
  destruct (shr_spec (shr_record_of_loc m l) e (fexp (Zdigits2 m + e) - e)) as [H1 H2].
  - rewrite Hl. exact Hm.
  - rewrite Hl in H1. split; assumption.
Qed.

Lemma shr_fexp_canonical (m e : Z) (l : location) :
  0 < m ->
  let n := fexp (Zdigits2 m + e) - e in
  0 <= n < Zdigits2 m ->
  canonical prec emax (shr_m (fst (shr_fexp prec emax m e l))) (snd (shr_fexp prec emax m e l))
  /\ 0 < shr_m (fst (shr_fexp prec emax m e l)).
Proof.
  intros Hm n Hn.
  destruct (shr_fexp_spec m e l ltac:(lia)) as [-> ->].
  fold n. replace (Z.max 0 n) with n by lia.
  unfold canonical. rewrite Zdigits2_div_pow by lia.
  split.
  - replace (Zdigits2 m - n + (e + n)) with (Zdigits2 m + e) by lia. lia.
  - destruct (Zdigits2_bounds m Hm) as [_ Hb].
    assert (2 ^ n <= 2 ^ (Zdigits2 m - 1)) by (apply Z.pow_le_mono_r; lia).
    assert (0 < 2 ^ n) by (apply Z.pow_pos_nonneg; lia).
    apply Z.div_str_pos. lia.
Qed.

Lemma shr_fexp_exact (m e : Z) :
  0 < m ->
  let n := fexp (Zdigits2 m + e) - e in
  0 <= n -> (2 ^ n | m) ->
  shr_fexp prec emax m e loc_Exact
  = (Build_shr_record (m / 2 ^ n) false false, e + n).
Proof.
  intros Hm n Hn Hdiv. unfold shr_fexp. cbn [shr_record_of_loc].
  apply shr_exact; [lia | assumption | assumption].
Qed.

Lemma binary_round_aux_unfold (sx : bool) (mx ex : Z) (lx : location) :
  binary_round_aux prec emax sx mx ex lx =
  let s1 := shr_fexp prec emax mx ex lx in
  let s2 := shr_fexp prec emax
              (round_nearest_even (shr_m (fst s1)) (loc_of_shr_record (fst s1)))
              (snd s1) loc_Exact in
  match shr_m (fst s2) with
  | Z0 => S754_zero sx
  | Zpos m => if snd s2 <=? emax - prec then S754_finite sx m (snd s2)
              else S754_infinity sx
  | Zneg _ => S754_nan
  end.
Proof.
  unfold binary_round_aux.
  destruct (shr_fexp prec emax mx ex lx) as [mrs' e']. cbn [fst snd].
  destruct (shr_fexp prec emax _ e' loc_Exact) as [mrs'' e'']. reflexivity.
Qed.

Lemma round_nearest_even_cases (m : Z) (l : location) :
  round_nearest_even m l = m \/ round_nearest_even m l = m + 1.
Proof.
  destruct l as [ | [ | | ]]; cbn; auto. destruct (Z.even m); auto.
Qed.

(** The last two steps of [binary_round_aux]: a mantissa in canonical
    position is incremented or not, and renormalised. *)
Lemma round_finish_spec (sx : bool) (m1 m2 e1 : Z) :
  0 <= m1 -> canonical prec emax m1 e1 -> m2 = m1 \/ m2 = m1 + 1 ->
  let s2 := shr_fexp prec emax m2 e1 loc_Exact in
  let r := match shr_m (fst s2) with
           | Z0 => S754_zero sx
           | Zpos m => if snd s2 <=? emax - prec then S754_finite sx m (snd s2)
                       else S754_infinity sx
           | Zneg _ => S754_nan
           end in
  valid_binary prec emax r = true
  /\ (0 < m2 -> forall s, r <> S754_zero s).
Proof.
  intros Hm1 Hcan Hm2 s2 r.
  destruct (Z.eq_dec m2 0) as [Hz | Hnz].
  - assert (Hs : shr_m (fst s2) = 0).
    { subst s2. destruct (shr_fexp_spec m2 e1 loc_Exact ltac:(lia)) as [-> _].
      subst m2. apply Z.div_0_l. apply Z.pow_nonzero; lia. }
    subst r. rewrite Hs. split; [reflexivity | lia].
  - assert (Hpos : 0 < m2) by lia.
    assert (Hn : 0 <= fexp (Zdigits2 m2 + e1) - e1 < Zdigits2 m2).
    { unfold canonical in Hcan.
      destruct (Zdigits2_bounds m2 Hpos) as [Hd2 Hb2].
      destruct (Z.eq_dec m1 0) as [Hz1 | Hnz1].
      - subst m1. assert (m2 = 1) by lia. subst m2. clear Hb2.
        change (Zdigits2 0) with 0 in Hcan. change (Zdigits2 1) with 1.
        unfold SpecFloat.fexp, SpecFloat.emin in *. lia.
      - destruct (Zdigits2_bounds m1 ltac:(lia)) as [Hd1 Hb1].
        assert (Zdigits2 m1 <= Zdigits2 m2) by (apply Zdigits2_le; lia).
        assert (Zdigits2 m2 <= Zdigits2 m1 + 1).
        { apply Zdigits2_le_pow; [lia | ].
          rewrite Z.pow_add_r by lia. change (2 ^ 1) with 2. lia. }
        assert (Zdigits2 m2 = Zdigits2 m1 + 1 -> 2 <= Zdigits2 m2) by lia.
        unfold SpecFloat.fexp, SpecFloat.emin in *. lia. }
    destruct (shr_fexp_canonical m2 e1 loc_Exact Hpos Hn) as [Hc Hp].
    fold s2 in Hc, Hp. subst r.
    destruct (shr_m (fst s2)) as [ | m | m] eqn:Hs; try lia.
    destruct (snd s2 <=? emax - prec) eqn:Hle.
    + split; [ | intros _ s; discriminate].
      cbn [valid_binary]. unfold bounded, canonical_mantissa.
      rewrite Hle, andb_true_r. apply Z.eqb_eq. exact Hc.
    + split; [reflexivity | intros _ s; discriminate].
Qed.

Lemma shl_align_fexp_spec (mx : positive) (ex : Z) :
  let t := fexp (Zpos (digits2_pos mx) + ex) in
  let '(mz, ez) := shl_align mx ex t in
  ez = Z.min ex t
  /\ Zpos mz = Zpos mx * 2 ^ (ex - ez)
  /\ fexp (Zdigits2 (Zpos mz) + ez) = t.
Proof.
  intros t. pose proof (shl_align_spec mx ex t) as H.
  destruct (shl_align mx ex t) as [mz ez]. destruct H as [He Hm].
  split; [assumption | split; [assumption | ]].
  rewrite Hm, Zdigits2_mul_pow by lia. subst t. f_equal. cbn [Zdigits2]. lia.
Qed.

(** The first half of [binary_round]: the mantissa is brought to the
    canonical exponent, which leaves a non-negative mantissa [m1] and the
    position [l] of the discarded bits. *)
Lemma binary_round_steps (sx : bool) (mx : positive) (ex : Z) :
  exists (m1 e1 : Z) (l : location),
    0 <= m1 /\ canonical prec emax m1 e1 /\ (emin <= ex -> 0 < m1)
    /\ binary_round prec emax sx mx ex =
       let s2 := shr_fexp prec emax (round_nearest_even m1 l) e1 loc_Exact in
       match shr_m (fst s2) with
       | Z0 => S754_zero sx
       | Zpos m => if snd s2 <=? emax - prec then S754_finite sx m (snd s2)
                   else S754_infinity sx
       | Zneg _ => S754_nan
       end.
Proof.
  unfold binary_round.
  pose proof (shl_align_fexp_spec mx ex) as H. cbn zeta in H.
  destruct (shl_align mx ex _) as [mz ez]. destruct H as (He & Hm & Ht).
  set (t := fexp (Zpos (digits2_pos mx) + ex)) in *.
  rewrite binary_round_aux_unfold. cbn zeta.
  set (s1 := shr_fexp prec emax (Zpos mz) ez loc_Exact).
  assert (Hn : 0 <= t - ez) by lia.
  destruct (shr_fexp_spec (Zpos mz) ez loc_Exact ltac:(lia)) as [Hs1m Hs1e].
  rewrite Ht in Hs1m, Hs1e. fold s1 in Hs1m, Hs1e.
  replace (Z.max 0 (t - ez)) with (t - ez) in * by lia.
  replace (ez + (t - ez)) with t in Hs1e by lia.
  exists (shr_m (fst s1)), t, (loc_of_shr_record (fst s1)).
  rewrite Hs1e. repeat split.
  - rewrite Hs1m. apply Z.div_pos; [lia | apply Z.pow_pos_nonneg; lia].
  - rewrite Hs1m. unfold canonical.
    destruct (Z_lt_le_dec (t - ez) (Zdigits2 (Zpos mz))) as [Hlt | Hge].
    + rewrite Zdigits2_div_pow by lia.
      replace (Zdigits2 (Zpos mz) - (t - ez) + t) with (Zdigits2 (Zpos mz) + ez) by lia.
      exact Ht.
    + rewrite Zdigits2_div_small by lia. cbn [Zdigits2].
      unfold SpecFloat.fexp, SpecFloat.emin in *.
      pose proof (Zdigits2_nonneg (Zpos mz)). lia.
  - intros Hex. rewrite Hs1m.
    assert (Hlt : t - ez < Zdigits2 (Zpos mz)).
    { pose proof (proj1 (Zdigits2_bounds (Zpos mz) ltac:(lia))).
      unfold SpecFloat.fexp, SpecFloat.emin in *. lia. }
    destruct (Zdigits2_bounds (Zpos mz) ltac:(lia)) as [_ Hb].
    assert (2 ^ (t - ez) <= 2 ^ (Zdigits2 (Zpos mz) - 1)) by (apply Z.pow_le_mono_r; lia).
    assert (0 < 2 ^ (t - ez)) by (apply Z.pow_pos_nonneg; lia).
    apply Z.div_str_pos. lia.
Qed.

(** Whatever is rounded, the result is a well-formed float. *)
Theorem binary_round_valid (sx : bool) (mx : positive) (ex : Z) :
  valid_binary prec emax (binary_round prec emax sx mx ex) = true.
Proof.
  destruct (binary_round_steps sx mx ex) as (m1 & e1 & l & Hm1 & Hcan & _ & ->).
  apply (round_finish_spec sx m1 _ e1 Hm1 Hcan (round_nearest_even_cases m1 l)).
Qed.

(** A number that is not below the least exponent is not rounded to zero. *)
Theorem binary_round_not_zero (sx : bool) (mx : positive) (ex : Z) (s : bool) :
  emin <= ex -> binary_round prec emax sx mx ex <> S754_zero s.
Proof.
  intros Hex.
  destruct (binary_round_steps sx mx ex) as (m1 & e1 & l & Hm1 & Hcan & Hpos & ->).
  apply (round_finish_spec sx m1 _ e1 Hm1 Hcan (round_nearest_even_cases m1 l)).
  destruct (round_nearest_even_cases m1 l) as [-> | ->]; specialize (Hpos Hex); lia.
Qed.

Lemma binary_round_aux_exact (sx : bool) (m e : Z) :
  0 < m ->
  let n := fexp (Zdigits2 m + e) - e in
  0 <= n -> (2 ^ n | m) -> e + n <= emax - prec ->
  binary_round_aux prec emax sx m e loc_Exact
  = S754_finite sx (Z.to_pos (m / 2 ^ n)) (e + n).
Proof.
  intros Hm n Hn Hdiv Hmax.
  assert (Hp : 0 < 2 ^ n) by (apply Z.pow_pos_nonneg; lia).
  assert (Hq : 0 < m / 2 ^ n).
  { destruct Hdiv as [q Hq]. rewrite Hq, Z.div_mul by lia. nia. }
  assert (Hlt : n < Zdigits2 m).
  { destruct (Z_lt_le_dec n (Zdigits2 m)) as [ | Hge]; [assumption | ].
    rewrite Zdigits2_div_small in Hq by lia. lia. }
  rewrite binary_round_aux_unfold. cbn zeta.
  rewrite (shr_fexp_exact m e Hm Hn Hdiv). fold n.
  cbn [fst snd shr_m loc_of_shr_record round_nearest_even].
  assert (Hcan : fexp (Zdigits2 (m / 2 ^ n) + (e + n)) - (e + n) = 0).
  { rewrite Zdigits2_div_pow by lia.
    replace (Zdigits2 m - n + (e + n)) with (Zdigits2 m + e) by lia. lia. }
  rewrite shr_fexp_exact; rewrite ?Hcan; try lia.
  - cbn [fst snd shr_m]. change (2 ^ 0) with 1. rewrite Z.div_1_r, Z.add_0_r.
    destruct (m / 2 ^ n) as [ | q | q] eqn:Hmq; try lia.
    replace (e + n <=? emax - prec) with true by (symmetry; apply Z.leb_le; lia).
    reflexivity.
  - exists (m / 2 ^ n). change (2 ^ 0) with 1. lia.
Qed.

(** Rounding is the identity on a number that fits prec emax the format. *)
Theorem binary_round_exact (sx : bool) (mx : positive) (ex : Z) :
  let t := fexp (Zpos (digits2_pos mx) + ex) in
  (ex < t -> (2 ^ (t - ex) | Zpos mx)) ->
  t <= emax - prec ->
  exists mz : positive,
    binary_round prec emax sx mx ex = S754_finite sx mz t
    /\ Zpos mz * 2 ^ (t - Z.min ex t) = Zpos mx * 2 ^ (ex - Z.min ex t).
Proof.
  intros t Hdiv Hmax. unfold binary_round.
  pose proof (shl_align_fexp_spec mx ex) as H. cbn zeta in H. fold t in H.
  fold t.
  destruct (shl_align mx ex t) as [mz ez]. destruct H as (He & Hm & Ht).
  assert (Hdiv' : (2 ^ (t - ez) | Zpos mz)).
  { destruct (Z_lt_le_dec ex t) as [Hlt | Hge].
    - replace ez with ex in * by lia. rewrite Z.sub_diag in Hm.
      change (2 ^ 0) with 1 in Hm. rewrite Hm, Z.mul_1_r. auto.
    - replace ez with t in * by lia. rewrite Z.sub_diag. exists (Zpos mz).
      change (2 ^ 0) with 1. lia. }
  rewrite binary_round_aux_exact; rewrite ?Ht; try lia; try assumption.
  replace (ez + (t - ez)) with t by lia.
  assert (Hp : 0 < 2 ^ (t - ez)) by (apply Z.pow_pos_nonneg; lia).
  destruct Hdiv' as [q Hq].
  assert (Hq0 : 0 < q) by nia.
  exists (Z.to_pos q). split.
  - rewrite Hq, Z.div_mul by lia. reflexivity.
  - rewrite Z2Pos.id by assumption. rewrite <- He, <- Hm, Hq. reflexivity.
Qed.


Lemma valid_finite_bounds (s : bool) (m : positive) (e : Z) :
  valid_binary prec emax (S754_finite s m e) = true ->
  Zdigits2 (Zpos m) <= prec /\ emin <= e /\ Zdigits2 (Zpos m) + e <= emax
  /\ fexp (Zdigits2 (Zpos m) + e) = e.
Proof.
  cbn [valid_binary]. unfold bounded, canonical_mantissa.
  intros H. apply andb_true_iff in H. destruct H as [Hc Hb].
  apply Z.eqb_eq in Hc. apply Z.leb_le in Hb. cbn [Zdigits2].
  unfold SpecFloat.fexp, SpecFloat.emin in *. lia.
Qed.

Lemma valid_fits (x : spec_float) :
  valid_binary prec emax x = true -> fits prec emax (to_Q x).
Proof.
  assert (H0 : fits prec emax 0%Q).
  { exists 0, emin. rewrite dyadic_0. change (Zdigits2 (Z.abs 0)) with 0.
    unfold SpecFloat.emin. repeat split; try reflexivity; lia. }
  destruct x as [s | s | | s m e]; intros Hv; try exact H0.
  destruct (valid_finite_bounds s m e Hv) as (H1 & H2 & H3 & _).
  exists (cond_Zopp s (Zpos m)), e. cbn [to_Q].
  replace (Z.abs (cond_Zopp s (Zpos m))) with (Zpos m) by (destruct s; reflexivity).
  repeat split; try assumption; reflexivity.
Qed.

Lemma binary_round_fits (sx : bool) (mx : positive) (ex : Z) :
  fits prec emax (dyadic (Zpos mx) ex) ->
  is_finite (binary_round prec emax sx mx ex) = true
  /\ (to_Q (binary_round prec emax sx mx ex) == dyadic (cond_Zopp sx (Zpos mx)) ex)%Q.
Proof.
  intros (m' & e' & Hq & Hd & He & Hmax).
  assert (Hm' : 0 < m').
  { apply (dyadic_sign m' e'). rewrite <- Hq. apply dyadic_sign. lia. }
  rewrite Z.abs_eq in * by lia.
  pose proof (dyadic_digits (Zpos mx) ex m' e' ltac:(lia) Hm' Hq) as HD. cbn [Zdigits2] in HD.
  set (t := fexp (Zpos (digits2_pos mx) + ex)).
  assert (Ht : t <= e') by (subst t; unfold SpecFloat.fexp, SpecFloat.emin in *; lia).
  destruct (binary_round_exact sx mx ex) as (mz & Hr & Hv).
  - fold t. intros Hlt.
    rewrite (dyadic_eq_le _ _ _ _ Hq ltac:(lia)).
    replace (e' - ex) with ((e' - t) + (t - ex)) by lia.
    rewrite Z.pow_add_r by lia. exists (m' * 2 ^ (e' - t)). ring.
  - fold t. subst t. unfold SpecFloat.fexp, SpecFloat.emin in *. lia.
  - fold t in Hr, Hv. rewrite Hr. split; [reflexivity | ]. cbn [to_Q].
    assert (Hpos : (dyadic (Zpos mz) t == dyadic (Zpos mx) ex)%Q).
    { rewrite <- (dyadic_shift (Zpos mz) t (Z.min ex t)) by lia.
      rewrite <- (dyadic_shift (Zpos mx) ex (Z.min ex t)) by lia.
      rewrite Hv. reflexivity. }
    destruct sx; cbn [cond_Zopp].
    + change (Zneg mz) with (- Zpos mz). change (Zneg mx) with (- Zpos mx).
      rewrite <- !dyadic_opp, Hpos. reflexivity.
    + exact Hpos.
Qed.

Lemma fits_opp (q : Q) : fits prec emax q -> fits prec emax (- q).
Proof.
  intros (m & e & Hq & H). exists (- m), e. rewrite Z.abs_opp.
  split; [ | assumption]. rewrite Hq. apply dyadic_opp.
Qed.

Lemma fits_compat (q q' : Q) : (q == q')%Q -> fits prec emax q -> fits prec emax q'.
Proof.
  intros Heq (m & e & Hq & H). exists m, e. split; [ | assumption].
  rewrite <- Heq. exact Hq.
Qed.

(** Normalisation of a number that fits prec emax the format is exact. *)
Theorem binary_normalize_fits (m e : Z) (sz : bool) :
  fits prec emax (dyadic m e) ->
  is_finite (binary_normalize prec emax m e sz) = true
  /\ (to_Q (binary_normalize prec emax m e sz) == dyadic m e)%Q.
Proof.
  intros Hf. destruct m as [ | p | p]; cbn [binary_normalize].
  - split; [reflexivity | ]. cbn [to_Q]. rewrite dyadic_0. reflexivity.
  - apply (binary_round_fits false p e Hf).
  - apply (binary_round_fits true p e).
    apply (fits_compat (- dyadic (Zneg p) e)); [ | apply fits_opp, Hf].
    rewrite dyadic_opp. reflexivity.
Qed.

Theorem binary_normalize_valid (m e : Z) (sz : bool) :
  valid_binary prec emax (binary_normalize prec emax m e sz) = true.
Proof.
  destruct m; cbn [binary_normalize];
    [reflexivity | apply binary_round_valid ..].
Qed.


(** *** Sums and differences *)

Lemma aligned_value (s : bool) (m : positive) (e ez : Z) :
  ez <= e ->
  (dyadic (cond_Zopp s (Zpos (fst (shl_align m e ez)))) ez
   == to_Q (S754_finite s m e))%Q.
Proof.
  intros Hle. pose proof (shl_align_spec m e ez) as H.
  destruct (shl_align m e ez) as [mz e0]. destruct H as [He Hm]. cbn [fst to_Q].
  replace e0 with ez in Hm by lia.
  rewrite <- (dyadic_shift (cond_Zopp s (Zpos m)) e ez) by assumption.
  destruct s; cbn [cond_Zopp].
  - change (Zneg mz) with (- Zpos mz). change (Zneg m) with (- Zpos m).
    rewrite Hm, Z.mul_opp_l. reflexivity.
  - rewrite Hm. reflexivity.
Qed.

Theorem SFadd_valid (x y : spec_float) :
  valid_binary prec emax x = true -> valid_binary prec emax y = true ->
  valid_binary prec emax (SFadd prec emax x y) = true.
Proof.
  intros Hx Hy.
  destruct x as [sx | sx | | sx mx ex], y as [sy | sy | | sy my ey];
    cbn [SFadd]; try assumption; try reflexivity;
    try (destruct sx, sy; reflexivity).
  apply binary_normalize_valid.
Qed.

Theorem SFsub_valid (x y : spec_float) :
  valid_binary prec emax x = true -> valid_binary prec emax y = true ->
  valid_binary prec emax (SFsub prec emax x y) = true.
Proof.
  intros Hx Hy.
  destruct x as [sx | sx | | sx mx ex], y as [sy | sy | | sy my ey];
    cbn [SFsub]; try assumption; try reflexivity;
    try (destruct sx, sy; reflexivity).
  apply binary_normalize_valid.
Qed.

(** A sum that fits prec emax the format is computed without error. *)
Theorem SFadd_exact (x y : spec_float) :
  is_finite x = true -> is_finite y = true ->
  fits prec emax (to_Q x + to_Q y) ->
  is_finite (SFadd prec emax x y) = true
  /\ (to_Q (SFadd prec emax x y) == to_Q x + to_Q y)%Q.
Proof.
  intros Hx Hy Hf.
  destruct x as [sx | sx | | sx mx ex], y as [sy | sy | | sy my ey];
    try discriminate; cbn [SFadd].
  - split; [destruct sx, sy; reflexivity | ].
    destruct sx, sy; cbn [to_Q]; ring.
  - split; [reflexivity | ]. cbn [to_Q]. ring.
  - split; [reflexivity | ]. cbn [to_Q]. ring.
  - set (ez := Z.min ex ey).
    set (a := cond_Zopp sx (Zpos (fst (shl_align mx ex ez)))).
    set (b := cond_Zopp sy (Zpos (fst (shl_align my ey ez)))).
    assert (Hv : (dyadic (a + b) ez
                  == to_Q (S754_finite sx mx ex) + to_Q (S754_finite sy my ey))%Q).
    { rewrite <- dyadic_add. subst a b.
      rewrite !aligned_value by (subst ez; lia). reflexivity. }
    destruct (binary_normalize_fits (a + b) ez false) as [Hfin Hval].
    + apply (fits_compat _ _ (Qeq_sym _ _ Hv)). exact Hf.
    + split; [exact Hfin | ]. rewrite Hval. exact Hv.
Qed.

(** A difference that fits prec emax the format is computed without error. *)
Theorem SFsub_exact (x y : spec_float) :
  is_finite x = true -> is_finite y = true ->
  fits prec emax (to_Q x - to_Q y) ->
  is_finite (SFsub prec emax x y) = true
  /\ (to_Q (SFsub prec emax x y) == to_Q x - to_Q y)%Q.
Proof.
  intros Hx Hy Hf.
  destruct x as [sx | sx | | sx mx ex], y as [sy | sy | | sy my ey];
    try discriminate; cbn [SFsub].
  - split; [destruct sx, sy; reflexivity | ].
    destruct sx, sy; cbn [to_Q]; ring.
  - split; [reflexivity | ]. cbn [to_Q].
    destruct sy; cbn [negb cond_Zopp].
    + change (Zneg my) with (- Zpos my). rewrite <- dyadic_opp. ring.
    + change (Zneg my) with (- Zpos my). rewrite <- dyadic_opp. ring.
  - split; [reflexivity | ]. cbn [to_Q]. ring.
  - set (ez := Z.min ex ey).
    set (a := cond_Zopp sx (Zpos (fst (shl_align mx ex ez)))).
    set (b := cond_Zopp sy (Zpos (fst (shl_align my ey ez)))).
    assert (Hv : (dyadic (a - b) ez
                  == to_Q (S754_finite sx mx ex) - to_Q (S754_finite sy my ey))%Q).
    { rewrite <- dyadic_sub. subst a b.
      rewrite !aligned_value by (subst ez; lia). reflexivity. }
    destruct (binary_normalize_fits (a - b) ez false) as [Hfin Hval].
    + apply (fits_compat _ _ (Qeq_sym _ _ Hv)). exact Hf.
    + split; [exact Hfin | ]. rewrite Hval. exact Hv.
Qed.

(** Two well-formed finite floats with the same value are the same. *)
Theorem to_Q_inj (s s' : bool) (m m' : positive) (e e' : Z) :
  valid_binary prec emax (S754_finite s m e) = true ->
  valid_binary prec emax (S754_finite s' m' e') = true ->
  (to_Q (S754_finite s m e) == to_Q (S754_finite s' m' e'))%Q ->
  S754_finite s m e = S754_finite s' m' e'.
Proof.
  intros Hv Hv' Hq.
  destruct (valid_finite_bounds s m e Hv) as (_ & _ & _ & Hc).
  destruct (valid_finite_bounds s' m' e' Hv') as (_ & _ & _ & Hc').
  cbn [to_Q] in Hq.
  assert (Hpos : forall p k, (0 < dyadic (Zpos p) k)%Q) by (intros; apply dyadic_sign; lia).
  assert (Hneg : forall p k, (dyadic (Zneg p) k < 0)%Q).
  { intros p k. change (Zneg p) with (- Zpos p). rewrite <- dyadic_opp.
    pose proof (Hpos p k). lra. }
  assert (Hs : s = s').
  { destruct s, s'; cbn [cond_Zopp] in Hq; try reflexivity; exfalso.
    - change (- Zpos m) with (Zneg m) in Hq.
      pose proof (Hneg m e). pose proof (Hpos m' e'). lra.
    - change (- Zpos m') with (Zneg m') in Hq.
      pose proof (Hneg m' e'). pose proof (Hpos m e). lra. }
  subst s'.
  assert (Hq' : (dyadic (Zpos m) e == dyadic (Zpos m') e')%Q).
  { destruct s; cbn [cond_Zopp] in Hq; [ | exact Hq].
    rewrite <- !dyadic_opp in Hq. lra. }
  pose proof (dyadic_digits _ _ _ _ (Pos2Z.is_pos m) (Pos2Z.is_pos m') Hq') as HD.
  assert (He : e = e') by (rewrite <- Hc, <- Hc', HD; reflexivity).
  subst e'. apply dyadic_inj in Hq'. congruence.
Qed.


(** *** Signed zeros *)

Lemma SFadd_pzero_r (x : spec_float) :
  x <> S754_zero true -> SFadd prec emax x (S754_zero false) = x.
Proof.
  destruct x as [[ | ] | s | | s m e]; intros Hx; try reflexivity.
  contradiction Hx. reflexivity.
Qed.

(** A sum is [-0.0] only when both terms are. *)
Lemma SFadd_not_neg_zero (x y : spec_float) :
  valid_binary prec emax x = true -> valid_binary prec emax y = true ->
  x <> S754_zero true -> SFadd prec emax x y <> S754_zero true.
Proof.
  intros Hx Hy Hnz.
  destruct x as [sx | sx | | sx mx ex], y as [sy | sy | | sy my ey]; cbn [SFadd];
    try discriminate; try assumption.
  - destruct sx, sy; try discriminate. contradiction Hnz. reflexivity.
  - destruct sx, sy; discriminate.
  - destruct (valid_finite_bounds sx mx ex Hx) as (_ & Hex & _).
    destruct (valid_finite_bounds sy my ey Hy) as (_ & Hey & _).
    destruct (_ + _) as [ | p | p]; cbn [binary_normalize]; try discriminate;
      apply binary_round_not_zero; lia.
Qed.

(** *** Rounding a float to an integer *)

Lemma pow2_prec_split : 2 ^ prec = 2 * 2 ^ (prec - 1).
Proof. rewrite <- Z.pow_succ_r by lia. f_equal. lia. Qed.

Lemma round_int_fits (m : positive) (e : Z) :
  Zdigits2 (Zpos m) <= prec -> emin <= e -> Zdigits2 (Zpos m) + e <= emax ->
  fits prec emax (inject_Z (round_half_even_pos m e)).
Proof.
  intros Hd He Hmax.
  assert (Hself : fits prec emax (dyadic (Zpos m) e)).
  { exists (Zpos m), e. repeat split; try assumption; reflexivity. }
  destruct e as [ | k | k]; cbn [round_half_even_pos].
  - apply (fits_compat (dyadic (Zpos m) 0)); [apply dyadic_int | exact Hself].
  - apply (fits_compat (dyadic (Zpos m) (Zpos k))); [ | exact Hself].
    rewrite <- (dyadic_shift (Zpos m) (Zpos k) 0) by lia.
    rewrite Z.sub_0_r. apply dyadic_int.
  - set (P := 2 ^ Zpos k).
    assert (HP : 2 <= P).
    { subst P. change 2 with (2 ^ 1) at 1. apply Z.pow_le_mono_r; lia. }
    pose proof (Z.div_mod (Zpos m) P ltac:(lia)) as Hdm.
    pose proof (Z.mod_pos_bound (Zpos m) P ltac:(lia)) as Hr.
    destruct (Zdigits2_bounds (Zpos m) ltac:(lia)) as [_ Hb].
    assert (Hm : Zpos m < 2 ^ prec).
    { assert (2 ^ Zdigits2 (Zpos m) <= 2 ^ prec) by (apply Z.pow_le_mono_r; lia). lia. }
    rewrite pow2_prec_split in Hm.
    assert (Hp1 : 0 < 2 ^ (prec - 1)) by (apply Z.pow_pos_nonneg; lia).
    set (q := Zpos m / P) in *. set (r := Zpos m mod P) in *.
    assert (Hq : 0 <= q /\ q + 1 <= 2 ^ (prec - 1)) by nia.
    set (n := match 2 * r ?= P with
              | Eq => if Z.even q then q else q + 1
              | Lt => q
              | Gt => q + 1
              end).
    assert (Hn : 0 <= n < 2 ^ prec).
    { rewrite pow2_prec_split. subst n.
      destruct (2 * r ?= P); [destruct (Z.even q) | | ]; lia. }
    exists n, 0. rewrite dyadic_int.
    assert (Zdigits2 (Z.abs n) <= prec).
    { rewrite Z.abs_eq by lia. apply Zdigits2_le_pow; lia. }
    unfold SpecFloat.emin. repeat split; try reflexivity; lia.
Qed.

Lemma round_diff_fits (m : positive) (e : Z) :
  Zdigits2 (Zpos m) <= prec -> emin <= e ->
  fits prec emax (inject_Z (round_half_even_pos m e) - dyadic (Zpos m) e).
Proof.
  intros Hd He.
  assert (H0 : fits prec emax 0%Q).
  { exists 0, emin. rewrite dyadic_0. change (Zdigits2 (Z.abs 0)) with 0.
    unfold SpecFloat.emin. repeat split; try reflexivity; lia. }
  pose proof (round_half_even_pos_nearest m e) as [Hnear _].
  destruct e as [ | k | k].
  - apply (fits_compat 0%Q); [ | exact H0]. cbn [round_half_even_pos].
    rewrite dyadic_int. ring.
  - apply (fits_compat 0%Q); [ | exact H0]. cbn [round_half_even_pos].
    rewrite <- (dyadic_shift (Zpos m) (Zpos k) 0), Z.sub_0_r, dyadic_int by lia. ring.
  - apply dist_le_half in Hnear.
    set (n := round_half_even_pos m (Zneg k)) in *.
    set (P := 2 ^ Zpos k) in *.
    assert (HP : 0 < P) by (apply Z.pow_pos_nonneg; lia).
    set (D := n * P - Zpos m) in *.
    exists D, (Zneg k). split; [apply int_minus_dyadic | ].
    assert (Hk : Zdigits2 (Z.abs D) <= Zpos k).
    { apply Zdigits2_le_pow; [lia | ]. fold P. lia. }
    assert (Hp : Zdigits2 (Z.abs D) <= prec).
    { destruct (Z_le_gt_dec (Zpos k) prec) as [ | Hgt]; [lia | ].
      destruct (Zdigits2_bounds (Zpos m) ltac:(lia)) as [_ Hb].
      assert (2 ^ Zdigits2 (Zpos m) <= 2 ^ (Zpos k - 1)) by (apply Z.pow_le_mono_r; lia).
      assert (HP2 : P = 2 * 2 ^ (Zpos k - 1)).
      { subst P. rewrite <- Z.pow_succ_r by lia. f_equal. lia. }
      assert (Hq : Zpos m / P = 0) by (apply Z.div_small; lia).
      assert (Hr : Zpos m mod P = Zpos m) by (apply Z.mod_small; lia).
      assert (Hn0 : n = 0).
      { subst n. cbn [round_half_even_pos]. fold P. rewrite Hq, Hr.
        replace (2 * Zpos m ?= P) with Lt; [reflexivity | ].
        symmetry. apply Z.compare_lt_iff. lia. }
      subst D. rewrite Hn0, Z.mul_0_l, Z.sub_0_l, Z.abs_opp, Z.abs_eq by lia.
      exact Hd. }
    unfold SpecFloat.emin in *. repeat split; lia.
Qed.

(** *** Comparison *)

Lemma SFcompare_refl (x : spec_float) :
  is_finite x = true -> SFeqb x x = true.
Proof.
  destruct x as [s | s | | s m e]; try discriminate; intros _; try reflexivity.
  unfold SFeqb, SFcompare.
  destruct s; rewrite Z.compare_refl;
    change (Pos.compare_cont Eq m m) with (Pos.compare m m);
    rewrite Pos.compare_refl; reflexivity.
Qed.

(** Python's [==] holds between well-formed finite floats of equal value. *)
Theorem SFeqb_of_value (x y : spec_float) :
  valid_binary prec emax x = true -> valid_binary prec emax y = true ->
  is_finite x = true -> is_finite y = true ->
  (to_Q x == to_Q y)%Q -> SFeqb x y = true.
Proof.
  intros Hvx Hvy Hfx Hfy Hq.
  assert (Hnz : forall s m e, ~ (to_Q (S754_finite s m e) == 0)%Q).
  { intros s m e H. cbn [to_Q] in H.
    rewrite <- (dyadic_0 e) in H. apply dyadic_inj in H. destruct s; discriminate. }
  destruct x as [sx | sx | | sx mx ex], y as [sy | sy | | sy my ey]; try discriminate.
  - reflexivity.
  - exfalso. apply (Hnz sy my ey). rewrite <- Hq. reflexivity.
  - exfalso. apply (Hnz sx mx ex). rewrite Hq. reflexivity.
  - rewrite (to_Q_inj _ _ _ _ _ _ Hvx Hvy Hq). apply SFcompare_refl. reflexivity.
Qed.

(** *** Rounding of quotients *)

(** [binary_round_aux] on a mantissa that has digits to spare. *)
Theorem binary_round_aux_valid (sx : bool) (mx ex : Z) (lx : location) :
  0 <= mx -> ex <= fexp (Zdigits2 mx + ex) ->
  valid_binary prec emax (binary_round_aux prec emax sx mx ex lx) = true.
Proof.
  intros Hmx Hex. rewrite binary_round_aux_unfold. cbn zeta.
  set (t := fexp (Zdigits2 mx + ex)) in *.
  set (s1 := shr_fexp prec emax mx ex lx).
  destruct (shr_fexp_spec mx ex lx Hmx) as [Hs1m Hs1e].
  fold t in Hs1m, Hs1e. fold s1 in Hs1m, Hs1e.
  replace (Z.max 0 (t - ex)) with (t - ex) in * by lia.
  replace (ex + (t - ex)) with t in Hs1e by lia.
  rewrite Hs1e.
  apply (round_finish_spec sx (shr_m (fst s1))).
  - rewrite Hs1m. apply Z.div_pos; [lia | apply Z.pow_pos_nonneg; lia].
  - rewrite Hs1m. unfold canonical.
    destruct (Z_lt_le_dec (t - ex) (Zdigits2 mx)) as [Hlt | Hge].
    + assert (0 < mx).
      { destruct (Z.eq_dec mx 0) as [-> | ]; [cbn in Hlt; lia | lia]. }
      rewrite Zdigits2_div_pow by lia.
      replace (Zdigits2 mx - (t - ex) + t) with (Zdigits2 mx + ex) by lia.
      reflexivity.
    + rewrite Zdigits2_div_small by lia. cbn [Zdigits2].
      pose proof (Zdigits2_nonneg mx).
      subst t. unfold SpecFloat.fexp, SpecFloat.emin in *. lia.
  - apply round_nearest_even_cases.
Qed.

Lemma Zdigits2_quotient (a b : Z) :
  0 < a -> 0 < b -> 0 < a / b ->
  Zdigits2 a - Zdigits2 b <= Zdigits2 (a / b).
Proof.
  intros Ha Hb Hq.
  destruct (Zdigits2_bounds a Ha) as [Hda Hba].
  destruct (Zdigits2_bounds b Hb) as [Hdb Hbb].
  destruct (Zdigits2_bounds (a / b) Hq) as [Hdq Hbq].
  destruct (Z_le_gt_dec (Zdigits2 a - Zdigits2 b) (Zdigits2 (a / b))) as [ | Hgt];
    [assumption | exfalso].
  pose proof (Z.div_mod a b ltac:(lia)) as Hdm.
  pose proof (Z.mod_pos_bound a b Hb) as Hr.
  (* a / b < 2^dq and b < 2^db, so a < 2^(dq + db) <= 2^(da - 1) *)
  assert (Hle : 2 ^ (Zdigits2 (a / b) + Zdigits2 b) <= 2 ^ (Zdigits2 a - 1))
    by (apply Z.pow_le_mono_r; lia).
  rewrite Z.pow_add_r in Hle by lia.
  assert (a / b + 1 <= 2 ^ Zdigits2 (a / b)) by lia.
  assert (b * (a / b) + b <= 2 ^ Zdigits2 (a / b) * 2 ^ Zdigits2 b) by nia.
  lia.
Qed.

Lemma SFdiv_core_binary_spec (m1 e1 m2 e2 : Z) :
  0 < m1 -> 0 < m2 ->
  let '(q, e', _) := SFdiv_core_binary prec emax m1 e1 m2 e2 in
  0 <= q /\ e' <= fexp (Zdigits2 q + e').
Proof.
  intros Hm1 Hm2. unfold SFdiv_core_binary.
  set (X := Zdigits2 m1 + e1 - (Zdigits2 m2 + e2)).
  set (e' := Z.min (fexp X) (e1 - e2)).
  set (s := e1 - e2 - e').
  assert (Hs : 0 <= s) by (subst s e'; lia).
  set (m' := match s with Zpos _ => Z.shiftl m1 s | Z0 => m1 | Zneg _ => 0 end).
  assert (Hm' : m' = m1 * 2 ^ s).
  { subst m'. destruct s as [ | p | p] eqn:Hsp;
      [change (2 ^ 0) with 1; lia | apply Z.shiftl_mul_pow2; lia | lia]. }
  assert (Hp : 0 < 2 ^ s) by (apply Z.pow_pos_nonneg; lia).
  assert (Hm'pos : 0 < m') by nia.
  assert (Hdm' : Zdigits2 m' = Zdigits2 m1 + s) by (rewrite Hm'; apply Zdigits2_mul_pow; lia).
  pose proof (Z_div_mod m' m2 ltac:(lia)) as Hdiv.
  unfold Z.div in *. destruct (Z.div_eucl m' m2) as [q r] eqn:Hqr.
  assert (Hq : q = m' / m2) by (unfold Z.div; rewrite Hqr; reflexivity).
  assert (Hq0 : 0 <= q) by (rewrite Hq; apply Z.div_pos; lia).
  split; [exact Hq0 | ].
  destruct (Z.eq_dec q 0) as [Hz | Hnz].
  - rewrite Hz. change (Zdigits2 0) with 0.
    assert (Hlt : m' < m2) by nia.
    assert (Zdigits2 m' <= Zdigits2 m2) by (apply Zdigits2_le; lia).
    subst e' s X. unfold SpecFloat.fexp, SpecFloat.emin in *. lia.
  - pose proof (Zdigits2_quotient m' m2 Hm'pos Hm2 ltac:(lia)) as Hd.
    rewrite <- Hq, Hdm' in Hd.
    apply Z.le_trans with (fexp X); [subst e'; lia | ].
    apply fexp_mono. subst X s. lia.
Qed.

(** *** Signs *)

(** Rounding keeps the sign and never yields a NaN. *)
Lemma binary_round_sign (sx : bool) (mx : positive) (ex : Z) :
  match binary_round prec emax sx mx ex with
  | S754_zero s | S754_infinity s | S754_finite s _ _ => s = sx
  | S754_nan => False
  end.
Proof.
  destruct (binary_round_steps sx mx ex) as (m1 & e1 & l & Hm1 & _ & _ & ->).
  cbn zeta.
  assert (Hm2 : 0 <= round_nearest_even m1 l).
  { destruct (round_nearest_even_cases m1 l) as [-> | ->]; lia. }
  destruct (shr_fexp_spec (round_nearest_even m1 l) e1 loc_Exact Hm2) as [Hs _].
  assert (Hpos : 0 <= shr_m (fst (shr_fexp prec emax (round_nearest_even m1 l) e1 loc_Exact))).
  { rewrite Hs. apply Z.div_pos; [exact Hm2 | ].
    apply Z.pow_pos_nonneg; lia. }
  destruct (shr_m _) as [ | m | m]; try reflexivity; [ | lia].
  destruct (_ <=? _); reflexivity.
Qed.

End Format.

(** * The billing summary on binary64 floats *)

Lemma prec_pos : 0 < prec.
Proof. reflexivity. Qed.

Lemma prec_lt_emax : prec < emax.
Proof. reflexivity. Qed.

#[local] Hint Resolve prec_pos prec_lt_emax : core.

Lemma fadd_valid (x y : float) :
  valid x = true -> valid y = true -> valid (fadd x y) = true.
Proof. apply SFadd_valid; auto. Qed.

Lemma fsub_valid (x y : float) :
  valid x = true -> valid y = true -> valid (fsub x y) = true.
Proof. apply SFsub_valid; auto. Qed.

Lemma of_Z_valid (n : Z) : valid (of_Z n) = true.
Proof. apply binary_normalize_valid; auto. Qed.

Lemma py_sum_from_valid (amounts : list float) (acc : float) :
  Forall (fun a => valid a = true) amounts -> valid acc = true ->
  valid (fold_left fadd amounts acc) = true.
Proof.
  intros Hall. revert acc.
  induction Hall as [ | a rest Ha _ IH]; intros acc Hacc; cbn [fold_left].
  - exact Hacc.
  - apply IH, fadd_valid; assumption.
Qed.

(** The sum of well-formed floats is a well-formed float. *)
Lemma py_sum_valid (amounts : list float) :
  Forall (fun a => valid a = true) amounts -> valid (py_sum amounts) = true.
Proof. intros H. apply py_sum_from_valid; [exact H | reflexivity]. Qed.

(** The running total is never [-0.0]. *)
Lemma py_sum_from_not_neg_zero (amounts : list float) (acc : float) :
  Forall (fun a => valid a = true) amounts -> valid acc = true ->
  acc <> S754_zero true -> fold_left fadd amounts acc <> S754_zero true.
Proof.
  intros Hall. revert acc.
  induction Hall as [ | a rest Ha _ IH]; intros acc Hacc Hnz; cbn [fold_left].
  - exact Hnz.
  - apply IH; [apply fadd_valid; assumption | ].
    apply (SFadd_not_neg_zero prec emax); auto.
Qed.

(** An amount of [0.0] leaves the total as it is. *)
Lemma py_sum_skip_zero (before after : list float) :
  Forall (fun a => valid a = true) before ->
  py_sum (before ++ pzero :: after) = py_sum (before ++ after).
Proof.
  intros Hb. unfold py_sum. rewrite !fold_left_app. cbn [fold_left].
  f_equal. apply (SFadd_pzero_r prec emax prec_pos prec_lt_emax).
  apply py_sum_from_not_neg_zero; [exact Hb | reflexivity | discriminate].
Qed.

(** [round] on a finite float: the result is the nearest integer, the even
    one on a tie; it and its distance to the float fit the format. *)
Lemma py_round_spec (sub : float) :
  valid sub = true -> is_finite sub = true ->
  exists n : Z,
    py_round sub = inr n /\ nearest_even (to_Q sub) n
    /\ fits prec emax (inject_Z n)
    /\ fits prec emax (inject_Z n - to_Q sub).
Proof.
  intros Hv Hf.
  destruct sub as [s | s | | s m e]; try discriminate.
  - exists 0. cbn [py_round to_Q].
    assert (H0 : fits prec emax 0%Q).
    { apply (valid_fits prec emax prec_pos prec_lt_emax (S754_zero false)). reflexivity. }
    split; [reflexivity | split; [ | split; exact H0]].
    split.
    + apply Qle_bool_imp_le. reflexivity.
    + intros H. apply Qeq_bool_neq in H; [contradiction | reflexivity].
  - destruct (valid_finite_bounds prec emax prec_pos prec_lt_emax s m e Hv) as (Hd & He & Hmax & _).
    pose proof (round_half_even_pos_nearest m e) as Hn.
    pose proof (round_int_fits prec emax prec_pos prec_lt_emax m e Hd He Hmax) as Hi.
    pose proof (round_diff_fits prec emax prec_pos prec_lt_emax m e Hd He) as Hdf.
    exists (cond_Zopp s (round_half_even_pos m e)). cbn [py_round to_Q].
    split; [reflexivity | ].
    destruct s; cbn [cond_Zopp].
    + change (Zneg m) with (- Zpos m).
      split; [ | split].
      * apply (nearest_even_compat (- dyadic (Zpos m) e)); [apply dyadic_opp | ].
        apply nearest_even_opp, Hn.
      * apply (fits_compat prec emax prec_pos prec_lt_emax (- inject_Z (round_half_even_pos m e))).
        -- rewrite inject_Z_opp. reflexivity.
        -- apply (fits_opp prec emax prec_pos prec_lt_emax), Hi.
      * apply (fits_compat prec emax prec_pos prec_lt_emax (- (inject_Z (round_half_even_pos m e) - dyadic (Zpos m) e))).
        -- rewrite inject_Z_opp, <- dyadic_opp. ring.
        -- apply (fits_opp prec emax prec_pos prec_lt_emax), Hdf.
    + split; [exact Hn | split; [exact Hi | exact Hdf]].
Qed.

(** [float(n)] is exact on an integer that fits the format. *)
Lemma py_float_of_int_exact (n : Z) :
  fits prec emax (inject_Z n) ->
  py_float_of_int n = inr (of_Z n)
  /\ is_finite (of_Z n) = true /\ (to_Q (of_Z n) == inject_Z n)%Q.
Proof.
  intros Hfit.
  destruct (binary_normalize_fits prec emax prec_pos prec_lt_emax n 0 false) as [Hfin Hval].
  { apply (fits_compat prec emax prec_pos prec_lt_emax (inject_Z n)); [symmetry; apply dyadic_int | exact Hfit]. }
  fold (of_Z n) in Hfin, Hval. rewrite dyadic_int in Hval.
  split; [ | split; assumption].
  unfold py_float_of_int. destruct (of_Z n); try reflexivity. discriminate.
Qed.

(** What [round], [float] and the subtraction make of a finite subtotal. *)
Lemma summary_of_subtotal_spec (sub : float) :
  valid sub = true -> is_finite sub = true ->
  exists (n : Z) (rounded_total : float),
    summary_of_subtotal sub
    = inr (mkSummary sub (fsub rounded_total sub) rounded_total)
    /\ nearest_even (to_Q sub) n
    /\ (to_Q rounded_total == inject_Z n)%Q
    /\ is_finite rounded_total = true
    /\ valid rounded_total = true
    /\ (to_Q (fsub rounded_total sub) == inject_Z n - to_Q sub)%Q
    /\ is_finite (fsub rounded_total sub) = true
    /\ valid (fsub rounded_total sub) = true.
Proof.
  intros Hv Hf.
  destruct (py_round_spec sub Hv Hf) as (n & Hround & Hnear & Hfit & Hdiff).
  destruct (py_float_of_int_exact n Hfit) as (Hfloat & Hfin & Hval).
  exists n, (of_Z n).
  destruct (SFsub_exact prec emax prec_pos prec_lt_emax (of_Z n) sub Hfin Hf) as [Hsf Hsv].
  { apply (fits_compat prec emax prec_pos prec_lt_emax (inject_Z n - to_Q sub)); [ | exact Hdiff].
    rewrite Hval. reflexivity. }
  fold (fsub (of_Z n) sub) in Hsf, Hsv.
  split; [unfold summary_of_subtotal; rewrite Hround; cbn [bind]; rewrite Hfloat; reflexivity | ].
  split; [exact Hnear | ].
  split; [exact Hval | ].
  split; [exact Hfin | ].
  split; [apply of_Z_valid | ].
  split; [rewrite Hsv, Hval; reflexivity | ].
  split; [exact Hsf | ].
  apply fsub_valid; [apply of_Z_valid | exact Hv].
Qed.

(** A summary is produced exactly when the subtotal is finite; otherwise
    [round] raises. *)
Lemma summary_of_subtotal_cases (sub : float) :
  valid sub = true ->
  match sub with
  | S754_nan => summary_of_subtotal sub = inl ValueError
  | S754_infinity _ => summary_of_subtotal sub = inl OverflowError
  | _ => exists s, summary_of_subtotal sub = inr s /\ subtotal s = sub
  end.
Proof.
  intros Hv.
  destruct sub as [s | s | | s m e]; try reflexivity.
  - destruct (summary_of_subtotal_spec (S754_zero s) Hv eq_refl) as (n & rt & H & _).
    eexists. split; [exact H | reflexivity].
  - destruct (summary_of_subtotal_spec (S754_finite s m e) Hv eq_refl) as (n & rt & H & _).
    eexists. split; [exact H | reflexivity].
Qed.

(** Every summary that [summarize] produces, described by the integer [n]
    that [round] returned. *)
Lemma summarize_produced (amounts : list float) (s : BillingSummary) :
  Forall (fun a => valid a = true) amounts ->
  summarize amounts = inr s ->
  is_finite (py_sum amounts) = true
  /\ subtotal s = py_sum amounts
  /\ rounding_value s = fsub (net_payable s) (subtotal s)
  /\ exists n : Z,
      nearest_even (to_Q (subtotal s)) n
      /\ (to_Q (net_payable s) == inject_Z n)%Q
      /\ (to_Q (rounding_value s) == inject_Z n - to_Q (subtotal s))%Q
      /\ is_finite (net_payable s) = true /\ valid (net_payable s) = true
      /\ is_finite (rounding_value s) = true /\ valid (rounding_value s) = true.
Proof.
  intros Hall Hs. pose proof (py_sum_valid amounts Hall) as Hv.
  assert (Hfin : is_finite (py_sum amounts) = true).
  { pose proof (summary_of_subtotal_cases (py_sum amounts) Hv) as Hc.
    unfold summarize in Hs.
    destruct (py_sum amounts); try reflexivity; rewrite Hc in Hs; discriminate. }
  destruct (summary_of_subtotal_spec (py_sum amounts) Hv Hfin)
    as (n & rt & Hspec & Hnear & Hrt & Hrtf & Hrtv & Hd & Hdf & Hdv).
  unfold summarize in Hs. rewrite Hspec in Hs. injection Hs as <-.
  cbn [subtotal net_payable rounding_value].
  split; [exact Hfin | ]. split; [reflexivity | ]. split; [reflexivity | ].
  exists n. split; [exact Hnear | ]. repeat split; assumption.
Qed.

(** A summary is produced when the sum is finite. *)
Lemma summarize_returns (amounts : list float) :
  Forall (fun a => valid a = true) amounts ->
  is_finite (py_sum amounts) = true ->
  exists s, summarize amounts = inr s.
Proof.
  intros Hall Hfin.
  destruct (summary_of_subtotal_spec (py_sum amounts) (py_sum_valid amounts Hall) Hfin)
    as (n & rt & Hspec & _).
  eexists. exact Hspec.
Qed.

(** ** The decimal reader yields well-formed floats *)

Lemma of_decimal_valid (neg : bool) (n : N) (k : nat) :
  valid (of_decimal neg n k) = true.
Proof.
  destruct n as [ | p]; [reflexivity | ]. unfold of_decimal.
  pose proof (SFdiv_core_binary_spec prec emax prec_pos prec_lt_emax (Zpos p) 0 (10 ^ Z.of_nat k) 0)
    as H.
  destruct (SFdiv_core_binary prec emax (Zpos p) 0 (10 ^ Z.of_nat k) 0) as [[q e] l].
  destruct H as [Hq He]; [lia | apply Z.pow_pos_nonneg; lia | ].
  apply binary_round_aux_valid; auto.
Qed.

Lemma read_decimal_shape (text : string) (x : float) :
  read_decimal text = Some x -> exists neg n k, x = of_decimal neg n k.
Proof.
  unfold read_decimal. intros H.
  repeat match type of H with
         | context [match ?t with _ => _ end] => destruct t
         end;
    inversion H; eauto.
Qed.

Lemma read_decimal_valid (text : string) (x : float) :
  read_decimal text = Some x -> valid x = true.
Proof.
  intros H. destruct (read_decimal_shape text x H) as (neg & n & k & ->).
  apply of_decimal_valid.
Qed.

(** ** Round-half-up and round-half-even *)

Lemma Z_between (a b : Z) (q : Q) :
  (inject_Z a <= q)%Q -> (q < inject_Z a + 1)%Q ->
  (inject_Z b <= q)%Q -> (q < inject_Z b + 1)%Q -> a = b.
Proof.
  intros H1 H2 H3 H4.
  assert (Ha : a < b + 1).
  { rewrite Zlt_Qlt, inject_Z_plus. change (inject_Z 1) with 1%Q. lra. }
  assert (Hb : b < a + 1).
  { rewrite Zlt_Qlt, inject_Z_plus. change (inject_Z 1) with 1%Q. lra. }
  lia.
Qed.

(** Off the ties, rounding to the nearest integer is round-half-up. *)
Lemma nearest_even_half_up (q : Q) (n : Z) :
  nearest_even q n -> ~ (Qabs (inject_Z n - q) == 1 # 2)%Q ->
  n = round_half_up q.
Proof.
  intros [Hle _] Hne.
  assert (Hlt : (Qabs (inject_Z n - q) < 1 # 2)%Q).
  { apply Qle_lteq in Hle. destruct Hle as [ | Heq]; [assumption | contradiction]. }
  apply Qabs_Qlt_condition in Hlt. destruct Hlt as [Hlo Hhi].
  unfold round_half_up. destruct (Qle_bool 0 q) eqn:Hsign.
  - pose proof (Qfloor_le (q + (1 # 2))) as Hf1.
    pose proof (Qlt_floor (q + (1 # 2))) as Hf2.
    rewrite inject_Z_plus in Hf2. change (inject_Z 1) with 1%Q in Hf2.
    apply (Z_between _ _ (q + (1 # 2))); lra.
  - pose proof (Qfloor_le (- q + (1 # 2))) as Hf1.
    pose proof (Qlt_floor (- q + (1 # 2))) as Hf2.
    rewrite inject_Z_plus in Hf2. change (inject_Z 1) with 1%Q in Hf2.
    assert (Hopp : - n = Qfloor (- q + (1 # 2))).
    { apply (Z_between _ _ (- q + (1 # 2))); rewrite ?inject_Z_opp; lra. }
    lia.
Qed.

(** An integer within one half of [q] is a nearest integer to [q]. *)
Lemma within_half_nearest (q : Q) (n : Z) :
  (Qabs (inject_Z n - q) <= 1 # 2)%Q -> nearest_integer q n.
Proof.
  intros Hle k.
  apply Qabs_Qle_condition in Hle. destruct Hle as [Hlo Hhi].
  destruct (Z.eq_dec k n) as [-> | Hne]; [apply Qle_refl | ].
  apply Qle_trans with (1 # 2)%Q; [apply Qabs_Qle_condition; split; assumption | ].
  destruct (Z_lt_le_dec k n) as [Hlt | Hge].
  - assert (Hk : (inject_Z k <= inject_Z n - 1)%Q).
    { setoid_replace (inject_Z n - 1)%Q with (inject_Z (n - 1)).
      - rewrite <- Zle_Qle. lia.
      - unfold Z.sub. rewrite inject_Z_plus, inject_Z_opp. reflexivity. }
    rewrite Qabs_neg by lra. lra.
  - assert (Hk : (inject_Z n + 1 <= inject_Z k)%Q).
    { setoid_replace (inject_Z n + 1)%Q with (inject_Z (n + 1)).
      - rewrite <- Zle_Qle. lia.
      - rewrite inject_Z_plus. reflexivity. }
    rewrite Qabs_pos by lra. lra.
Qed.

(** * Properties of the invoice *)

(** ** Concrete invoices *)

(** C7: for the amounts 100.25, 50.50 and 25.00 the summary is
    subtotal 175.75, net payable 176 and rounding 0.25. *)
Theorem summarize_example :
  exists s,
    summarize [of_decimal false 10025 2; of_decimal false 5050 2;
               of_decimal false 2500 2] = inr s
    /\ subtotal s = of_decimal false 17575 2
    /\ net_payable s = of_Z 176
    /\ rounding_value s = of_decimal false 25 2
    /\ (to_Q (subtotal s) == 17575 # 100)%Q
    /\ (to_Q (net_payable s) == 176)%Q
    /\ (to_Q (rounding_value s) == 25 # 100)%Q.
Proof.
  eexists. split; [vm_compute; reflexivity | ].
  repeat split; vm_compute; reflexivity.
Qed.

(** The same invoice under the compensated summation of CPython 3.12. *)
Example summarize_example_compensated :
  py_sum_compensated [of_decimal false 10025 2; of_decimal false 5050 2;
                      of_decimal false 2500 2]
  = of_decimal false 17575 2.
Proof. vm_compute. reflexivity. Qed.

(** ** Rounding of the subtotal *)

(** C1, as stated, fails: the subtotal 100.5 is rounded to 100, where
    round-half-up gives 101. *)
Lemma net_payable_not_round_half_up :
  Forall (fun a => is_finite a = true /\ (0 <= to_Q a)%Q) [of_decimal false 1005 1]
  /\ exists s,
      summarize [of_decimal false 1005 1] = inr s
      /\ (to_Q (subtotal s) == 1005 # 10)%Q
      /\ (to_Q (net_payable s) == 100)%Q
      /\ round_half_up (to_Q (subtotal s)) = 101
      /\ ~ (to_Q (net_payable s) == inject_Z (round_half_up (to_Q (subtotal s))))%Q.
Proof.
  split.
  - constructor; [ | constructor]. split; [reflexivity | ].
    apply Qle_bool_imp_le. vm_compute. reflexivity.
  - eexists. split; [vm_compute; reflexivity | ].
    repeat split; try (vm_compute; reflexivity).
    intros H. vm_compute in H. discriminate.
Qed.

(** C1, amended: for well-formed amounts a summary is produced whenever
    their sum is finite, and the net payable of every summary produced is
    the subtotal rounded to the nearest integer, ties going to the even
    integer; off the ties this is the round-half-up value. *)
Theorem net_payable_is_round_half_even (amounts : list float) :
  Forall (fun a => valid a = true) amounts ->
  (is_finite (py_sum amounts) = true -> exists s, summarize amounts = inr s)
  /\ forall s : BillingSummary,
      summarize amounts = inr s ->
      exists n : Z,
        (to_Q (net_payable s) == inject_Z n)%Q
        /\ nearest_even (to_Q (subtotal s)) n
        /\ (~ (Qabs (inject_Z n - to_Q (subtotal s)) == 1 # 2)%Q ->
            n = round_half_up (to_Q (subtotal s))).
Proof.
  intros Hall. split; [apply summarize_returns, Hall | ].
  intros s Hs.
  destruct (summarize_produced amounts s Hall Hs)
    as (_ & _ & _ & n & Hnear & Hnet & _).
  exists n. split; [exact Hnet | ]. split; [exact Hnear | ].
  apply nearest_even_half_up. exact Hnear.
Qed.

Lemma net_payable_is_round_half_even_witness :
  exists (s : BillingSummary) (n : Z),
    summarize [of_decimal false 1015 1] = inr s
    /\ (to_Q (net_payable s) == inject_Z n)%Q
    /\ nearest_even (to_Q (subtotal s)) n.
Proof.
  destruct (net_payable_is_round_half_even [of_decimal false 1015 1])
    as [Hret Hprop].
  - repeat constructor.
  - destruct (Hret eq_refl) as [s Hs].
    destruct (Hprop s Hs) as (n & Hnet & Hnear & _).
    exists s, n. split; [exact Hs | split; assumption].
Defined.

(** ** No validation of the amounts *)

(** C2, as stated, fails: a negative amount is summed like any other and a
    summary is produced. *)
Lemma negative_amount_accepted :
  (to_Q (of_decimal true 100 2) < 0)%Q
  /\ exists s,
      summarize [of_decimal true 100 2] = inr s
      /\ (to_Q (subtotal s) == -1)%Q
      /\ (to_Q (net_payable s) == -1)%Q
      /\ (to_Q (rounding_value s) == 0)%Q.
Proof.
  split; [vm_compute; reflexivity | ].
  eexists. split; [vm_compute; reflexivity | ].
  repeat split; vm_compute; reflexivity.
Qed.

(** C2, amended: the elements are not validated.  Whatever their signs, the
    outcome depends on the total alone: a summary when the total is finite,
    the [OverflowError] of [round] when it is infinite and its [ValueError]
    when it is NaN; no element index is reported. *)
Theorem summarize_fails_only_on_total (amounts : list float) :
  Forall (fun a => valid a = true) amounts ->
  match py_sum amounts with
  | S754_nan => summarize amounts = inl ValueError
  | S754_infinity _ => summarize amounts = inl OverflowError
  | _ => exists s, summarize amounts = inr s /\ subtotal s = py_sum amounts
  end.
Proof.
  intros Hall. apply summary_of_subtotal_cases, py_sum_valid, Hall.
Qed.

Lemma summarize_fails_only_on_total_witness :
  exists s, summarize [of_decimal true 100 2; of_decimal false 200 2] = inr s
            /\ subtotal s = py_sum [of_decimal true 100 2; of_decimal false 200 2].
Proof.
  apply (summarize_fails_only_on_total
           [of_decimal true 100 2; of_decimal false 200 2]).
  repeat constructor.
Defined.

(** ** The three figures *)

(** C3: for well-formed amounts a summary is produced whenever their sum is
    finite, and in every summary produced the net payable is exactly the
    subtotal plus the rounding, as rational numbers and as the float sum
    compared with [==]; the rounding is the net payable minus the subtotal,
    and the net payable is a whole number. *)
Theorem summary_adds_up (amounts : list float) :
  Forall (fun a => valid a = true) amounts ->
  (is_finite (py_sum amounts) = true -> exists s, summarize amounts = inr s)
  /\ forall s : BillingSummary,
      summarize amounts = inr s ->
      (to_Q (net_payable s) == to_Q (subtotal s) + to_Q (rounding_value s))%Q
      /\ (to_Q (rounding_value s) == to_Q (net_payable s) - to_Q (subtotal s))%Q
      /\ feqb (fadd (subtotal s) (rounding_value s)) (net_payable s) = true
      /\ exists n : Z, (to_Q (net_payable s) == inject_Z n)%Q.
Proof.
  intros Hall. split; [apply summarize_returns, Hall | ].
  intros s Hs.
  destruct (summarize_produced amounts s Hall Hs)
    as (Hfin & Hsub & _ & n & _ & Hnet & Hd & Hnf & Hnv & Hdf & Hdv).
  pose proof (py_sum_valid amounts Hall) as Hv. rewrite <- Hsub in Hfin, Hv.
  split; [rewrite Hd, Hnet; ring | ].
  split; [rewrite Hd, Hnet; ring | ].
  split; [ | exists n; exact Hnet].
  destruct (SFadd_exact prec emax prec_pos prec_lt_emax
              (subtotal s) (rounding_value s) Hfin Hdf) as [Haf Hav].
  { apply (fits_compat prec emax prec_pos prec_lt_emax (to_Q (net_payable s))).
    - rewrite Hd, Hnet. ring.
    - apply valid_fits; auto. }
  apply (SFeqb_of_value prec emax prec_pos prec_lt_emax); try assumption.
  - apply fadd_valid; assumption.
  - fold (fadd (subtotal s) (rounding_value s)). rewrite Hav, Hd, Hnet. ring.
Qed.

Lemma summary_adds_up_witness :
  exists s : BillingSummary,
    summarize [of_decimal false 1999 2; of_decimal false 5 2] = inr s
    /\ (to_Q (net_payable s) == to_Q (subtotal s) + to_Q (rounding_value s))%Q
    /\ feqb (fadd (subtotal s) (rounding_value s)) (net_payable s) = true.
Proof.
  destruct (summary_adds_up [of_decimal false 1999 2; of_decimal false 5 2])
    as [Hret Hprop].
  - repeat constructor.
  - destruct (Hret eq_refl) as [s Hs].
    destruct (Hprop s Hs) as (Hsum & _ & Heq & _).
    exists s. split; [exact Hs | split; assumption].
Defined.

(** C9: for well-formed amounts a summary is produced whenever their sum is
    finite, and in every summary produced the rounding is at most one half
    in absolute value and the net payable is an integer nearest to the
    subtotal. *)
Theorem rounding_at_most_half (amounts : list float) :
  Forall (fun a => valid a = true) amounts ->
  (is_finite (py_sum amounts) = true -> exists s, summarize amounts = inr s)
  /\ forall s : BillingSummary,
      summarize amounts = inr s ->
      (Qabs (to_Q (rounding_value s)) <= 1 # 2)%Q
      /\ (Qabs (to_Q (net_payable s) - to_Q (subtotal s)) <= 1 # 2)%Q
      /\ exists n : Z,
          (to_Q (net_payable s) == inject_Z n)%Q
          /\ nearest_integer (to_Q (subtotal s)) n.
Proof.
  intros Hall. split; [apply summarize_returns, Hall | ].
  intros s Hs.
  destruct (summarize_produced amounts s Hall Hs)
    as (_ & _ & _ & n & [Hnear _] & Hnet & Hd & _).
  split; [rewrite Hd; exact Hnear | ].
  split; [rewrite Hnet; exact Hnear | ].
  exists n. split; [exact Hnet | ].
  apply within_half_nearest. exact Hnear.
Qed.

Lemma rounding_at_most_half_witness :
  exists s : BillingSummary,
    summarize [of_decimal false 10 2; of_decimal false 20 2;
               of_decimal true 777 1] = inr s
    /\ (Qabs (to_Q (rounding_value s)) <= 1 # 2)%Q.
Proof.
  destruct (rounding_at_most_half
              [of_decimal false 10 2; of_decimal false 20 2; of_decimal true 777 1])
    as [Hret Hprop].
  - repeat constructor.
  - destruct (Hret eq_refl) as [s Hs].
    destruct (Hprop s Hs) as (Hhalf & _).
    exists s. split; assumption.
Defined.

(** ** Accumulation of the subtotal *)

Lemma dyadic_quarters (k : Z) : (dyadic k (-2) == inject_Z k / 4)%Q.
Proof. unfold dyadic. change (2 ^ (-2))%Q with (/ 4)%Q. reflexivity. Qed.

Lemma quarter_amount_nonneg (a : float) : quarter_amount a -> (0 <= to_Q a)%Q.
Proof.
  intros (_ & _ & k & Hk & Hq). rewrite Hq, <- dyadic_quarters.
  rewrite <- (dyadic_0 (-2)). apply dyadic_le. exact Hk.
Qed.

Lemma exact_sum_nonneg (amounts : list float) :
  Forall quarter_amount amounts -> (0 <= exact_sum amounts)%Q.
Proof.
  induction 1 as [ | a rest Ha _ IH]; cbn [exact_sum fold_right].
  - apply Qle_refl.
  - pose proof (quarter_amount_nonneg a Ha). fold (exact_sum rest). lra.
Qed.

(** Quarter amounts are added without rounding while the total stays
    below 2^51. *)
Lemma py_sum_from_quarters (amounts : list float) :
  Forall quarter_amount amounts ->
  forall (acc : float) (A : Z),
    valid acc = true -> is_finite acc = true -> 0 <= A ->
    (to_Q acc == inject_Z A / 4)%Q ->
    (to_Q acc + exact_sum amounts < inject_Z (2 ^ 51))%Q ->
    is_finite (fold_left fadd amounts acc) = true
    /\ (to_Q (fold_left fadd amounts acc) == to_Q acc + exact_sum amounts)%Q.
Proof.
  induction 1 as [ | a rest Ha Hrest IH]; intros acc A Hv Hf HA Hacc Hlt;
    cbn [fold_left exact_sum fold_right] in *.
  - split; [exact Hf | ring].
  - fold (exact_sum rest) in *.
    pose proof (exact_sum_nonneg rest Hrest) as Hpos.
    destruct Ha as (Hva & Hfa & k & Hk & Hqa).
    assert (Hsum : (to_Q acc + to_Q a == dyadic (A + k) (-2))%Q).
    { rewrite Hacc, Hqa, <- !dyadic_quarters. apply dyadic_add. }
    assert (Hbound : A + k < 2 ^ 53).
    { destruct (Z_lt_le_dec (A + k) (2 ^ 53)) as [ | Hge]; [assumption | exfalso].
      apply (dyadic_le _ _ (-2)) in Hge. rewrite <- Hsum in Hge.
      assert (H51 : (dyadic (2 ^ 53) (-2) == inject_Z (2 ^ 51))%Q).
      { rewrite <- (dyadic_int (2 ^ 51)), <- (dyadic_shift (2 ^ 51) 0 (-2)) by lia.
        reflexivity. }
      rewrite H51 in Hge. lra. }
    destruct (SFadd_exact prec emax prec_pos prec_lt_emax acc a Hf Hfa) as [Hf' Hv'].
    { exists (A + k), (-2). split; [exact Hsum | ].
      assert (Zdigits2 (Z.abs (A + k)) <= 53).
      { rewrite Z.abs_eq by lia. apply Zdigits2_le_pow; lia. }
      unfold emin, prec, emax in *. repeat split; lia. }
    fold (fadd acc a) in Hf', Hv'.
    destruct (IH (fadd acc a) (A + k)) as [Hfin Hval].
    + apply fadd_valid; assumption.
    + exact Hf'.
    + lia.
    + rewrite Hv', Hsum. apply dyadic_quarters.
    + rewrite Hv'. lra.
    + split; [exact Hfin | ]. rewrite Hval, Hv'. ring.
Qed.

(** C4, as stated, fails: 0.10 + 0.20 is not the float 0.30, nor the
    rational 3/10, under the left-to-right sum and under the compensated
    one; and one hundred times 0.10, added from left to right, is not 10.00. *)
Lemma subtotal_drifts :
  (exists s,
      summarize [of_decimal false 10 2; of_decimal false 20 2] = inr s
      /\ subtotal s <> of_decimal false 30 2
      /\ ~ (to_Q (subtotal s) == 30 # 100)%Q
      /\ py_sum_compensated [of_decimal false 10 2; of_decimal false 20 2]
         = subtotal s)
  /\ (exists s,
         summarize (repeat (of_decimal false 10 2) 100) = inr s
         /\ subtotal s <> of_decimal false 1000 2
         /\ ~ (to_Q (subtotal s) == 10)%Q).
Proof.
  split; eexists; (split; [vm_compute; reflexivity | ]).
  - split; [intros H; vm_compute in H; discriminate | ].
    split; [intros H; vm_compute in H; discriminate | vm_compute; reflexivity].
  - split; intros H; vm_compute in H; discriminate.
Qed.

(** C4, amended: the subtotal is the left-to-right float sum of the amounts.
    It is the exact sum when every amount is a whole number of quarter
    rupees and the sum is below 2^51. *)
Theorem subtotal_exact_on_quarters (amounts : list float) :
  Forall quarter_amount amounts ->
  (exact_sum amounts < inject_Z (2 ^ 51))%Q ->
  exists s : BillingSummary,
    summarize amounts = inr s
    /\ subtotal s = fold_left fadd amounts pzero
    /\ (to_Q (subtotal s) == exact_sum amounts)%Q.
Proof.
  intros Hall Hlt.
  assert (Hvalid : Forall (fun a => valid a = true) amounts).
  { apply Forall_impl with (2 := Hall). intros a Ha. apply Ha. }
  destruct (py_sum_from_quarters amounts Hall pzero 0) as [Hfin Hval];
    try reflexivity; try lia.
  { cbn [to_Q pzero]. lra. }
  fold (py_sum amounts) in Hfin, Hval.
  destruct (summary_of_subtotal_spec (py_sum amounts) (py_sum_valid amounts Hvalid) Hfin)
    as (n & rt & Hs & _).
  eexists. split; [exact Hs | ]. cbn [subtotal].
  split; [reflexivity | ]. rewrite Hval. cbn [to_Q pzero]. ring.
Qed.

Lemma subtotal_exact_on_quarters_witness :
  exists s : BillingSummary,
    summarize [of_decimal false 10025 2; of_decimal false 5050 2] = inr s
    /\ subtotal s
       = fold_left fadd [of_decimal false 10025 2; of_decimal false 5050 2] pzero
    /\ (to_Q (subtotal s)
        == exact_sum [of_decimal false 10025 2; of_decimal false 5050 2])%Q.
Proof.
  apply (subtotal_exact_on_quarters [of_decimal false 10025 2; of_decimal false 5050 2]).
  - constructor; [ | constructor; [ | constructor]].
    + split; [reflexivity | split; [reflexivity | ]].
      exists 401. split; [lia | vm_compute; reflexivity].
    + split; [reflexivity | split; [reflexivity | ]].
      exists 202. split; [lia | vm_compute; reflexivity].
  - vm_compute. reflexivity.
Defined.

(** ** Amounts that cannot be read *)

Section RowFacts.

Variable numeric_of_text : string -> option float.
Hypothesis reader_valid :
  forall (text : string) (x : float),
    numeric_of_text text = Some x -> valid x = true.

Lemma amount_of_row_valid (row : row_data) :
  valid (amount_of_row numeric_of_text row) = true.
Proof.
  unfold amount_of_row, to_numeric_coerce.
  destruct (get row amount_key) as [text | ]; [ | reflexivity].
  destruct (numeric_of_text text) as [x | ] eqn:Hx; [ | reflexivity].
  cbn zeta. destruct (is_nan x); [reflexivity | ].
  apply (reader_valid text). exact Hx.
Qed.

Lemma amounts_of_valid (rows : list row_data) :
  Forall (fun a => valid a = true) (amounts_of numeric_of_text rows).
Proof.
  unfold amounts_of. apply Forall_forall. intros a Ha.
  apply in_map_iff in Ha. destruct Ha as (row & <- & _).
  apply amount_of_row_valid.
Qed.

Lemma unreadable_amount_is_zero (row : row_data) (text : string) :
  get row amount_key = Some text -> numeric_of_text text = None ->
  amount_of_row numeric_of_text row = pzero.
Proof.
  intros Hget Hnone. unfold amount_of_row, to_numeric_coerce.
  rewrite Hget, Hnone. reflexivity.
Qed.

Lemma zero_row_skipped (before after : list row_data) (row : row_data) :
  amount_of_row numeric_of_text row = pzero ->
  summarize_rows numeric_of_text (before ++ row :: after)
  = summarize_rows numeric_of_text (before ++ after).
Proof.
  intros Hz. unfold summarize_rows, summarize, amounts_of.
  rewrite !map_app. cbn [map]. rewrite Hz.
  rewrite py_sum_skip_zero; [reflexivity | apply amounts_of_valid].
Qed.

Lemma summarize_rows_cases (rows : list row_data) :
  match py_sum (amounts_of numeric_of_text rows) with
  | S754_nan => summarize_rows numeric_of_text rows = inl ValueError
  | S754_infinity _ => summarize_rows numeric_of_text rows = inl OverflowError
  | _ => exists s, summarize_rows numeric_of_text rows = inr s
                   /\ subtotal s = py_sum (amounts_of numeric_of_text rows)
  end.
Proof.
  apply summary_of_subtotal_cases, py_sum_valid, amounts_of_valid.
Qed.

End RowFacts.

(** C8, as stated, fails: two rows of 10^308 rupees each are read without
    complaint, their sum is infinite under either summation, and [round]
    raises [OverflowError]. *)
Lemma summary_can_raise :
  let big := String "1" (String.concat "" (repeat "0" 308)) in
  let rows := [[(amount_key, big)]; [(amount_key, big)]] in
  Forall (fun a => is_finite a = true) (amounts_of read_decimal rows)
  /\ py_sum (amounts_of read_decimal rows) = S754_infinity false
  /\ py_sum_compensated (amounts_of read_decimal rows) = S754_infinity false
  /\ summarize_rows read_decimal rows = inl OverflowError.
Proof.
  split; [repeat constructor | ].
  repeat split; vm_compute; reflexivity.
Qed.

(** C8, amended: an amount that cannot be read counts as 0.0 and leaves the
    summary as it would be without the row; the summary is produced whenever
    the sum of the amounts is finite, and otherwise [round] raises
    [OverflowError] (infinite sum) or [ValueError] (sum NaN). *)
Theorem unreadable_amount_counts_as_zero
    (numeric_of_text : string -> option float) :
  (forall text x, numeric_of_text text = Some x -> valid x = true) ->
  (forall row text,
      get row amount_key = Some text -> numeric_of_text text = None ->
      amount_of_row numeric_of_text row = pzero
      /\ forall before after,
          summarize_rows numeric_of_text (before ++ row :: after)
          = summarize_rows numeric_of_text (before ++ after))
  /\ (forall rows,
        match py_sum (amounts_of numeric_of_text rows) with
        | S754_nan => summarize_rows numeric_of_text rows = inl ValueError
        | S754_infinity _ => summarize_rows numeric_of_text rows = inl OverflowError
        | _ => exists s, summarize_rows numeric_of_text rows = inr s
                         /\ subtotal s = py_sum (amounts_of numeric_of_text rows)
        end).
Proof.
  intros Hreader. split.
  - intros row text Hget Hnone.
    pose proof (unreadable_amount_is_zero numeric_of_text row text Hget Hnone) as Hz.
    split; [exact Hz | ]. intros before after.
    apply zero_row_skipped; assumption.
  - intros rows. apply summarize_rows_cases. exact Hreader.
Qed.

Lemma unreadable_amount_counts_as_zero_witness :
  amount_of_row read_decimal [(amount_key, "n/a")] = pzero
  /\ summarize_rows read_decimal
       ([[(amount_key, "100.25")]] ++ [(amount_key, "n/a")] :: [[(amount_key, "50.50")]])
     = summarize_rows read_decimal ([[(amount_key, "100.25")]] ++ [[(amount_key, "50.50")]]).
Proof.
  destruct (unreadable_amount_counts_as_zero read_decimal read_decimal_valid) as [H _].
  destruct (H [(amount_key, "n/a")] "n/a" eq_refl eq_refl) as [Hz Hskip].
  split; [exact Hz | apply Hskip].
Defined.

(** ** Rows beyond the capacity of the table *)

Section TableFacts.

Variable numeric_of_text : string -> option float.
Variable render_amount : string -> string.

Lemma write_cells_five (row : row_data) (cells : list string) :
  (5 <= List.length cells)%nat ->
  write_cells render_amount column_keys 0 row cells
  = inr (written_row render_amount row cells).
Proof.
  intros Hlen.
  destruct cells as [ | c0 [ | c1 [ | c2 [ | c3 [ | c4 rest]]]]];
    cbn [List.length] in Hlen; try lia.
  reflexivity.
Qed.

Lemma update_middle {A : Type} (before after : list A) (x y : A) :
  update (before ++ x :: after) (List.length before) y = before ++ y :: after.
Proof.
  induction before as [ | b before IH]; cbn [update app List.length].
  - reflexivity.
  - rewrite IH. reflexivity.
Qed.

Lemma nth_error_middle {A : Type} (before after : list A) (x : A) :
  nth_error (before ++ x :: after) (List.length before) = Some x.
Proof.
  induction before as [ | b before IH]; cbn [nth_error app List.length].
  - reflexivity.
  - exact IH.
Qed.

(** The loop writes row after row until [count] rows are written. *)
Lemma write_rows_spec (count : nat) :
  forall (done_rows todo_rows : list row_data) (header : list string)
         (done todo : table),
    List.length done_rows = List.length done ->
    (count <= List.length todo_rows)%nat -> (count <= List.length todo)%nat ->
    Forall (fun cells => (5 <= List.length cells)%nat) todo ->
    write_rows render_amount count (List.length done)
      (done_rows ++ todo_rows) (header :: done ++ todo)
    = inr (header :: done
           ++ map (fun '(row, cells) => written_row render_amount row cells)
                (combine (firstn count todo_rows) (firstn count todo))
           ++ skipn count todo).
Proof.
  induction count as [ | count IH];
    intros done_rows todo_rows header done todo Hlen Hrows Htodo Hfive.
  - reflexivity.
  - destruct todo_rows as [ | row todo_rows]; [cbn in Hrows; lia | ].
    destruct todo as [ | cells todo]; [cbn in Htodo; lia | ].
    cbn [List.length] in Hrows, Htodo.
    inversion Hfive as [ | ? ? Hcells Hfive']; subst.
    cbn [write_rows]. unfold write_row.
    rewrite <- Hlen at 1. rewrite nth_error_middle.
    cbn [nth_error]. rewrite nth_error_middle.
    rewrite write_cells_five by exact Hcells. cbn [bind].
    change (update (header :: done ++ cells :: todo) (S (List.length done))
              (written_row render_amount row cells))
      with (header :: update (done ++ cells :: todo) (List.length done)
                        (written_row render_amount row cells)).
    rewrite update_middle.
    replace (S (List.length done))
      with (List.length (done ++ [written_row render_amount row cells]))
      by (rewrite length_app; cbn; lia).
    replace (done ++ written_row render_amount row cells :: todo)
      with ((done ++ [written_row render_amount row cells]) ++ todo)
      by (rewrite <- app_assoc; reflexivity).
    replace (done_rows ++ row :: todo_rows)
      with ((done_rows ++ [row]) ++ todo_rows)
      by (rewrite <- app_assoc; reflexivity).
    rewrite IH; try lia; try assumption.
    + cbn [firstn combine map skipn]. rewrite <- !app_assoc. reflexivity.
    + rewrite !length_app. cbn. lia.
Qed.

(** The table after the rows have been written: as many rows as the table
    has data rows. *)
Lemma write_rows_overflow (rows : list row_data) (header : list string)
    (data : table) :
  (List.length data <= List.length rows)%nat ->
  Forall (fun cells => (5 <= List.length cells)%nat) data ->
  write_rows render_amount (Nat.min (List.length rows) (List.length data)) 0
    rows (clear_data_rows (header :: data))
  = inr (header
         :: map (fun '(row, cells) => written_row render_amount row cells)
              (combine (firstn (List.length data) rows)
                 (map (map (fun _ => "")) data))).
Proof.
  intros Hlen Hfive. cbn [clear_data_rows].
  rewrite Nat.min_r by exact Hlen.
  pose proof (write_rows_spec (List.length data) [] rows header []
                (map (map (fun _ => "")) data)) as H.
  cbn [app List.length] in H. rewrite H; clear H.
  - rewrite <- (length_map (map (fun _ : string => "")) data) at 2 3.
    rewrite firstn_all, skipn_all, app_nil_r. reflexivity.
  - reflexivity.
  - exact Hlen.
  - rewrite length_map. apply Nat.le_refl.
  - apply Forall_forall. intros cells Hin. apply in_map_iff in Hin.
    destruct Hin as (cells0 & <- & Hin0). rewrite length_map.
    rewrite Forall_forall in Hfive. apply Hfive. exact Hin0.
Qed.

Lemma sample_cell_ok (header : list string) (data : table) :
  Forall (fun cells => (5 <= List.length cells)%nat) (header :: data) ->
  exists c, sample_cell (header :: data) = inr c.
Proof.
  intros Hfive. inversion Hfive as [ | ? ? Hh Hd]; subst.
  destruct data as [ | r1 data'].
  - destruct header as [ | c ?]; [cbn in Hh; lia | ]. exists c. reflexivity.
  - inversion Hd as [ | ? ? Hr1 _]; subst.
    destruct r1 as [ | c ?]; [cbn in Hr1; lia | ]. exists c. reflexivity.
Qed.

End TableFacts.

(** C10: when there are more rows than the table has data rows, and every
    table row has its five columns, the first rows are written into the
    table, as many as it has data rows, and the three figures are those of
    all the rows, the rows left out of the table included: the subtotal is
    the sum of all the amounts, the net payable is that sum rounded to the
    nearest integer (ties to even), and the rounding is their difference.
    The table is filled and the summary computed whenever the sum of all
    the amounts is finite. *)
Theorem overflow_rows_summed_not_written
    (numeric_of_text : string -> option float)
    (render_amount : string -> string)
    (rows : list row_data) (header : list string) (data : table) :
  (forall text x, numeric_of_text text = Some x -> valid x = true) ->
  Forall (fun cells => (5 <= List.length cells)%nat) (header :: data) ->
  (List.length data < List.length rows)%nat ->
  is_finite (py_sum (amounts_of numeric_of_text rows)) = true ->
  exists summary : BillingSummary,
    generate_filled_invoice numeric_of_text render_amount rows (header :: data)
    = inr (header
           :: map (fun '(row, cells) => written_row render_amount row cells)
                (combine (firstn (List.length data) rows)
                   (map (map (fun _ => "")) data)),
           summary)
    /\ summarize_rows numeric_of_text rows = inr summary
    /\ subtotal summary = py_sum (amounts_of numeric_of_text rows)
    /\ rounding_value summary = fsub (net_payable summary) (subtotal summary)
    /\ exists n : Z,
         nearest_even (to_Q (py_sum (amounts_of numeric_of_text rows))) n
         /\ (to_Q (net_payable summary) == inject_Z n)%Q
         /\ (to_Q (rounding_value summary)
             == inject_Z n - to_Q (py_sum (amounts_of numeric_of_text rows)))%Q.
Proof.
  intros Hreader Hfive Hmore Hfin.
  destruct (sample_cell_ok header data Hfive) as [c Hsample].
  pose proof (amounts_of_valid numeric_of_text Hreader rows) as Hvalid.
  destruct (summarize_returns (amounts_of numeric_of_text rows) Hvalid Hfin)
    as [summary Hsummary].
  destruct (summarize_produced _ summary Hvalid Hsummary)
    as (_ & Hsub & Hrnd & n & Hnear & Hnet & Hdiff & _).
  exists summary.
  split; [ | split; [exact Hsummary | split; [exact Hsub | split; [exact Hrnd | ]]]].
  - unfold generate_filled_invoice.
    rewrite Hsample. cbn [bind List.length Nat.sub].
    rewrite Nat.sub_0_r, write_rows_overflow;
      [ | lia | inversion Hfive; assumption].
    cbn [bind]. unfold summarize_rows. rewrite Hsummary. reflexivity.
  - exists n. rewrite <- Hsub.
    split; [exact Hnear | split; [exact Hnet | exact Hdiff]].
Qed.

Lemma overflow_rows_summed_not_written_witness :
  exists summary : BillingSummary,
    generate_filled_invoice read_decimal (fun text => text)
      [[("No.", "1"); (amount_key, "100.25")];
       [("No.", "2"); (amount_key, "50.50")];
       [("No.", "3"); (amount_key, "25.00")]]
      [["No."; "Item"; "Weight"; "Rate"; "Amount"]; ["x"; "x"; "x"; "x"; "x"]]
    = inr ([["No."; "Item"; "Weight"; "Rate"; "Amount"];
            ["1"; ""; ""; ""; "100.25"]], summary)
    /\ summarize_rows read_decimal
         [[("No.", "1"); (amount_key, "100.25")];
          [("No.", "2"); (amount_key, "50.50")];
          [("No.", "3"); (amount_key, "25.00")]] = inr summary
    /\ subtotal summary = of_decimal false 17575 2
    /\ rounding_value summary = fsub (net_payable summary) (subtotal summary)
    /\ exists n : Z,
         nearest_even (to_Q (of_decimal false 17575 2)) n
         /\ (to_Q (net_payable summary) == inject_Z n)%Q
         /\ (to_Q (rounding_value summary)
             == inject_Z n - to_Q (of_decimal false 17575 2))%Q.
Proof.
  apply (overflow_rows_summed_not_written read_decimal (fun text => text)
           [[("No.", "1"); (amount_key, "100.25")];
            [("No.", "2"); (amount_key, "50.50")];
            [("No.", "3"); (amount_key, "25.00")]]
           ["No."; "Item"; "Weight"; "Rate"; "Amount"]
           [["x"; "x"; "x"; "x"; "x"]]).
  - exact read_decimal_valid.
  - repeat constructor.
  - cbn. lia.
  - reflexivity.
Defined.

(** ** Amounts in words *)

Import AmountWords.

(** C5: zero, one lakh, one crore, twenty-one and nineteen in words. *)
Theorem to_words_examples :
  to_words (Finite 0) = inr "Zero"
  /\ to_words (Finite 100000) = inr "One Lakh"
  /\ to_words (Finite 10000000) = inr "One Crore"
  /\ to_words (Finite 21) = inr "Twenty One"
  /\ to_words (Finite 19) = inr "Nineteen".
Proof. repeat split; vm_compute; reflexivity. Qed.

(** *** The phrase reads back as the amount *)

Lemma unit_name_token (k : Z) :
  1 <= k <= 19 -> token_of_word (unit_name k) = Some (Number k).
Proof.
  intros H.
  assert (Hk : exists j : nat, k = Z.of_nat j /\ (1 <= j <= 19)%nat)
    by (exists (Z.to_nat k); lia).
  destruct Hk as (j & -> & Hj).
  do 20 (destruct j as [ | j]; [try lia; try reflexivity | ]). lia.
Qed.

Lemma tens_name_token (k : Z) :
  2 <= k <= 9 -> token_of_word (tens_name k) = Some (Number (10 * k)).
Proof.
  intros H.
  assert (Hk : exists j : nat, k = Z.of_nat j /\ (2 <= j <= 9)%nat)
    by (exists (Z.to_nat k); lia).
  destruct Hk as (j & -> & Hj).
  do 10 (destruct j as [ | j]; [try lia; try reflexivity | ]). lia.
Qed.

(** The 0-99 naming of [n] adds [n] to the group. *)
Lemma below_hundred_value (n : Z) :
  0 <= n < 100 ->
  forall (rest : list string) (total group : Z),
    value_from (name_below_hundred n ++ rest) total group
    = value_from rest total (group + n).
Proof.
  intros Hn rest total group. unfold name_below_hundred.
  pose proof (Z.div_mod n 10 ltac:(lia)) as Hdm.
  pose proof (Z.mod_pos_bound n 10 ltac:(lia)) as Hmod.
  destruct (n =? 0) eqn:H0.
  - apply Z.eqb_eq in H0. subst n. cbn [app]. rewrite Z.add_0_r. reflexivity.
  - apply Z.eqb_neq in H0. destruct (n <? 20) eqn:H20.
    + apply Z.ltb_lt in H20. cbn [app value_from].
      rewrite unit_name_token by lia. reflexivity.
    + apply Z.ltb_ge in H20. cbn [app value_from].
      rewrite tens_name_token by lia.
      destruct (n mod 10 =? 0) eqn:Hu.
      * apply Z.eqb_eq in Hu. cbn [app]. f_equal. lia.
      * apply Z.eqb_neq in Hu. cbn [app value_from].
        rewrite unit_name_token by lia. f_equal. lia.
Qed.

Lemma below_hundred_sum (n : Z) :
  0 <= n < 100 ->
  forall (rest : list string) (acc : Z),
    sum_numbers (name_below_hundred n ++ rest) acc = sum_numbers rest (acc + n).
Proof.
  intros Hn rest acc. unfold name_below_hundred.
  pose proof (Z.div_mod n 10 ltac:(lia)) as Hdm.
  pose proof (Z.mod_pos_bound n 10 ltac:(lia)) as Hmod.
  destruct (n =? 0) eqn:H0.
  - apply Z.eqb_eq in H0. subst n. cbn [app]. rewrite Z.add_0_r. reflexivity.
  - apply Z.eqb_neq in H0. destruct (n <? 20) eqn:H20.
    + apply Z.ltb_lt in H20. cbn [app sum_numbers].
      rewrite unit_name_token by lia. reflexivity.
    + apply Z.ltb_ge in H20. cbn [app sum_numbers].
      rewrite tens_name_token by lia.
      destruct (n mod 10 =? 0) eqn:Hu.
      * apply Z.eqb_eq in Hu. cbn [app]. f_equal. lia.
      * apply Z.eqb_neq in Hu. cbn [app sum_numbers].
        rewrite unit_name_token by lia. f_equal. lia.
Qed.

(** The last three digits make the group [n]. *)
Lemma hundreds_group_value (n : Z) :
  0 <= n < 1000 ->
  forall (rest : list string) (total : Z),
    value_from (name_hundreds_group n ++ rest) total 0 = value_from rest total n.
Proof.
  intros Hn rest total. unfold name_hundreds_group.
  pose proof (Z.div_mod n 100 ltac:(lia)) as Hdm.
  pose proof (Z.mod_pos_bound n 100 ltac:(lia)) as Hmod.
  rewrite <- app_assoc.
  destruct (n / 100 =? 0) eqn:Hh.
  - apply Z.eqb_eq in Hh. cbn [app].
    rewrite below_hundred_value by lia. f_equal. lia.
  - apply Z.eqb_neq in Hh. cbn [app value_from].
    rewrite unit_name_token by lia.
    change (token_of_word "Hundred") with (Some Hundred).
    rewrite below_hundred_value by lia. f_equal. lia.
Qed.

(** A two-digit group with its scale word adds the group times the scale;
    a group of zero adds nothing. *)
Lemma scale_group_value (m v : Z) (scale : string) :
  0 <= m < 100 -> token_of_word scale = Some (Scale v) ->
  forall (rest : list string) (total : Z),
    value_from ((if m =? 0 then [] else name_below_hundred m ++ [scale]) ++ rest)
      total 0
    = value_from rest (total + m * v) 0.
Proof.
  intros Hm Hscale rest total.
  destruct (m =? 0) eqn:H0.
  - apply Z.eqb_eq in H0. subst m. cbn [app]. f_equal. lia.
  - rewrite <- app_assoc, below_hundred_value by lia.
    cbn [app value_from]. rewrite Hscale. reflexivity.
Qed.

Lemma name_groups_value (scales : list string) :
  forall (v n : Z) (rest : list string) (total : Z),
    scales_from v scales -> 0 <= n < 100 ^ Z.of_nat (List.length scales) ->
    value_from (name_groups scales n ++ rest) total 0
    = value_from rest (total + n * v) 0.
Proof.
  induction scales as [ | scale scales IH]; intros v n rest total Hscales Hn.
  - change (100 ^ Z.of_nat (List.length (@nil string))) with 1 in Hn.
    assert (n = 0) by lia. subst n. cbn [name_groups app]. f_equal. lia.
  - destruct Hscales as [Hscale Hscales]. cbn [name_groups].
    pose proof (Z.div_mod n 100 ltac:(lia)) as Hdm.
    pose proof (Z.mod_pos_bound n 100 ltac:(lia)) as Hmod.
    assert (Hdiv : 0 <= n / 100 < 100 ^ Z.of_nat (List.length scales)).
    { cbn [List.length] in Hn. rewrite Nat2Z.inj_succ, Z.pow_succ_r in Hn by lia.
      split; [apply Z.div_pos; lia | apply Z.div_lt_upper_bound; lia]. }
    rewrite <- app_assoc, (IH (100 * v) (n / 100) _ total Hscales Hdiv).
    rewrite (scale_group_value (n mod 100) v scale Hmod Hscale).
    f_equal. nia.
Qed.

Lemma name_integer_value (i : Z) :
  0 <= i < 10 ^ 17 ->
  forall rest : list string,
    value_from (name_integer i ++ rest) 0 0
    = value_from rest (i / 1000 * 1000) (i mod 1000).
Proof.
  intros Hi rest. unfold name_integer. rewrite <- app_assoc.
  rewrite (name_groups_value scale_words 1000 (i / 1000)).
  - rewrite hundreds_group_value by (apply Z.mod_pos_bound; lia). reflexivity.
  - repeat split.
  - split; [apply Z.div_pos; lia | ].
    apply Z.div_lt_upper_bound; [lia | ].
    change (1000 * 100 ^ Z.of_nat (List.length scale_words)) with (10 ^ 17). lia.
Qed.

(** The words of an amount read back as its integer part and hundredths. *)
Lemma amount_words_value (i f : Z) :
  0 <= i < 10 ^ 17 -> 0 <= f <= 99 ->
  value_from (amount_words i f) 0 0 = Some (i, f).
Proof.
  intros Hi Hf. unfold amount_words. rewrite name_integer_value by exact Hi.
  pose proof (Z.div_mod i 1000 ltac:(lia)) as Hdm.
  destruct (0 <? f) eqn:Hpos.
  - cbn [value_from]. change (token_of_word "and") with (Some And).
    rewrite <- (app_nil_r (name_below_hundred f)), below_hundred_sum by lia.
    cbn [sum_numbers]. f_equal. f_equal; lia.
  - apply Z.ltb_ge in Hpos. cbn [value_from]. f_equal. f_equal; lia.
Qed.

Lemma lookup_word_in (table : list (string * token)) (w : string) (t : token) :
  lookup_word table w = Some t -> In w (map fst table).
Proof.
  induction table as [ | [k t'] table IH]; cbn [lookup_word map fst].
  - discriminate.
  - destruct (String.eqb k w) eqn:Hk.
    + apply String.eqb_eq in Hk. intros _. left. exact Hk.
    + intros H. right. apply IH. exact H.
Qed.

(** A word of the table holds no blank and is not empty. *)
Lemma table_word_plain (w : string) (t : token) :
  token_of_word w = Some t ->
  ~ In " "%char (list_ascii_of_string w) /\ w <> EmptyString.
Proof.
  intros H. apply lookup_word_in in H.
  assert (Hall : Forall (fun k => ~ In " "%char (list_ascii_of_string k)
                                  /\ k <> EmptyString) (map fst word_table)).
  { repeat (constructor; [split; [cbn; intuition discriminate | discriminate] | ]).
    constructor. }
  rewrite Forall_forall in Hall. apply Hall. exact H.
Qed.

Lemma sum_numbers_words (ws : list string) :
  forall acc f, sum_numbers ws acc = Some f ->
    Forall (fun w => exists t, token_of_word w = Some t) ws.
Proof.
  induction ws as [ | w ws IH]; intros acc f H; [constructor | ].
  cbn [sum_numbers] in H.
  destruct (token_of_word w) as [[n | | v | ] | ] eqn:Hw; try discriminate.
  constructor; [exists (Number n); exact Hw | apply (IH _ _ H)].
Qed.

(** A list of words that has a value is made of words of the table. *)
Lemma value_from_words (ws : list string) :
  forall total group r, value_from ws total group = Some r ->
    Forall (fun w => exists t, token_of_word w = Some t) ws.
Proof.
  induction ws as [ | w ws IH]; intros total group r H; [constructor | ].
  cbn [value_from] in H.
  destruct (token_of_word w) as [[n | | v | ] | ] eqn:Hw; try discriminate;
    (constructor; [eexists; exact Hw | ]); try apply (IH _ _ _ H).
  destruct (sum_numbers ws 0) as [f | ] eqn:Hsum; [ | discriminate].
  apply (sum_numbers_words ws 0 f Hsum).
Qed.

Lemma append_empty (w : string) : String.append w EmptyString = w.
Proof. induction w as [ | c w IH]; cbn; [reflexivity | rewrite IH; reflexivity]. Qed.

Lemma words_of_append (w rest : string) :
  ~ In " "%char (list_ascii_of_string w) ->
  words_of (String.append w rest)
  = String.append w (hd EmptyString (words_of rest)) :: tl (words_of rest).
Proof.
  induction w as [ | c w IH]; intros Hw; cbn [String.append].
  - destruct rest as [ | c rest]; cbn [words_of]; [reflexivity | ].
    destruct (Ascii.eqb c " "); [reflexivity | ].
    destruct (words_of rest); reflexivity.
  - cbn [list_ascii_of_string] in Hw. cbn [words_of].
    destruct (Ascii.eqb c " ") eqn:Hc.
    + apply Ascii.eqb_eq in Hc. contradiction Hw. left. exact Hc.
    + rewrite IH by (intros Hin; apply Hw; right; exact Hin). reflexivity.
Qed.

(** Words without blanks, joined by single blanks, are the pieces of the
    phrase. *)
Lemma words_of_concat (ws : list string) :
  ws <> [] ->
  Forall (fun w => ~ In " "%char (list_ascii_of_string w)) ws ->
  words_of (String.concat " " ws) = ws.
Proof.
  induction ws as [ | w ws IH]; intros Hne Hall; [contradiction Hne; reflexivity | ].
  inversion Hall as [ | ? ? Hw Hws]; subst.
  destruct ws as [ | w2 ws].
  - cbn [String.concat]. rewrite <- (append_empty w) at 1.
    rewrite (words_of_append w EmptyString Hw). cbn [words_of hd tl].
    rewrite append_empty. reflexivity.
  - change (String.concat " " (w :: w2 :: ws))
      with (String.append w (String " " (String.concat " " (w2 :: ws)))).
    rewrite (words_of_append w _ Hw). cbn [words_of Ascii.eqb].
    change (Ascii.eqb " " " ") with true. cbn [hd tl].
    rewrite append_empty, IH; [reflexivity | discriminate | exact Hws].
Qed.

Lemma hundredths_range (q : Q) : 0 <= hundredths q <= 99.
Proof.
  unfold hundredths.
  pose proof (Qfloor_le q) as Hfloor.
  assert (H0 : 0 <= Qfloor ((q - inject_Z (Qfloor q)) * 100 + (1 # 2))).
  { change 0 with (Qfloor 0). apply Qfloor_resp_le. lra. }
  lia.
Qed.

(** C6: a negative amount, a NaN and an infinity are an [InvalidAmount]; an
    amount whose integer part is 10^17 or more is an [UnsupportedMagnitude];
    every other amount is put into words, and nothing of it is cut off: the
    phrase is made of words of the table, with one blank between two words
    and none at either end, and it reads back as the integer part and the
    hundredths of the amount. *)
Theorem to_words_failures (amount : Amount) :
  (amount = NotANumber -> to_words amount = inl InvalidAmount)
  /\ (forall negative, amount = Infinite negative ->
       to_words amount = inl InvalidAmount)
  /\ (forall q, amount = Finite q -> (q < 0)%Q ->
       to_words amount = inl InvalidAmount)
  /\ (forall q, amount = Finite q -> (0 <= q)%Q -> 10 ^ 17 <= Qfloor q ->
       to_words amount = inl UnsupportedMagnitude)
  /\ (forall q, amount = Finite q -> (0 <= q)%Q -> Qfloor q < 10 ^ 17 ->
       exists words,
         to_words amount = inr words
         /\ value_of_phrase words = Some (Qfloor q, hundredths q)
         /\ Forall (fun w => w <> EmptyString
                             /\ exists t, token_of_word w = Some t)
              (words_of words)).
Proof.
  split; [intros ->; reflexivity | ].
  split; [intros negative ->; reflexivity | ].
  split; [ | split]; intros q -> Hq.
  - cbn [to_words].
    destruct (Qle_bool 0 q) eqn:Hle; [ | reflexivity].
    apply Qle_bool_iff in Hle. exfalso. lra.
  - intros Hbig. cbn [to_words].
    apply Qle_bool_iff in Hq. rewrite Hq. cbn [negb].
    replace (ceiling <=? Qfloor q) with true; [reflexivity | ].
    symmetry. apply Z.leb_le. exact Hbig.
  - intros Hsmall. cbn [to_words].
    assert (Hfloor : 0 <= Qfloor q).
    { change 0 with (Qfloor 0). apply Qfloor_resp_le. exact Hq. }
    apply Qle_bool_iff in Hq. rewrite Hq. cbn [negb].
    replace (ceiling <=? Qfloor q) with false
      by (symmetry; apply Z.leb_gt; exact Hsmall).
    pose proof (hundredths_range q) as Hf.
    destruct ((Qfloor q =? 0) && (hundredths q =? 0)) eqn:Hzero.
    + apply andb_prop in Hzero. destruct Hzero as [Hi0 Hf0].
      apply Z.eqb_eq in Hi0. apply Z.eqb_eq in Hf0. rewrite Hi0, Hf0.
      exists "Zero". split; [reflexivity | ]. split; [reflexivity | ].
      repeat constructor; [discriminate | eexists; reflexivity].
    + pose proof (amount_words_value (Qfloor q) (hundredths q)
                    (conj Hfloor Hsmall) Hf) as Hvalue.
      pose proof (value_from_words _ _ _ _ Hvalue) as Hwords.
      assert (Hne : amount_words (Qfloor q) (hundredths q) <> []).
      { intros Hnil. rewrite Hnil in Hvalue. cbn [value_from] in Hvalue.
        injection Hvalue as Hi0 Hf0. rewrite <- Hi0, <- Hf0 in Hzero.
        discriminate Hzero. }
      assert (Hsplit : words_of (String.concat " "
                                   (amount_words (Qfloor q) (hundredths q)))
                       = amount_words (Qfloor q) (hundredths q)).
      { apply (words_of_concat _ Hne). apply Forall_forall. intros w Hw.
        rewrite Forall_forall in Hwords. destruct (Hwords w Hw) as [t Ht].
        apply (table_word_plain w t Ht). }
      eexists. split; [reflexivity | ].
      unfold value_of_phrase. rewrite Hsplit.
      split; [exact Hvalue | ].
      apply Forall_forall. intros w Hw.
      rewrite Forall_forall in Hwords. destruct (Hwords w Hw) as [t Ht].
      split; [apply (table_word_plain w t Ht) | exists t; exact Ht].
Qed.

Lemma to_words_failures_witness :
  to_words (Finite (-5)) = inl InvalidAmount
  /\ to_words (Finite (inject_Z (10 ^ 17))) = inl UnsupportedMagnitude
  /\ exists words,
       to_words (Finite (12550 # 100)) = inr words
       /\ value_of_phrase words
          = Some (Qfloor (12550 # 100), hundredths (12550 # 100))
       /\ Forall (fun w => w <> EmptyString
                           /\ exists t, token_of_word w = Some t)
            (words_of words).
Proof.
  split; [ | split].
  - apply (to_words_failures (Finite (-5))) with (q := (-5)%Q); reflexivity.
  - apply (to_words_failures (Finite (inject_Z (10 ^ 17))))
      with (q := inject_Z (10 ^ 17)).
    + reflexivity.
    + apply Qle_bool_iff. reflexivity.
    + vm_compute. discriminate.
  - apply (to_words_failures (Finite (12550 # 100))) with (q := (12550 # 100)%Q).
    + reflexivity.
    + apply Qle_bool_iff. reflexivity.
    + reflexivity.
Defined.

(** * Further properties of the invoice code *)

(** ** The line-items table *)

Section TableShape.

Variable numeric_of_text : string -> option float.
Variable render_amount : string -> string.

Lemma set_cell_length (cells cells' : list string) (col : nat) (txt : string) :
  set_cell cells col txt = inr cells' -> List.length cells' = List.length cells.
Proof.
  revert col cells'. induction cells as [ | c cells IH]; intros col cells' H.
  - destruct col; discriminate.
  - destruct col as [ | col]; cbn [set_cell] in H.
    + injection H as <-. reflexivity.
    + destruct (set_cell cells col txt) as [e | rest'] eqn:Hrest; [discriminate | ].
      cbn [bind] in H. injection H as <-. cbn [List.length].
      f_equal. apply (IH col). exact Hrest.
Qed.

Lemma set_cell_fails (cells : list string) (col : nat) (txt : string) (e : exn) :
  set_cell cells col txt = inl e -> e = IndexError.
Proof.
  revert col. induction cells as [ | c cells IH]; intros col H.
  - destruct col; cbn in H; congruence.
  - destruct col as [ | col]; cbn [set_cell] in H; [discriminate | ].
    destruct (set_cell cells col txt) as [e' | rest'] eqn:Hrest; [ | discriminate].
    cbn [bind] in H. injection H as <-. apply (IH col). exact Hrest.
Qed.

Lemma write_cells_length (keys : list string) :
  forall (col : nat) (row : row_data) (cells cells' : list string),
    write_cells render_amount keys col row cells = inr cells' ->
    List.length cells' = List.length cells.
Proof.
  induction keys as [ | key keys IH]; intros col row cells cells' H;
    cbn [write_cells] in H.
  - injection H as <-. reflexivity.
  - destruct (set_cell cells col _) as [e | cells1] eqn:Hset; [discriminate | ].
    cbn [bind] in H. rewrite (IH _ _ _ _ H). apply (set_cell_length _ _ _ _ Hset).
Qed.

Lemma write_cells_fails (keys : list string) :
  forall (col : nat) (row : row_data) (cells : list string) (e : exn),
    write_cells render_amount keys col row cells = inl e -> e = IndexError.
Proof.
  induction keys as [ | key keys IH]; intros col row cells e H;
    cbn [write_cells] in H.
  - discriminate.
  - destruct (set_cell cells col _) as [e' | cells1] eqn:Hset; cbn [bind] in H.
    + injection H as <-. apply (set_cell_fails _ _ _ _ Hset).
    + apply (IH _ _ _ _ H).
Qed.

(** The five columns are written only into a row that has them. *)
Lemma write_cells_needs_five (row : row_data) (cells cells' : list string) :
  write_cells render_amount column_keys 0 row cells = inr cells' ->
  (5 <= List.length cells)%nat.
Proof.
  destruct cells as [ | c0 [ | c1 [ | c2 [ | c3 [ | c4 rest]]]]];
    cbn; intros H; try discriminate; lia.
Qed.

Lemma update_length {A : Type} (l : list A) (i : nat) (x : A) :
  List.length (update l i x) = List.length l.
Proof.
  revert i. induction l as [ | y l IH]; intros [ | i]; cbn; auto.
Qed.

Lemma nth_error_update_other {A : Type} (l : list A) (i j : nat) (x : A) :
  i <> j -> nth_error (update l i x) j = nth_error l j.
Proof.
  revert i j. induction l as [ | y l IH]; intros [ | i] [ | j] Hne; cbn;
    try reflexivity.
  - exfalso. apply Hne. reflexivity.
  - apply IH. intros Heq. apply Hne. f_equal. exact Heq.
Qed.

Lemma nth_error_update_same {A : Type} (l : list A) (i : nat) (x y : A) :
  nth_error l i = Some y -> nth_error (update l i x) i = Some x.
Proof.
  revert i. induction l as [ | z l IH]; intros [ | i] H; cbn in *;
    try discriminate; try reflexivity.
  apply IH. exact H.
Qed.

Lemma same_shape_refl (tbl : table) : same_shape tbl tbl.
Proof. induction tbl; constructor; auto. Qed.

Lemma update_same_shape (tbl : table) (i : nat) (cells cells' : list string) :
  nth_error tbl i = Some cells -> List.length cells' = List.length cells ->
  same_shape tbl (update tbl i cells').
Proof.
  revert i. induction tbl as [ | r tbl IH]; intros [ | i] Hnth Hlen;
    cbn in *; try discriminate.
  - injection Hnth as ->. constructor; [symmetry; exact Hlen | ].
    apply same_shape_refl.
  - constructor; [reflexivity | apply IH; assumption].
Qed.

Lemma same_shape_trans (t1 t2 t3 : table) :
  same_shape t1 t2 -> same_shape t2 t3 -> same_shape t1 t3.
Proof.
  intros H12. revert t3. induction H12 as [ | a b t1 t2 Hab _ IH]; intros t3 H23.
  - inversion H23. constructor.
  - inversion H23 as [ | ? c ? t3' Hbc H23']; subst.
    constructor; [congruence | apply IH; assumption].
Qed.

(** One turn of the loop: the header and the shape stay, the target row
    had its five columns, and the later rows are untouched. *)
Lemma write_row_spec (rows : list row_data) (i : nat) (tbl tbl' : table) :
  write_row render_amount rows i tbl = inr tbl' ->
  same_shape tbl tbl'
  /\ (forall j, j <> S i -> nth_error tbl' j = nth_error tbl j)
  /\ exists cells, nth_error tbl (S i) = Some cells /\ (5 <= List.length cells)%nat.
Proof.
  unfold write_row. intros H.
  destruct (nth_error rows i) as [row | ]; [ | discriminate].
  destruct (nth_error tbl (S i)) as [cells | ] eqn:Hcells; [ | discriminate].
  destruct (write_cells render_amount column_keys 0 row cells) as [e | cells'] eqn:Hw;
    [discriminate | ].
  cbn [bind] in H. injection H as <-.
  split; [ | split].
  - apply (update_same_shape tbl (S i) cells cells' Hcells).
    apply (write_cells_length _ _ _ _ _ Hw).
  - intros j Hj. apply nth_error_update_other. lia.
  - exists cells. split; [reflexivity | ].
    apply (write_cells_needs_five row cells cells' Hw).
Qed.

Lemma write_row_fails (rows : list row_data) (i : nat) (tbl : table) (e : exn) :
  write_row render_amount rows i tbl = inl e -> e = IndexError.
Proof.
  unfold write_row. intros H.
  destruct (nth_error rows i) as [row | ]; [ | congruence].
  destruct (nth_error tbl (S i)) as [cells | ]; [ | congruence].
  destruct (write_cells render_amount column_keys 0 row cells) as [e' | cells'] eqn:Hw;
    cbn [bind] in H; [ | discriminate].
  injection H as <-. apply (write_cells_fails _ _ _ _ _ Hw).
Qed.

Lemma write_rows_shape (count : nat) :
  forall (i : nat) (rows : list row_data) (tbl tbl' : table),
    write_rows render_amount count i rows tbl = inr tbl' ->
    same_shape tbl tbl'
    /\ (forall j, (j <= i \/ i + count < j)%nat ->
          nth_error tbl' j = nth_error tbl j)
    /\ forall j, (i <= j < i + count)%nat ->
         exists cells, nth_error tbl (S j) = Some cells
                       /\ (5 <= List.length cells)%nat.
Proof.
  induction count as [ | count IH]; intros i rows tbl tbl' H; cbn [write_rows] in H.
  - injection H as <-. split; [apply same_shape_refl | ].
    split; [reflexivity | intros j Hj; lia].
  - destruct (write_row render_amount rows i tbl) as [e | tbl1] eqn:Hrow;
      [discriminate | ].
    cbn [bind] in H.
    destruct (write_row_spec rows i tbl tbl1 Hrow) as (Hshape1 & Hkeep1 & Hfive1).
    destruct (IH (S i) rows tbl1 tbl' H) as (Hshape & Hkeep & Hfive).
    split; [apply (same_shape_trans _ _ _ Hshape1 Hshape) | ].
    split.
    + intros j Hj. rewrite Hkeep by lia. apply Hkeep1. lia.
    + intros j Hj. destruct (Nat.eq_dec j i) as [-> | Hne]; [exact Hfive1 | ].
      destruct (Hfive j ltac:(lia)) as (cells & Hc & Hlen).
      exists cells. split; [ | exact Hlen].
      rewrite <- Hc. symmetry. apply Hkeep1. lia.
Qed.

Lemma write_rows_fails (count : nat) :
  forall (i : nat) (rows : list row_data) (tbl : table) (e : exn),
    write_rows render_amount count i rows tbl = inl e -> e = IndexError.
Proof.
  induction count as [ | count IH]; intros i rows tbl e H; cbn [write_rows] in H.
  - discriminate.
  - destruct (write_row render_amount rows i tbl) as [e' | tbl1] eqn:Hrow;
      cbn [bind] in H.
    + injection H as <-. apply (write_row_fails _ _ _ _ Hrow).
    + apply (IH _ _ _ _ H).
Qed.

Lemma clear_data_rows_shape (tbl : table) :
  same_shape tbl (clear_data_rows tbl).
Proof.
  destruct tbl as [ | header data]; [constructor | ].
  cbn [clear_data_rows]. constructor; [reflexivity | ].
  induction data as [ | r data IH]; cbn [map]; constructor; auto.
  symmetry. apply length_map.
Qed.

Lemma same_shape_nth (t1 t2 : table) (j : nat) (cells : list string) :
  same_shape t1 t2 -> nth_error t2 j = Some cells ->
  exists cells0, nth_error t1 j = Some cells0
                 /\ List.length cells0 = List.length cells.
Proof.
  intros H. revert j. induction H as [ | a b t1 t2 Hab _ IH]; intros [ | j] Hn;
    cbn in *; try discriminate.
  - injection Hn as <-. exists a. split; [reflexivity | exact Hab].
  - apply IH. exact Hn.
Qed.

Lemma same_shape_length (t1 t2 : table) :
  same_shape t1 t2 -> List.length t1 = List.length t2.
Proof. induction 1; cbn; auto. Qed.

Lemma combine_cut {A B : Type} (l : list A) (l' : list B) :
  combine l (firstn (List.length l) l') = combine l l'.
Proof.
  revert l'. induction l as [ | x l IH]; intros [ | y l']; cbn; try reflexivity.
  rewrite IH. reflexivity.
Qed.

End TableShape.

(** When the rows fit into the table, every row is written, in order, into
    the data row of its index, and the data rows left over are blank. *)
Lemma fitting_rows_line_items
    (numeric_of_text : string -> option float)
    (render_amount : string -> string)
    (rows : list row_data) (header : list string) (data : table) :
  Forall (fun cells => (5 <= List.length cells)%nat) (header :: data) ->
  (List.length rows <= List.length data)%nat ->
  generate_filled_invoice numeric_of_text render_amount rows (header :: data)
  = (summary <- summarize_rows numeric_of_text rows ;;
     inr (header
          :: map (fun '(row, cells) => written_row render_amount row cells)
               (combine rows (map (map (fun _ => "")) data))
          ++ map (map (fun _ => "")) (skipn (List.length rows) data),
          summary)).
Proof.
  intros Hfive Hfit.
  destruct (sample_cell_ok header data Hfive) as [c Hsample].
  unfold generate_filled_invoice.
  rewrite Hsample. cbn [bind List.length Nat.sub clear_data_rows].
  rewrite Nat.sub_0_r, Nat.min_l by exact Hfit.
  pose proof (write_rows_spec render_amount (List.length rows) [] rows header []
                (map (map (fun _ => "")) data)) as H.
  cbn [app List.length] in H. rewrite H; clear H.
  - cbn [bind]. rewrite (firstn_all rows), skipn_map, combine_cut. reflexivity.
  - reflexivity.
  - apply Nat.le_refl.
  - rewrite length_map. exact Hfit.
  - inversion Hfive as [ | ? ? _ Hdata]; subst.
    apply Forall_forall. intros cells Hin. apply in_map_iff in Hin.
    destruct Hin as (cells0 & <- & Hin0). rewrite length_map.
    rewrite Forall_forall in Hdata. apply Hdata. exact Hin0.
Qed.

(** X1: in ui.py and working_app.py, once the two tables are found: when the
    rows fit into the line-items table (no more rows than data rows, every
    table row with its five columns), every row is written, in order, into
    the data row of its index, the data rows left over are blank, and the
    three figures are written into the summary table; the work on the two
    tables fails only where the summary computation fails or the writing
    into the summary table does. *)
Theorem fitting_rows_all_written
    (numeric_of_text : string -> option float)
    (render_amount : string -> string) (prefix : string)
    (rows : list row_data) (header : list string) (data summary_table : table) :
  Forall (fun cells => (5 <= List.length cells)%nat) (header :: data) ->
  (List.length rows <= List.length data)%nat ->
  generate_filled_invoice_tables numeric_of_text render_amount prefix rows
    (header :: data) summary_table
  = (summary <- summarize_rows numeric_of_text rows ;;
     summary_filled <- fill_summary_table prefix summary_table summary ;;
     inr (header
          :: map (fun '(row, cells) => written_row render_amount row cells)
               (combine rows (map (map (fun _ => "")) data))
          ++ map (map (fun _ => "")) (skipn (List.length rows) data),
          summary_filled)).
Proof.
  intros Hfive Hfit. unfold generate_filled_invoice_tables.
  rewrite (fitting_rows_line_items numeric_of_text render_amount rows header
             data Hfive Hfit).
  destruct (summarize_rows numeric_of_text rows) as [e | summary]; reflexivity.
Qed.

Lemma fitting_rows_all_written_witness :
  generate_filled_invoice_tables read_decimal (fun text => text) ""
    [[("No.", "1"); (amount_key, "100.25")]]
    [["No."; "Item"; "Weight"; "Rate"; "Amount"];
     ["x"; "x"; "x"; "x"; "x"; "y"]; ["x"; "x"; "x"; "x"; "x"]]
    [["Summary"; ""]; ["Subtotal"; ""]; ["Rounding"; ""]; ["Net"; ""]]
  = (summary <- summarize_rows read_decimal [[("No.", "1"); (amount_key, "100.25")]] ;;
     summary_filled <- fill_summary_table ""
                         [["Summary"; ""]; ["Subtotal"; ""]; ["Rounding"; ""];
                          ["Net"; ""]] summary ;;
     inr (["No."; "Item"; "Weight"; "Rate"; "Amount"]
          :: map (fun '(row, cells) => written_row (fun text => text) row cells)
               (combine [[("No.", "1"); (amount_key, "100.25")]]
                  (map (map (fun _ => ""))
                     [["x"; "x"; "x"; "x"; "x"; "y"]; ["x"; "x"; "x"; "x"; "x"]]))
          ++ map (map (fun _ => ""))
               (skipn (List.length [[("No.", "1"); (amount_key, "100.25")]])
                  [["x"; "x"; "x"; "x"; "x"; "y"]; ["x"; "x"; "x"; "x"; "x"]]),
          summary_filled)).
Proof.
  apply (fitting_rows_all_written read_decimal (fun text => text) ""
           [[("No.", "1"); (amount_key, "100.25")]]
           ["No."; "Item"; "Weight"; "Rate"; "Amount"]
           [["x"; "x"; "x"; "x"; "x"; "y"]; ["x"; "x"; "x"; "x"; "x"]]
           [["Summary"; ""]; ["Subtotal"; ""]; ["Rounding"; ""]; ["Net"; ""]]).
  - repeat constructor.
  - cbn. lia.
Defined.

(** X2: whenever the call returns, the table has kept its shape (as many
    rows, as many cells in each row), its header row is untouched, and every
    data row below the written ones is blank. *)
Theorem filled_table_keeps_shape
    (numeric_of_text : string -> option float)
    (render_amount : string -> string)
    (rows : list row_data) (line_table filled : table)
    (summary : BillingSummary) :
  generate_filled_invoice numeric_of_text render_amount rows line_table
  = inr (filled, summary) ->
  same_shape line_table filled
  /\ List.length filled = List.length line_table
  /\ nth_error filled 0 = nth_error line_table 0
  /\ forall (j : nat) (cells : list string),
       (List.length rows < j)%nat -> nth_error filled j = Some cells ->
       Forall (fun txt => txt = "") cells.
Proof.
  unfold generate_filled_invoice. intros H.
  destruct (sample_cell line_table) as [e | c]; [discriminate | ].
  cbn [bind] in H.
  destruct (write_rows render_amount _ 0 rows (clear_data_rows line_table))
    as [e | tbl'] eqn:Hw; [discriminate | ].
  cbn [bind] in H.
  destruct (summarize_rows numeric_of_text rows) as [e | s]; [discriminate | ].
  cbn [bind] in H. injection H as <- <-.
  destruct (write_rows_shape render_amount _ _ _ _ _ Hw) as (Hshape & Hkeep & _).
  pose proof (same_shape_trans _ _ _ (clear_data_rows_shape line_table) Hshape)
    as Hall.
  split; [exact Hall | ].
  split; [symmetry; apply same_shape_length; exact Hall | ].
  split.
  - rewrite Hkeep by lia. destruct line_table; reflexivity.
  - intros j cells Hj Hcells. rewrite Hkeep in Hcells by lia.
    destruct line_table as [ | header data]; [destruct j; discriminate | ].
    destruct j as [ | j]; [lia | ].
    cbn [clear_data_rows nth_error] in Hcells.
    rewrite nth_error_map in Hcells.
    destruct (nth_error data j) as [cells0 | ]; [ | discriminate].
    injection Hcells as <-. apply Forall_forall. intros txt Hin.
    apply in_map_iff in Hin. destruct Hin as (? & <- & _). reflexivity.
Qed.

Lemma filled_table_keeps_shape_witness :
  same_shape
    [["No."; "Item"; "Weight"; "Rate"; "Amount"];
     ["x"; "x"; "x"; "x"; "x"; "y"]; ["x"; "x"]]
    [["No."; "Item"; "Weight"; "Rate"; "Amount"];
     ["1"; ""; ""; ""; "100.25"; ""]; [""; ""]]
  /\ List.length [["No."; "Item"; "Weight"; "Rate"; "Amount"];
                  ["1"; ""; ""; ""; "100.25"; ""]; [""; ""]]
     = List.length [["No."; "Item"; "Weight"; "Rate"; "Amount"];
                    ["x"; "x"; "x"; "x"; "x"; "y"]; ["x"; "x"]]
  /\ nth_error [["No."; "Item"; "Weight"; "Rate"; "Amount"];
                ["1"; ""; ""; ""; "100.25"; ""]; [""; ""]] 0
     = nth_error [["No."; "Item"; "Weight"; "Rate"; "Amount"];
                  ["x"; "x"; "x"; "x"; "x"; "y"]; ["x"; "x"]] 0
  /\ forall (j : nat) (cells : list string),
       (List.length [[("No.", "1"); (amount_key, "100.25")]] < j)%nat ->
       nth_error [["No."; "Item"; "Weight"; "Rate"; "Amount"];
                  ["1"; ""; ""; ""; "100.25"; ""]; [""; ""]] j = Some cells ->
       Forall (fun txt => txt = "") cells.
Proof.
  apply (filled_table_keeps_shape read_decimal (fun text => text)
           [[("No.", "1"); (amount_key, "100.25")]]
           [["No."; "Item"; "Weight"; "Rate"; "Amount"];
            ["x"; "x"; "x"; "x"; "x"; "y"]; ["x"; "x"]]
           [["No."; "Item"; "Weight"; "Rate"; "Amount"];
            ["1"; ""; ""; ""; "100.25"; ""]; [""; ""]]
           (mkSummary (of_decimal false 10025 2) (of_decimal true 25 2)
              (of_Z 100))).
  vm_compute. reflexivity.
Defined.

(** X3: a table without any row, and a table in which a data row that is to
    be written has fewer than five cells, make the call fail with an
    [IndexError], whatever the amounts are. *)
Theorem short_table_is_index_error
    (numeric_of_text : string -> option float)
    (render_amount : string -> string)
    (rows : list row_data) :
  generate_filled_invoice numeric_of_text render_amount rows [] = inl IndexError
  /\ forall (line_table : table) (j : nat) (cells : list string),
       (j < List.length rows)%nat ->
       nth_error line_table (S j) = Some cells ->
       (List.length cells < 5)%nat ->
       generate_filled_invoice numeric_of_text render_amount rows line_table
       = inl IndexError.
Proof.
  split; [reflexivity | ].
  intros line_table j cells Hj Hcells Hshort.
  unfold generate_filled_invoice.
  destruct (sample_cell line_table) as [e | c] eqn:Hsample.
  - cbn [bind]. f_equal. unfold sample_cell in Hsample.
    destruct line_table as [ | r0 [ | r1 rest]]; [ | destruct r0 | destruct r1];
      cbn in Hsample; congruence.
  - cbn [bind].
    destruct (write_rows render_amount _ 0 rows (clear_data_rows line_table))
      as [e | tbl'] eqn:Hw.
    + cbn [bind]. f_equal. apply (write_rows_fails _ _ _ _ _ _ Hw).
    + exfalso.
      destruct (write_rows_shape render_amount _ _ _ _ _ Hw) as (_ & _ & Hfive).
      assert (Hlt : (S j < List.length line_table)%nat).
      { apply nth_error_Some. rewrite Hcells. discriminate. }
      destruct (Hfive j ltac:(lia)) as (cells' & Hc' & Hlen').
      destruct (same_shape_nth _ _ _ _ (clear_data_rows_shape line_table) Hc')
        as (cells0 & Hc0 & Hlen0).
      rewrite Hcells in Hc0. injection Hc0 as <-. lia.
Qed.

Lemma short_table_is_index_error_witness :
  generate_filled_invoice read_decimal (fun text => text)
    [[("No.", "1"); (amount_key, "100.25")]]
    [["No."; "Item"; "Weight"; "Rate"; "Amount"]; ["x"; "x"]]
  = inl IndexError.
Proof.
  apply (short_table_is_index_error read_decimal (fun text => text)
           [[("No.", "1"); (amount_key, "100.25")]])
    with (j := 0%nat) (cells := ["x"; "x"]).
  - cbn. lia.
  - reflexivity.
  - cbn. lia.
Defined.

(** ** The three figures *)

Lemma nearest_even_of_integer (q : Q) (k : Z) :
  (q == inject_Z k)%Q -> nearest_even q k.
Proof.
  intros Hq. unfold nearest_even.
  assert (H0 : (Qabs (inject_Z k - q) == 0)%Q).
  { rewrite Hq. setoid_replace (inject_Z k - inject_Z k)%Q with 0%Q by ring.
    reflexivity. }
  rewrite H0. split; [discriminate | intros H; discriminate H].
Qed.

(** Rounding to the nearest integer is monotone. *)
Lemma nearest_even_monotone (q q' : Q) (n n' : Z) :
  nearest_even q n -> nearest_even q' n' -> (q <= q')%Q -> n <= n'.
Proof.
  intros [H1 H2] [H1' H2'] Hle.
  pose proof H1 as B. pose proof H1' as B'.
  apply Qabs_Qle_condition in B. apply Qabs_Qle_condition in B'.
  destruct (Z_le_gt_dec n n') as [ | Hgt]; [assumption | exfalso].
  assert (Hn : (inject_Z n' + 1 <= inject_Z n)%Q).
  { setoid_replace (inject_Z n' + 1)%Q with (inject_Z (n' + 1)).
    - rewrite <- Zle_Qle. lia.
    - rewrite inject_Z_plus. reflexivity. }
  assert (T : (Qabs (inject_Z n - q) == 1 # 2)%Q).
  { rewrite Qabs_pos by lra. lra. }
  assert (T' : (Qabs (inject_Z n' - q') == 1 # 2)%Q).
  { rewrite Qabs_neg by lra. lra. }
  specialize (H2 T). specialize (H2' T').
  assert (Hs : n = n' + 1).
  { assert (Hq : (inject_Z n <= inject_Z n' + 1)%Q) by lra.
    setoid_replace (inject_Z n' + 1)%Q with (inject_Z (n' + 1)) in Hq
      by (rewrite inject_Z_plus; reflexivity).
    rewrite <- Zle_Qle in Hq. lia. }
  rewrite Hs, Z.add_1_r, Z.even_succ, <- Z.negb_even, H2' in H2. discriminate.
Qed.

(** X4: when the subtotal is a whole number of rupees, nothing is rounded:
    the net payable is the subtotal and the rounding is zero. *)
Theorem whole_subtotal_not_rounded (amounts : list float) (s : BillingSummary)
    (k : Z) :
  Forall (fun a => valid a = true) amounts ->
  summarize amounts = inr s ->
  (to_Q (subtotal s) == inject_Z k)%Q ->
  (to_Q (net_payable s) == inject_Z k)%Q
  /\ (to_Q (rounding_value s) == 0)%Q
  /\ feqb (net_payable s) (subtotal s) = true.
Proof.
  intros Hall Hs Hk.
  destruct (summarize_produced amounts s Hall Hs)
    as (Hfin & Hsub & _ & n & Hnear & Hnet & Hrnd & Hnf & Hnv & _).
  assert (Hn : n = k).
  { apply (nearest_even_unique (to_Q (subtotal s))); [exact Hnear | ].
    apply nearest_even_of_integer. exact Hk. }
  subst n.
  split; [exact Hnet | ].
  split; [rewrite Hrnd, Hk; ring | ].
  apply (SFeqb_of_value prec emax prec_pos prec_lt_emax); try assumption.
  - rewrite Hsub. apply py_sum_valid. exact Hall.
  - rewrite Hsub. exact Hfin.
  - rewrite Hnet, Hk. reflexivity.
Qed.

Lemma whole_subtotal_not_rounded_witness :
  (to_Q (of_Z 176) == inject_Z 176)%Q
  /\ (to_Q (of_Z 0) == 0)%Q
  /\ feqb (of_Z 176) (of_Z 176) = true.
Proof.
  apply (whole_subtotal_not_rounded
           [of_decimal false 10025 2; of_decimal false 7575 2]
           (mkSummary (of_Z 176) (of_Z 0) (of_Z 176)) 176).
  - repeat constructor.
  - vm_compute. reflexivity.
  - vm_compute. reflexivity.
Defined.

Lemma py_sum_of_zeros (amounts : list float) :
  Forall (fun a => a = pzero) amounts -> py_sum amounts = pzero.
Proof.
  unfold py_sum. induction 1 as [ | a rest -> _ IH]; cbn [fold_left].
  - reflexivity.
  - exact IH.
Qed.

(** X5: when no row has an amount that reads as a number (the column is
    missing, the text is unreadable, or it reads as NaN), and also when
    there is no row at all, the three figures are 0.0. *)
Theorem no_readable_amount_all_zero
    (numeric_of_text : string -> option float) (rows : list row_data) :
  (forall row text x,
     In row rows -> get row amount_key = Some text ->
     numeric_of_text text = Some x -> is_nan x = true) ->
  summarize_rows numeric_of_text rows = inr (mkSummary pzero pzero pzero).
Proof.
  intros Hrows. unfold summarize_rows, summarize.
  rewrite py_sum_of_zeros; [reflexivity | ].
  unfold amounts_of. apply Forall_forall. intros a Ha.
  apply in_map_iff in Ha. destruct Ha as (row & <- & Hin).
  unfold amount_of_row, to_numeric_coerce.
  destruct (get row amount_key) as [text | ] eqn:Hget; [ | reflexivity].
  destruct (numeric_of_text text) as [x | ] eqn:Hx; [ | reflexivity].
  cbn zeta. rewrite (Hrows row text x Hin Hget Hx). reflexivity.
Qed.

Lemma no_readable_amount_all_zero_witness :
  summarize_rows read_decimal
    [[("No.", "1")]; [("No.", "2"); (amount_key, "twelve")]; [(amount_key, "")]]
  = inr (mkSummary pzero pzero pzero).
Proof.
  apply (no_readable_amount_all_zero read_decimal
           [[("No.", "1")]; [("No.", "2"); (amount_key, "twelve")];
            [(amount_key, "")]]).
  intros row text x Hin Hget Hx.
  destruct Hin as [<- | [<- | [<- | []]]]; vm_compute in Hget;
    try discriminate; injection Hget as <-; vm_compute in Hx; discriminate.
Defined.

Lemma fadd_nonneg (x y : float) :
  nonneg_float x = true -> nonneg_float y = true ->
  nonneg_float (fadd x y) = true.
Proof.
  destruct x as [sx | sx | | sx mx ex], y as [sy | sy | | sy my ey];
    cbn [nonneg_float]; intros Hx Hy; try discriminate;
    try (destruct sx; [discriminate | ]); try (destruct sy; [discriminate | ]);
    try reflexivity.
  - destruct sx, sy; reflexivity.
  - unfold fadd. cbn [SFadd cond_Zopp].
    destruct (_ + _) as [ | p | p] eqn:Hsum; cbn [binary_normalize].
    + reflexivity.
    + match goal with
      | |- context [binary_round _ _ _ _ ?ez] =>
          generalize (binary_round_sign prec emax prec_pos prec_lt_emax false p ez);
          destruct (binary_round prec emax false p ez)
      end; cbn [nonneg_float]; intros Hsign; try (subst; reflexivity).
      contradiction.
    + pose proof (Pos2Z.is_pos (fst (shl_align mx ex (Z.min ex ey)))).
      pose proof (Pos2Z.is_pos (fst (shl_align my ey (Z.min ex ey)))).
      pose proof (Pos2Z.neg_is_neg p). lia.
Qed.

Lemma py_sum_from_nonneg (amounts : list float) (acc : float) :
  Forall (fun a => nonneg_float a = true) amounts -> nonneg_float acc = true ->
  nonneg_float (fold_left fadd amounts acc) = true.
Proof.
  intros Hall. revert acc.
  induction Hall as [ | a rest Ha _ IH]; intros acc Hacc; cbn [fold_left].
  - exact Hacc.
  - apply IH, fadd_nonneg; assumption.
Qed.

Lemma nonneg_float_value (x : float) :
  nonneg_float x = true -> (0 <= to_Q x)%Q.
Proof.
  destruct x as [s | s | | s m e]; cbn [nonneg_float to_Q]; intros H;
    try discriminate; try apply Qle_refl.
  destruct s; [discriminate | ]. cbn [cond_Zopp].
  apply Qlt_le_weak, dyadic_sign. reflexivity.
Qed.

(** X6: amounts that are not negative give a subtotal and a net payable that
    are not negative. *)
Theorem nonneg_amounts_nonneg_figures (amounts : list float)
    (s : BillingSummary) :
  Forall (fun a => valid a = true) amounts ->
  Forall (fun a => nonneg_float a = true) amounts ->
  summarize amounts = inr s ->
  nonneg_float (subtotal s) = true
  /\ (0 <= to_Q (subtotal s))%Q
  /\ (0 <= to_Q (net_payable s))%Q.
Proof.
  intros Hall Hpos Hs.
  destruct (summarize_produced amounts s Hall Hs)
    as (_ & Hsub & _ & n & Hnear & Hnet & _).
  assert (Hnn : nonneg_float (subtotal s) = true).
  { rewrite Hsub. apply py_sum_from_nonneg; [exact Hpos | reflexivity]. }
  split; [exact Hnn | ].
  pose proof (nonneg_float_value _ Hnn) as Hq.
  split; [exact Hq | ].
  rewrite Hnet.
  assert (H0 : 0 <= n).
  { apply (nearest_even_monotone 0 (to_Q (subtotal s)));
      [apply nearest_even_of_integer; reflexivity | exact Hnear | exact Hq]. }
  rewrite Zle_Qle in H0. exact H0.
Qed.

Lemma nonneg_amounts_nonneg_figures_witness :
  nonneg_float (of_decimal false 17575 2) = true
  /\ (0 <= to_Q (of_decimal false 17575 2))%Q
  /\ (0 <= to_Q (of_Z 176))%Q.
Proof.
  apply (nonneg_amounts_nonneg_figures
           [of_decimal false 10025 2; of_decimal false 5050 2; of_Z 25]
           (mkSummary (of_decimal false 17575 2) (of_decimal false 25 2)
              (of_Z 176))).
  - repeat constructor.
  - repeat constructor.
  - vm_compute. reflexivity.
Defined.

(** X7: the net payable is monotone in the subtotal: of two invoices, the
    one with the larger subtotal never has the smaller net payable. *)
Theorem net_payable_monotone (amounts amounts' : list float)
    (s s' : BillingSummary) :
  Forall (fun a => valid a = true) amounts ->
  Forall (fun a => valid a = true) amounts' ->
  summarize amounts = inr s -> summarize amounts' = inr s' ->
  (to_Q (subtotal s) <= to_Q (subtotal s'))%Q ->
  (to_Q (net_payable s) <= to_Q (net_payable s'))%Q.
Proof.
  intros Hall Hall' Hs Hs' Hle.
  destruct (summarize_produced amounts s Hall Hs)
    as (_ & _ & _ & n & Hnear & Hnet & _).
  destruct (summarize_produced amounts' s' Hall' Hs')
    as (_ & _ & _ & n' & Hnear' & Hnet' & _).
  rewrite Hnet, Hnet', <- Zle_Qle.
  apply (nearest_even_monotone _ _ _ _ Hnear Hnear' Hle).
Qed.

Lemma net_payable_monotone_witness :
  (to_Q (of_Z 100) <= to_Q (of_Z 102))%Q.
Proof.
  apply (net_payable_monotone
           [of_decimal false 1005 1] [of_decimal false 1015 1]
           (mkSummary (of_decimal false 1005 1) (of_decimal true 5 1) (of_Z 100))
           (mkSummary (of_decimal false 1015 1) (of_decimal false 5 1) (of_Z 102))).
  - repeat constructor.
  - repeat constructor.
  - vm_compute. reflexivity.
  - vm_compute. reflexivity.
  - vm_compute. discriminate.
Defined.

(** ** The net payable that [main] puts into words *)

Section MainFacts.

Variable float_of_text : string -> option float.
Variable numeric_of_text : string -> option float.

Lemma floats_of_amounts_agree (validated : list row_data) :
  (forall row, In row validated ->
     exists text a,
       get row amount_key = Some text /\ float_of_text text = Some a
       /\ numeric_of_text text = Some a /\ is_nan a = false) ->
  floats_of_amounts float_of_text validated
  = inr (amounts_of numeric_of_text validated).
Proof.
  induction validated as [ | row rest IH]; intros H; cbn [floats_of_amounts].
  - reflexivity.
  - destruct (H row (or_introl eq_refl)) as (text & a & Hget & Hf & Hn & Hnan).
    unfold float_of_amount. rewrite Hget, Hf.
    rewrite IH by (intros r Hr; apply H; right; exact Hr).
    cbn [amounts_of map]. unfold amount_of_row, to_numeric_coerce.
    rewrite Hget, Hn. cbn zeta. rewrite Hnan. reflexivity.
Qed.

Lemma fold_fadd_nan (amounts : list float) :
  fold_left fadd amounts S754_nan = S754_nan.
Proof.
  induction amounts as [ | a rest IH]; cbn [fold_left]; [reflexivity | exact IH].
Qed.

Lemma py_sum_from_nan (amounts : list float) (acc : float) :
  Exists (fun a => is_nan a = true) amounts ->
  fold_left fadd amounts acc = S754_nan.
Proof.
  intros Hex. revert acc.
  induction Hex as [a rest Ha | a rest _ IH]; intros acc; cbn [fold_left].
  - destruct a; try discriminate.
    replace (fadd acc S754_nan) with S754_nan
      by (destruct acc as [ | [ | ] | | ]; reflexivity).
    apply fold_fadd_nan.
  - apply IH.
Qed.

End MainFacts.

(** X8: the net payable that [main] computes for the amount in words is the
    net payable of the summary block, and [main] fails where the summary
    block does, whenever every amount text is read by [float] and by
    [pd.to_numeric] as the same number. *)
Theorem main_net_payable_agrees
    (float_of_text numeric_of_text : string -> option float)
    (validated : list row_data) :
  (forall row, In row validated ->
     exists text a,
       get row amount_key = Some text /\ float_of_text text = Some a
       /\ numeric_of_text text = Some a /\ is_nan a = false) ->
  main_net_payable float_of_text validated
  = match summarize_rows numeric_of_text validated with
    | inl e => inl (Builtin e)
    | inr s => inr (net_payable s)
    end.
Proof.
  intros H. unfold main_net_payable.
  rewrite (floats_of_amounts_agree float_of_text numeric_of_text validated H).
  unfold summarize_rows, summarize, summary_of_subtotal.
  destruct (py_round (py_sum (amounts_of numeric_of_text validated))) as [e | n];
    [reflexivity | ].
  cbn [bind]. destruct (py_float_of_int n) as [e | x]; reflexivity.
Qed.

Lemma main_net_payable_agrees_witness :
  main_net_payable read_decimal
    [[("No.", "1"); (amount_key, "100.25")]; [(amount_key, "75.50")]]
  = match summarize_rows read_decimal
            [[("No.", "1"); (amount_key, "100.25")]; [(amount_key, "75.50")]] with
    | inl e => inl (Builtin e)
    | inr s => inr (net_payable s)
    end.
Proof.
  apply (main_net_payable_agrees read_decimal read_decimal
           [[("No.", "1"); (amount_key, "100.25")]; [(amount_key, "75.50")]]).
  intros row [<- | [<- | []]].
  - exists "100.25", (of_decimal false 10025 2). repeat split; reflexivity.
  - exists "75.50", (of_decimal false 7550 2). repeat split; reflexivity.
Defined.

(** X9: an amount that [float] reads as NaN makes the computation of [main]
    fail with the [ValueError] of [round], while the summary block counts
    such an amount as 0.0. *)
Theorem nan_amount_stops_main
    (float_of_text : string -> option float)
    (validated : list row_data) (amounts : list float) :
  floats_of_amounts float_of_text validated = inr amounts ->
  Exists (fun a => is_nan a = true) amounts ->
  main_net_payable float_of_text validated = inl (Builtin ValueError).
Proof.
  intros Hread Hnan. unfold main_net_payable. rewrite Hread.
  unfold py_sum. rewrite (py_sum_from_nan amounts pzero Hnan). reflexivity.
Qed.

Lemma nan_amount_stops_main_witness :
  main_net_payable
    (fun text => if String.eqb text "nan" then Some S754_nan else read_decimal text)
    [[(amount_key, "100.25")]; [(amount_key, "nan")]]
  = inl (Builtin ValueError).
Proof.
  apply (nan_amount_stops_main
           (fun text => if String.eqb text "nan" then Some S754_nan
                        else read_decimal text)
           [[(amount_key, "100.25")]; [(amount_key, "nan")]]
           [of_decimal false 10025 2; S754_nan]).
  - reflexivity.
  - right. left. reflexivity.
Defined.

(** ** The billing summary table *)

Lemma set_cell_update (cells : list string) (col : nat) (txt : string) :
  set_cell cells col txt
  = match nth_error cells col with
    | Some _ => inr (update cells col txt)
    | None => inl IndexError
    end.
Proof.
  revert col. induction cells as [ | c cells IH]; intros [ | col];
    cbn [set_cell nth_error update]; try reflexivity.
  rewrite IH. destruct (nth_error cells col); reflexivity.
Qed.

(** One cell of a table is set: the call fails when there is no such cell;
    otherwise the cell holds the text and every other cell is as before. *)
Lemma set_table_cell_spec (tbl : table) (r c : nat) (txt : string) :
  match cell_at tbl r c with
  | None => set_table_cell tbl r c txt = inl IndexError
  | Some _ =>
      exists tbl',
        set_table_cell tbl r c txt = inr tbl'
        /\ same_shape tbl tbl'
        /\ cell_at tbl' r c = Some txt
        /\ forall r' c', r' <> r \/ c' <> c ->
             cell_at tbl' r' c' = cell_at tbl r' c'
  end.
Proof.
  unfold cell_at, set_table_cell.
  destruct (nth_error tbl r) as [cells | ] eqn:Hrow; [ | reflexivity].
  rewrite set_cell_update.
  destruct (nth_error cells c) as [old | ] eqn:Hcell; [ | reflexivity].
  cbn [bind]. eexists. split; [reflexivity | ].
  split; [ | split].
  - apply (update_same_shape tbl r cells); [exact Hrow | ].
    apply update_length.
  - rewrite (nth_error_update_same tbl r _ cells Hrow).
    apply (nth_error_update_same cells c txt old Hcell).
  - intros r' c' Hne. destruct (Nat.eq_dec r' r) as [-> | Hr].
    + rewrite (nth_error_update_same tbl r _ cells Hrow), Hrow.
      apply nth_error_update_other. destruct Hne as [Hne | Hne]; [contradiction | ].
      intros Heq. apply Hne. symmetry. exact Heq.
    + rewrite nth_error_update_other; [reflexivity | ].
      intros Heq. apply Hr. symmetry. exact Heq.
Qed.

(** X10: the three figures go to column 1 of the rows 1, 2 and 3 of the
    summary table, in that order, and no other cell changes; the call fails
    with an [IndexError] exactly when one of the three cells is missing. *)
Theorem summary_table_filled (prefix : string) (summary_table : table)
    (s : BillingSummary) :
  match cell_at summary_table 1 1, cell_at summary_table 2 1,
        cell_at summary_table 3 1 with
  | Some _, Some _, Some _ =>
      exists filled,
        fill_summary_table prefix summary_table s = inr filled
        /\ same_shape summary_table filled
        /\ cell_at filled 1 1 = Some (format_amount (subtotal s))
        /\ cell_at filled 2 1 = Some (format_amount (rounding_value s))
        /\ cell_at filled 3 1
           = Some (String.append prefix (format_amount (net_payable s)))
        /\ forall r c,
             ~ (c = 1%nat /\ (r = 1 \/ r = 2 \/ r = 3)%nat) ->
             cell_at filled r c = cell_at summary_table r c
  | _, _, _ => fill_summary_table prefix summary_table s = inl IndexError
  end.
Proof.
  unfold fill_summary_table.
  pose proof (set_table_cell_spec summary_table 1 1 (format_amount (subtotal s)))
    as H1.
  destruct (cell_at summary_table 1 1) as [old1 | ]; [ | rewrite H1; reflexivity].
  destruct H1 as (t1 & -> & Hs1 & Hc1 & Hk1). cbn [bind].
  pose proof (set_table_cell_spec t1 2 1 (format_amount (rounding_value s))) as H2.
  rewrite (Hk1 2%nat 1%nat) in H2 by (left; discriminate).
  destruct (cell_at summary_table 2 1) as [old2 | ]; [ | rewrite H2; reflexivity].
  destruct H2 as (t2 & -> & Hs2 & Hc2 & Hk2). cbn [bind].
  pose proof (set_table_cell_spec t2 3 1
                (String.append prefix (format_amount (net_payable s)))) as H3.
  rewrite (Hk2 3%nat 1%nat), (Hk1 3%nat 1%nat) in H3 by (left; discriminate).
  destruct (cell_at summary_table 3 1) as [old3 | ]; [ | exact H3].
  destruct H3 as (t3 & -> & Hs3 & Hc3 & Hk3).
  exists t3. split; [reflexivity | ].
  split; [apply (same_shape_trans _ _ _ (same_shape_trans _ _ _ Hs1 Hs2) Hs3) | ].
  split; [rewrite Hk3, Hk2 by (left; discriminate); exact Hc1 | ].
  split; [rewrite Hk3 by (left; discriminate); exact Hc2 | ].
  split; [exact Hc3 | ].
  intros r c Hne.
  assert (Hother : forall r0 : nat, (r0 = 1 \/ r0 = 2 \/ r0 = 3)%nat ->
                     r <> r0 \/ c <> 1%nat).
  { intros r0 Hr0. destruct (Nat.eq_dec c 1) as [-> | Hc]; [ | right; exact Hc].
    left. intros ->. apply Hne. split; [reflexivity | exact Hr0]. }
  rewrite Hk3, Hk2, Hk1; [reflexivity | | | ]; apply Hother; auto.
Qed.

(** ** The printed figures *)

Lemma dyadic_scale (k m e : Z) :
  (dyadic (k * m) e == inject_Z k * dyadic m e)%Q.
Proof. unfold dyadic. rewrite inject_Z_mult. ring. Qed.

(** The hundredths of a whole number. *)
Lemma round_to_cents_of_integer (m : positive) (e k : Z) :
  (dyadic (Zpos m) e == inject_Z k)%Q -> round_to_cents m e = 100 * k.
Proof.
  intros Hk. unfold round_to_cents.
  apply (nearest_even_unique (dyadic (Zpos (100 * m)) e)).
  - apply round_half_even_pos_nearest.
  - apply nearest_even_of_integer.
    change (Zpos (100 * m)) with (100 * Zpos m).
    rewrite dyadic_scale, Hk, inject_Z_mult. reflexivity.
Qed.

(** The hundredths of a number that is at most one half. *)
Lemma round_to_cents_of_half (m : positive) (e : Z) :
  (dyadic (Zpos m) e <= 1 # 2)%Q ->
  0 <= round_to_cents m e <= 50
  /\ nearest_even (100 * dyadic (Zpos m) e) (round_to_cents m e).
Proof.
  intros Hle. unfold round_to_cents.
  pose proof (round_half_even_pos_nearest (100 * m) e) as Hnear.
  assert (Hv : (dyadic (Zpos (100 * m)) e == 100 * dyadic (Zpos m) e)%Q).
  { change (Zpos (100 * m)) with (100 * Zpos m). apply dyadic_scale. }
  assert (Hpos : (0 < dyadic (Zpos m) e)%Q) by (apply dyadic_sign; reflexivity).
  split; [split | ].
  - apply (nearest_even_monotone 0 (dyadic (Zpos (100 * m)) e));
      [apply nearest_even_of_integer; reflexivity | exact Hnear | ].
    rewrite Hv. lra.
  - apply (nearest_even_monotone (dyadic (Zpos (100 * m)) e) (inject_Z 50));
      [exact Hnear | apply nearest_even_of_integer; reflexivity | ].
    rewrite Hv. change (inject_Z 50) with 50%Q. lra.
  - apply (nearest_even_compat _ _ _ Hv). exact Hnear.
Qed.

(** The net payable is the float of the integer that [round] returned. *)
Lemma summarize_net_payable (amounts : list float) (s : BillingSummary) :
  Forall (fun a => valid a = true) amounts ->
  summarize amounts = inr s ->
  exists n : Z,
    nearest_even (to_Q (subtotal s)) n
    /\ net_payable s = of_Z n
    /\ is_finite (of_Z n) = true
    /\ (to_Q (of_Z n) == inject_Z n)%Q.
Proof.
  intros Hall Hs.
  destruct (summarize_produced amounts s Hall Hs) as (Hfin & Hsub & _).
  pose proof (py_sum_valid amounts Hall) as Hv.
  destruct (py_round_spec (py_sum amounts) Hv Hfin) as (n & Hround & Hnear & Hfit & _).
  destruct (py_float_of_int_exact n Hfit) as (Hfloat & Hnf & Hval).
  unfold summarize, summary_of_subtotal in Hs.
  rewrite Hround in Hs. cbn [bind] in Hs. rewrite Hfloat in Hs. cbn [bind] in Hs.
  injection Hs as <-. cbn [subtotal net_payable].
  exists n. repeat split; try assumption; apply Hnear.
Qed.

(** The float of an integer other than zero: a finite float with the sign
    of the integer. *)
Lemma of_Z_shape (n : Z) :
  n <> 0 -> is_finite (of_Z n) = true ->
  exists m e, of_Z n = S754_finite (n <? 0) m e.
Proof.
  intros Hn Hfin. unfold of_Z in *.
  destruct n as [ | p | p]; [contradiction Hn; reflexivity | | ];
    cbn [binary_normalize Z.ltb Z.compare] in *.
  - pose proof (binary_round_sign prec emax prec_pos prec_lt_emax false p 0) as Hsign.
    pose proof (fun sz => binary_round_not_zero prec emax prec_pos prec_lt_emax
                            false p 0 sz ltac:(vm_compute; discriminate)) as Hnz.
    destruct (binary_round prec emax false p 0) as [sz | sz | | sg m e];
      try discriminate.
    + contradiction (Hnz sz). reflexivity.
    + subst sg. exists m, e. reflexivity.
  - pose proof (binary_round_sign prec emax prec_pos prec_lt_emax true p 0) as Hsign.
    pose proof (fun sz => binary_round_not_zero prec emax prec_pos prec_lt_emax
                            true p 0 sz ltac:(vm_compute; discriminate)) as Hnz.
    destruct (binary_round prec emax true p 0) as [sz | sz | | sg m e];
      try discriminate.
    + contradiction (Hnz sz). reflexivity.
    + subst sg. exists m, e. reflexivity.
Qed.

(** X11: the net payable is printed as a whole number: the integer that
    [round] returned, with a minus sign if it is negative, commas between
    its groups of three digits, and [.00] at the end. *)
Theorem net_payable_printed_whole (amounts : list float) (s : BillingSummary) :
  Forall (fun a => valid a = true) amounts ->
  summarize amounts = inr s ->
  exists n : Z,
    nearest_even (to_Q (subtotal s)) n
    /\ format_amount (net_payable s)
       = String.append (if n <? 0 then "-" else "")
           (String.append (group_thousands (decimal_of_Z (Z.abs n))) ".00").
Proof.
  intros Hall Hs.
  destruct (summarize_net_payable amounts s Hall Hs) as (n & Hnear & -> & Hfin & Hval).
  exists n. split; [exact Hnear | ].
  destruct (Z.eq_dec n 0) as [-> | Hn]; [reflexivity | ].
  destruct (of_Z_shape n Hn Hfin) as (m & e & Hshape).
  rewrite Hshape in Hval |- *. cbn [to_Q] in Hval.
  assert (Habs : (dyadic (Zpos m) e == inject_Z (Z.abs n))%Q).
  { destruct (n <? 0) eqn:Hneg; cbn [cond_Zopp] in Hval.
    - apply Z.ltb_lt in Hneg. rewrite Z.abs_neq by lia.
      rewrite inject_Z_opp, <- Hval, dyadic_opp, Z.opp_involutive. reflexivity.
    - apply Z.ltb_ge in Hneg. rewrite Z.abs_eq by lia. exact Hval. }
  cbn [format_amount]. cbv zeta.
  rewrite (round_to_cents_of_integer m e (Z.abs n) Habs).
  rewrite (Z.mul_comm 100), Z.div_mul, Z.mod_mul by discriminate.
  reflexivity.
Qed.

Lemma net_payable_printed_whole_witness :
  exists n : Z,
    nearest_even (to_Q (of_decimal false 123456750 2)) n
    /\ format_amount (of_Z 1234568)
       = String.append (if n <? 0 then "-" else "")
           (String.append (group_thousands (decimal_of_Z (Z.abs n))) ".00").
Proof.
  apply (net_payable_printed_whole
           [of_decimal false 123456700 2; of_decimal false 50 2]
           (mkSummary (of_decimal false 123456750 2) (of_decimal false 50 2)
              (of_Z 1234568))).
  - repeat constructor.
  - vm_compute. reflexivity.
Defined.

(** X12: the rounding is printed as [0.dd] or [-0.dd] with [dd] between 00
    and 50: the hundredths of its absolute value, rounded to the nearest,
    ties to even. *)
Theorem rounding_printed_below_one (amounts : list float) (s : BillingSummary) :
  Forall (fun a => valid a = true) amounts ->
  summarize amounts = inr s ->
  exists (negative : bool) (hundredths : Z),
    0 <= hundredths <= 50
    /\ nearest_even (100 * Qabs (to_Q (rounding_value s))) hundredths
    /\ format_amount (rounding_value s)
       = String.append (if negative then "-" else "")
           (String.append "0." (two_digits hundredths)).
Proof.
  intros Hall Hs.
  destruct (summarize_produced amounts s Hall Hs)
    as (_ & _ & _ & n & [Hhalf _] & _ & Hrnd & _ & _ & Hfin & _).
  rewrite <- Hrnd in Hhalf.
  destruct (rounding_value s) as [sg | sg | | sg m e]; try discriminate.
  - exists sg, 0. split; [lia | ]. split; [ | reflexivity].
    apply nearest_even_of_integer. cbn [to_Q]. reflexivity.
  - assert (Habs : (Qabs (to_Q (S754_finite sg m e)) == dyadic (Zpos m) e)%Q).
    { cbn [to_Q]. rewrite dyadic_abs. destruct sg; reflexivity. }
    rewrite Habs in Hhalf.
    destruct (round_to_cents_of_half m e Hhalf) as (Hrange & Hnear).
    exists sg, (round_to_cents m e).
    split; [exact Hrange | ].
    split.
    + apply (nearest_even_compat (100 * dyadic (Zpos m) e)); [ | exact Hnear].
      rewrite Habs. reflexivity.
    + cbn [format_amount]. cbv zeta.
      rewrite Z.div_small, Z.mod_small by lia. reflexivity.
Qed.

Lemma rounding_printed_below_one_witness :
  exists (negative : bool) (hundredths : Z),
    0 <= hundredths <= 50
    /\ nearest_even (100 * Qabs (to_Q (of_decimal true 25 2))) hundredths
    /\ format_amount (of_decimal true 25 2)
       = String.append (if negative then "-" else "")
           (String.append "0." (two_digits hundredths)).
Proof.
  apply (rounding_printed_below_one
           [of_decimal false 10025 2]
           (mkSummary (of_decimal false 10025 2) (of_decimal true 25 2)
              (of_Z 100))).
  - repeat constructor.
  - vm_compute. reflexivity.
Defined.

(** ** The check boxes of the payment method *)

Lemma checkbox_of_method_is_box (payment_method box : string) :
  get checkbox_names payment_method = Some box -> is_checkbox_name box = true.
Proof.
  unfold checkbox_names. cbn [get].
  repeat match goal with
         | |- context [String.eqb ?a payment_method] =>
             destruct (String.eqb a payment_method)
         end;
    intros H; try discriminate; injection H as <-; reflexivity.
Qed.

(** A box is ticked after the call exactly when it has a text frame and the
    name that belongs to the payment method. *)
Lemma mark_checkbox_ticked (payment_method : string) (s : shape) :
  is_ticked (mark_checkbox payment_method s) = true
  <-> has_text_frame s = true
      /\ get checkbox_names payment_method = Some (shape_name s).
Proof.
  unfold mark_checkbox, is_ticked.
  destruct (has_text_frame s) eqn:Hframe; cbn [andb].
  - destruct (is_checkbox_name (shape_name s)) eqn:Hbox.
    + destruct (get checkbox_names payment_method) as [box | ] eqn:Hget.
      * destruct (String.eqb (shape_name s) box) eqn:Hname;
          cbn [has_text_frame shape_name shape_text andb]; rewrite Hbox; cbn [andb].
        -- apply String.eqb_eq in Hname. subst box.
           split; [intros _; split; reflexivity | intros _; reflexivity].
        -- apply String.eqb_neq in Hname.
           split; [discriminate | ]. intros [_ Heq]. congruence.
      * cbn [has_text_frame shape_name shape_text andb]. rewrite Hbox. cbn [andb].
        split; [discriminate | intros [_ Heq]; discriminate].
    + rewrite Hframe, Hbox. cbn [andb].
      split; [discriminate | ]. intros [_ Heq].
      rewrite (checkbox_of_method_is_box _ _ Heq) in Hbox. discriminate.
  - rewrite Hframe. cbn [andb]. split; [discriminate | intros [H _]; discriminate].
Qed.

Lemma mark_checkbox_name (payment_method : string) (s : shape) :
  shape_name (mark_checkbox payment_method s) = shape_name s.
Proof.
  unfold mark_checkbox.
  destruct (has_text_frame s); [ | reflexivity].
  destruct (is_checkbox_name (shape_name s)); [ | reflexivity].
  destruct (get checkbox_names payment_method) as [box | ]; [ | reflexivity].
  destruct (String.eqb (shape_name s) box); reflexivity.
Qed.

(** Among items with distinct keys, at most one has a given key. *)
Lemma at_most_one_with_key {A : Type} (key : A -> string) (p : A -> bool)
    (v : string) (l : list A) :
  NoDup (map key l) ->
  (forall x, In x l -> p x = true -> key x = v) ->
  (List.length (filter p l) <= 1)%nat.
Proof.
  induction l as [ | x l IH]; intros Hnd Hkey; cbn [filter List.length map] in *.
  - lia.
  - inversion Hnd as [ | ? ? Hnotin Hnd']; subst.
    assert (IH' : (List.length (filter p l) <= 1)%nat).
    { apply IH; [exact Hnd' | ]. intros y Hy. apply Hkey. right. exact Hy. }
    destruct (p x) eqn:Hpx; [ | exact IH'].
    destruct (filter p l) as [ | y rest] eqn:Hfilter; [cbn; lia | exfalso].
    assert (Hy : In y (filter p l)) by (rewrite Hfilter; left; reflexivity).
    apply filter_In in Hy. destruct Hy as [Hin Hpy].
    apply Hnotin. rewrite (Hkey x (or_introl eq_refl) Hpx).
    rewrite <- (Hkey y (or_intror Hin) Hpy). apply in_map. exact Hin.
Qed.

(** X13: after the loop over the shapes, a box is ticked only if it is the
    box of the payment method, and the box of the payment method is ticked
    if it has a text frame; an unknown payment method leaves no box ticked;
    the shapes keep their names; and when the names of the shapes are
    distinct, at most one box is ticked. *)
Theorem only_payment_box_ticked (payment_method : string) (shapes : list shape) :
  map shape_name (mark_checkboxes payment_method shapes) = map shape_name shapes
  /\ (forall s, In s (mark_checkboxes payment_method shapes) ->
        is_ticked s = true ->
        get checkbox_names payment_method = Some (shape_name s))
  /\ (forall s, In s shapes -> has_text_frame s = true ->
        get checkbox_names payment_method = Some (shape_name s) ->
        In (mkShape (shape_name s) true check_mark)
          (mark_checkboxes payment_method shapes))
  /\ (get checkbox_names payment_method = None ->
        filter is_ticked (mark_checkboxes payment_method shapes) = [])
  /\ (NoDup (map shape_name shapes) ->
        (List.length (filter is_ticked (mark_checkboxes payment_method shapes))
         <= 1)%nat).
Proof.
  assert (Hnames : map shape_name (mark_checkboxes payment_method shapes)
                   = map shape_name shapes).
  { unfold mark_checkboxes. rewrite map_map. apply map_ext.
    intros s. apply mark_checkbox_name. }
  assert (Honly : forall s, In s (mark_checkboxes payment_method shapes) ->
            is_ticked s = true ->
            get checkbox_names payment_method = Some (shape_name s)).
  { intros s Hin Hticked. unfold mark_checkboxes in Hin.
    apply in_map_iff in Hin. destruct Hin as (s0 & <- & _).
    rewrite mark_checkbox_name.
    apply (mark_checkbox_ticked payment_method s0). exact Hticked. }
  assert (Hnone : get checkbox_names payment_method = None ->
            filter is_ticked (mark_checkboxes payment_method shapes) = []).
  { intros Hget.
    destruct (filter is_ticked (mark_checkboxes payment_method shapes))
      as [ | s rest] eqn:Hfilter; [reflexivity | exfalso].
    assert (Hs : In s (filter is_ticked (mark_checkboxes payment_method shapes)))
      by (rewrite Hfilter; left; reflexivity).
    apply filter_In in Hs. destruct Hs as [Hin Hticked].
    rewrite (Honly s Hin Hticked) in Hget. discriminate. }
  split; [exact Hnames | ]. split; [exact Honly | ].
  split; [ | split; [exact Hnone | ]].
  { intros s Hin Hframe Hget. unfold mark_checkboxes.
    apply in_map_iff. exists s. split; [ | exact Hin].
    unfold mark_checkbox.
    rewrite Hframe, (checkbox_of_method_is_box _ _ Hget), Hget, String.eqb_refl.
    reflexivity. }
  intros Hnd.
  destruct (get checkbox_names payment_method) as [box | ] eqn:Hget.
  - apply (at_most_one_with_key shape_name is_ticked box).
    + rewrite Hnames. exact Hnd.
    + intros s Hin Hticked. specialize (Honly s Hin Hticked). congruence.
  - rewrite (Hnone eq_refl). cbn. lia.
Qed.

Lemma only_payment_box_ticked_witness :
  (List.length
     (filter is_ticked
        (mark_checkboxes "UPI"
           [mkShape "Cash Check" true check_mark; mkShape "UPI Check" true "";
            mkShape "Logo" false ""; mkShape "Cheque Check" true ""])) <= 1)%nat.
Proof.
  apply (only_payment_box_ticked "UPI"
           [mkShape "Cash Check" true check_mark; mkShape "UPI Check" true "";
            mkShape "Logo" false ""; mkShape "Cheque Check" true ""]).
  cbn [map shape_name].
  repeat (constructor; [cbn; intuition discriminate | ]). constructor.
Defined.

(** ** The name of the download *)

Lemma sanitize_filename_append (a b : string) :
  sanitize_filename (String.append a b)
  = String.append (sanitize_filename a) (sanitize_filename b).
Proof.
  induction a as [ | c a IH]; cbn [String.append sanitize_filename].
  - reflexivity.
  - destruct (forbidden_in_filename c); [exact IH | ].
    cbn [String.append]. rewrite IH. reflexivity.
Qed.

Lemma sanitize_filename_allowed (filename : string) (c : ascii) :
  In c (list_ascii_of_string (sanitize_filename filename)) ->
  forbidden_in_filename c = false
  /\ In c (list_ascii_of_string filename).
Proof.
  induction filename as [ | d rest IH]; cbn [sanitize_filename list_ascii_of_string].
  - intros [].
  - destruct (forbidden_in_filename d) eqn:Hd.
    + intros H. destruct (IH H) as [Hc Hin]. split; [exact Hc | right; exact Hin].
    + cbn [list_ascii_of_string]. intros [<- | H].
      * split; [exact Hd | left; reflexivity].
      * destruct (IH H) as [Hc Hin]. split; [exact Hc | right; exact Hin].
Qed.

Lemma sanitize_filename_clean (filename : string) :
  (forall c, In c (list_ascii_of_string filename) ->
             forbidden_in_filename c = false) ->
  sanitize_filename filename = filename.
Proof.
  induction filename as [ | d rest IH]; cbn [sanitize_filename list_ascii_of_string];
    intros H.
  - reflexivity.
  - rewrite (H d (or_introl eq_refl)). f_equal.
    apply IH. intros c Hc. apply H. right. exact Hc.
Qed.

(** X14: the name of the download is [RishabGems_], the invoice number, the
    client, the phone number and the date, joined by underscores and
    followed by [.pptx], each of the four parts without the characters that
    a file name must not hold; no such character is left in the name, and
    cleaning a name twice is cleaning it once. *)
Theorem download_filename_clean
    (bill_no client_bill_to client_phone today : string) :
  download_filename bill_no client_bill_to client_phone today
  = String.append "RishabGems_"
      (String.append (sanitize_filename bill_no)
         (String.append "_"
            (String.append (sanitize_filename client_bill_to)
               (String.append "_"
                  (String.append (sanitize_filename client_phone)
                     (String.append "_"
                        (String.append (sanitize_filename today) ".pptx")))))))
  /\ (forall c,
        In c (list_ascii_of_string
                (download_filename bill_no client_bill_to client_phone today)) ->
        forbidden_in_filename c = false)
  /\ (forall filename,
        sanitize_filename (sanitize_filename filename)
        = sanitize_filename filename).
Proof.
  split; [ | split].
  - unfold download_filename. rewrite !sanitize_filename_append. reflexivity.
  - intros c Hc. unfold download_filename in Hc.
    apply (sanitize_filename_allowed _ c Hc).
  - intros filename. apply sanitize_filename_clean.
    intros c Hc. apply (sanitize_filename_allowed filename c Hc).
Qed.

(** ** Reading a number from a form field *)

Section ParseNumberFacts.

Variable float_of : text -> option float.

(** A blank is none of the characters that the cleaning looks for. *)
Lemma space_is_plain (c : N) :
  is_space c = true ->
  (c =? comma)%N = false /\ (c =? rupee_sign)%N = false
  /\ matches_r c = false /\ matches_s c = false
  /\ (c =? full_stop)%N = false.
Proof.
  unfold is_space, matches_r, matches_s, comma, rupee_sign, full_stop.
  intros H.
  repeat rewrite ?Bool.orb_true_iff, ?Bool.andb_true_iff, ?N.leb_le, ?N.eqb_eq in H.
  repeat rewrite ?Bool.orb_false_iff, ?N.eqb_neq.
  repeat split; lia.
Qed.

Lemma remove_commas_spec (s : text) (c : N) :
  In c (remove_commas s) <-> In c s /\ c <> comma.
Proof.
  unfold remove_commas. rewrite filter_In, Bool.negb_true_iff, N.eqb_neq.
  reflexivity.
Qed.

Lemma remove_commas_spaces (sp : text) :
  Forall (fun c => is_space c = true) sp -> remove_commas sp = sp.
Proof.
  unfold remove_commas. induction 1 as [ | c sp Hc _ IH]; cbn [filter].
  - reflexivity.
  - destruct (space_is_plain c Hc) as (-> & _). cbn [negb]. rewrite IH. reflexivity.
Qed.

(** What the removal of the currency marks leaves was there before, and
    is no rupee sign. *)
Lemma remove_currency_spec_bounded (n : nat) :
  forall (s : text) (c : N),
    (List.length s <= n)%nat -> In c (remove_currency s) ->
    In c s /\ c <> rupee_sign.
Proof.
  induction n as [ | n IH]; intros s c Hlen Hin.
  - destruct s; [destruct Hin | cbn in Hlen; lia].
  - destruct s as [ | c0 rest]; [destruct Hin | ].
    cbn [List.length] in Hlen. cbn [remove_currency] in Hin.
    destruct (c0 =? rupee_sign)%N eqn:Hrupee.
    + destruct (IH rest c ltac:(lia) Hin) as [H1 H2]. split; [right; exact H1 | exact H2].
    + apply N.eqb_neq in Hrupee.
      assert (Hkeep : In c (c0 :: remove_currency rest) ->
                      In c (c0 :: rest) /\ c <> rupee_sign).
      { intros [<- | H]; [split; [left; reflexivity | exact Hrupee] | ].
        destruct (IH rest c ltac:(lia) H) as [H1 H2].
        split; [right; exact H1 | exact H2]. }
      destruct (matches_r c0); [ | exact (Hkeep Hin)].
      destruct rest as [ | c1 rest1].
      * destruct Hin as [<- | []]. split; [left; reflexivity | exact Hrupee].
      * destruct (matches_s c1); [ | exact (Hkeep Hin)].
        cbn [List.length] in Hlen.
        destruct rest1 as [ | c2 rest2]; [destruct Hin | ].
        cbn [List.length] in Hlen.
        destruct (c2 =? full_stop)%N.
        -- destruct (IH rest2 c ltac:(lia) Hin) as [H1 H2].
           split; [right; right; right; exact H1 | exact H2].
        -- destruct (IH (c2 :: rest2) c ltac:(cbn; lia) Hin) as [H1 H2].
           split; [right; right; exact H1 | exact H2].
Qed.

Lemma remove_currency_spec (s : text) (c : N) :
  In c (remove_currency s) -> In c s /\ c <> rupee_sign.
Proof. apply (remove_currency_spec_bounded (List.length s)). apply Nat.le_refl. Qed.

Lemma remove_currency_spaces_before (sp s : text) :
  Forall (fun c => is_space c = true) sp ->
  remove_currency (sp ++ s) = sp ++ remove_currency s.
Proof.
  induction 1 as [ | c sp Hc _ IH]; cbn [app remove_currency].
  - reflexivity.
  - destruct (space_is_plain c Hc) as (_ & -> & -> & _). rewrite IH. reflexivity.
Qed.

Lemma remove_currency_spaces (sp : text) :
  Forall (fun c => is_space c = true) sp -> remove_currency sp = sp.
Proof.
  intros H. pose proof (remove_currency_spaces_before sp [] H) as Heq.
  rewrite !app_nil_r in Heq. exact Heq.
Qed.

Lemma remove_currency_spaces_after_bounded (sp : text) (n : nat) :
  Forall (fun c => is_space c = true) sp ->
  forall s : text, (List.length s <= n)%nat ->
    remove_currency (s ++ sp) = remove_currency s ++ sp.
Proof.
  intros Hsp. induction n as [ | n IH]; intros s Hlen.
  - destruct s; [ | cbn in Hlen; lia]. apply (remove_currency_spaces sp Hsp).
  - destruct s as [ | c0 rest]; [apply (remove_currency_spaces sp Hsp) | ].
    cbn [List.length] in Hlen. cbn [app remove_currency].
    destruct (c0 =? rupee_sign)%N; [apply IH; lia | ].
    destruct (matches_r c0); [ | rewrite IH by lia; reflexivity].
    destruct rest as [ | c1 rest1]; cbn [app].
    + destruct Hsp as [ | c sp Hc Hsp]; [reflexivity | ].
      destruct (space_is_plain c Hc) as (_ & _ & _ & -> & _).
      rewrite (remove_currency_spaces (c :: sp)) by (constructor; assumption).
      reflexivity.
    + cbn [List.length] in Hlen.
      destruct (matches_s c1).
      * destruct rest1 as [ | c2 rest2]; cbn [app].
        -- destruct Hsp as [ | c sp Hc Hsp]; [reflexivity | ].
           destruct (space_is_plain c Hc) as (_ & _ & _ & _ & ->).
           apply (remove_currency_spaces (c :: sp)). constructor; assumption.
        -- cbn [List.length] in Hlen.
           destruct (c2 =? full_stop)%N; [apply IH; lia | ].
           apply (IH (c2 :: rest2)). cbn. lia.
      * change (c1 :: rest1 ++ sp) with ((c1 :: rest1) ++ sp).
        rewrite IH by (cbn; lia). reflexivity.
Qed.

Lemma remove_currency_spaces_after (s sp : text) :
  Forall (fun c => is_space c = true) sp ->
  remove_currency (s ++ sp) = remove_currency s ++ sp.
Proof.
  intros Hsp.
  apply (remove_currency_spaces_after_bounded sp (List.length s) Hsp).
  apply Nat.le_refl.
Qed.

(** [lstrip] cuts blanks off the front, and all of them. *)
Lemma lstrip_spec (s : text) :
  exists blanks,
    s = blanks ++ lstrip s /\ Forall (fun c => is_space c = true) blanks
    /\ forall c rest, lstrip s = c :: rest -> is_space c = false.
Proof.
  induction s as [ | c s (blanks & Heq & Hblanks & Hhead)]; cbn [lstrip].
  - exists []. repeat split; [constructor | discriminate].
  - destruct (is_space c) eqn:Hc.
    + exists (c :: blanks). cbn [app]. rewrite <- Heq.
      repeat split; [constructor; assumption | exact Hhead].
    + exists []. repeat split; [constructor | ].
      intros c' rest H. injection H as <- _. exact Hc.
Qed.

Lemma lstrip_spaces_before (sp s : text) :
  Forall (fun c => is_space c = true) sp -> lstrip (sp ++ s) = lstrip s.
Proof.
  induction 1 as [ | c sp Hc _ IH]; cbn [app lstrip]; [reflexivity | ].
  rewrite Hc. exact IH.
Qed.

Lemma rstrip_spaces_after (s sp : text) :
  Forall (fun c => is_space c = true) sp -> rstrip (s ++ sp) = rstrip s.
Proof.
  intros Hsp. unfold rstrip. rewrite rev_app_distr, lstrip_spaces_before;
    [reflexivity | ].
  apply Forall_rev. exact Hsp.
Qed.

(** [rstrip] cuts blanks off the end, and all of them. *)
Lemma rstrip_spec (s : text) :
  exists blanks,
    s = rstrip s ++ blanks /\ Forall (fun c => is_space c = true) blanks
    /\ forall front c, rstrip s = front ++ [c] -> is_space c = false.
Proof.
  destruct (lstrip_spec (rev s)) as (blanks & Heq & Hblanks & Hhead).
  exists (rev blanks). unfold rstrip. split; [ | split].
  - rewrite <- rev_app_distr, <- Heq, rev_involutive. reflexivity.
  - apply Forall_rev. exact Hblanks.
  - intros front c H. apply (Hhead c (rev front)).
    rewrite <- (rev_involutive (lstrip (rev s))), H, rev_app_distr. reflexivity.
Qed.

Lemma strip_spaces_around (sp1 s sp2 : text) :
  Forall (fun c => is_space c = true) sp1 ->
  Forall (fun c => is_space c = true) sp2 ->
  strip (sp1 ++ s ++ sp2) = strip s.
Proof.
  intros H1 H2. unfold strip. rewrite (lstrip_spaces_before sp1 _ H1).
  induction s as [ | c s IH]; cbn [app lstrip].
  - rewrite <- (app_nil_r sp2), (lstrip_spaces_before sp2 [] H2). reflexivity.
  - destruct (is_space c); [exact IH | ].
    change (c :: s ++ sp2) with ((c :: s) ++ sp2).
    apply (rstrip_spaces_after _ _ H2).
Qed.

(** The text that is left after the cleaning. *)
Lemma cleaned_text_spec (s : text) :
  let t := strip (remove_currency (remove_commas s)) in
  (forall c, In c t -> In c s /\ c <> comma /\ c <> rupee_sign)
  /\ (forall c rest, t = c :: rest -> is_space c = false)
  /\ (forall front c, t = front ++ [c] -> is_space c = false).
Proof.
  cbn zeta. set (u := remove_currency (remove_commas s)).
  destruct (lstrip_spec u) as (b1 & Hu & _ & Hhead).
  destruct (rstrip_spec (lstrip u)) as (b2 & Hl & _ & Hlast).
  fold (strip u) in Hl, Hlast.
  split; [ | split].
  - intros c Hc.
    assert (Hin : In c u).
    { rewrite Hu, Hl. apply in_or_app. right. apply in_or_app. left. exact Hc. }
    destruct (remove_currency_spec _ _ Hin) as [Hin' Hrupee].
    apply remove_commas_spec in Hin'. destruct Hin' as [Hs Hcomma].
    repeat split; assumption.
  - intros c rest Ht. apply (Hhead c (rest ++ b2)).
    rewrite Hl, Ht. reflexivity.
  - exact Hlast.
Qed.

End ParseNumberFacts.

(** X15: [parse_number] fails with a [ValueError] on [None]; on a text it
    hands to [float] a text made of characters of the input, without any
    comma or rupee sign and without a blank at either end, and fails with a
    [ValueError] when that text is empty or [float] rejects it. *)
Theorem parse_number_reads_cleaned_text (float_of : text -> option float)
    (s : text) :
  parse_number float_of None = inl ValueError
  /\ exists t : text,
       parse_number float_of (Some s)
       = match t with
         | [] => inl ValueError
         | _ :: _ =>
             match float_of t with
             | Some x => inr x
             | None => inl ValueError
             end
         end
       /\ (forall c, In c t -> In c s /\ c <> comma /\ c <> rupee_sign)
       /\ (forall c rest, t = c :: rest -> is_space c = false)
       /\ (forall front c, t = front ++ [c] -> is_space c = false).
Proof.
  split; [reflexivity | ].
  exists (strip (remove_currency (remove_commas s))).
  split; [reflexivity | apply cleaned_text_spec].
Qed.

(** X16: [parse_number] reads a text as it reads the text without its
    commas, without the blanks around it, without a rupee sign in front and
    without an [Rs.] in front (in either case of the letters); the full stop
    after [Rs] is taken with it, so that [Rs.5] is read as [5]. *)
Theorem parse_number_ignores_decoration (float_of : text -> option float) :
  (forall a b : text,
     parse_number float_of (Some (a ++ comma :: b))
     = parse_number float_of (Some (a ++ b)))
  /\ (forall blanks1 blanks2 s : text,
        Forall (fun c => is_space c = true) blanks1 ->
        Forall (fun c => is_space c = true) blanks2 ->
        parse_number float_of (Some (blanks1 ++ s ++ blanks2))
        = parse_number float_of (Some s))
  /\ (forall blanks s : text,
        Forall (fun c => is_space c = true) blanks ->
        parse_number float_of (Some (blanks ++ rupee_sign :: s))
        = parse_number float_of (Some s))
  /\ (forall (blanks : text) (r s' : N) (s : text),
        Forall (fun c => is_space c = true) blanks ->
        matches_r r = true -> matches_s s' = true ->
        parse_number float_of (Some (blanks ++ r :: s' :: full_stop :: s))
        = parse_number float_of (Some s)).
Proof.
  assert (Hclean : forall s1 s2 : text,
            strip (remove_currency (remove_commas s1))
            = strip (remove_currency (remove_commas s2)) ->
            parse_number float_of (Some s1) = parse_number float_of (Some s2)).
  { intros s1 s2 H. unfold parse_number. cbv zeta. rewrite H. reflexivity. }
  assert (Hfront : forall blanks s : text,
            Forall (fun c => is_space c = true) blanks ->
            strip (remove_currency (blanks ++ s)) = strip (remove_currency s)).
  { intros blanks s Hb. rewrite (remove_currency_spaces_before blanks s Hb).
    pose proof (strip_spaces_around blanks (remove_currency s) [] Hb (Forall_nil _))
      as H.
    rewrite app_nil_r in H. exact H. }
  split; [ | split; [ | split]].
  - intros a b. apply Hclean. unfold remove_commas.
    rewrite !filter_app. cbn [filter]. rewrite N.eqb_refl. reflexivity.
  - intros blanks1 blanks2 s H1 H2. apply Hclean.
    unfold remove_commas. rewrite !filter_app.
    fold (remove_commas blanks1) (remove_commas s) (remove_commas blanks2).
    rewrite (remove_commas_spaces blanks1 H1), (remove_commas_spaces blanks2 H2).
    rewrite (remove_currency_spaces_before blanks1 _ H1).
    rewrite (remove_currency_spaces_after _ blanks2 H2).
    apply (strip_spaces_around _ _ _ H1 H2).
  - intros blanks s Hb. apply Hclean.
    unfold remove_commas. rewrite filter_app.
    fold (remove_commas blanks). rewrite (remove_commas_spaces blanks Hb).
    cbn [filter]. change (rupee_sign =? comma)%N with false. cbn [negb].
    rewrite (Hfront blanks _ Hb). cbn [remove_currency].
    rewrite N.eqb_refl. reflexivity.
  - intros blanks r s' s Hb Hr Hs. apply Hclean.
    unfold remove_commas. rewrite filter_app.
    fold (remove_commas blanks). rewrite (remove_commas_spaces blanks Hb).
    assert (Hrc : (r =? comma)%N = false).
    { unfold matches_r, comma in *. apply N.eqb_neq. intros ->. discriminate. }
    assert (Hsc : (s' =? comma)%N = false).
    { unfold matches_s, comma in *. apply N.eqb_neq. intros ->. discriminate. }
    assert (Hrr : (r =? rupee_sign)%N = false).
    { unfold matches_r, rupee_sign in *. apply N.eqb_neq. intros ->. discriminate. }
    cbn [filter]. rewrite Hrc, Hsc. change (full_stop =? comma)%N with false.
    cbn [negb]. rewrite (Hfront blanks _ Hb). cbn [remove_currency].
    rewrite Hrr, Hr, Hs, N.eqb_refl. reflexivity.
Qed.

Lemma parse_number_ignores_decoration_witness :
  parse_number (fun t => if list_eq_dec N.eq_dec t [53%N] then Some (of_Z 5) else None)
    (Some ([32%N] ++ [82%N; 115%N; 46%N; 53%N]))
  = parse_number (fun t => if list_eq_dec N.eq_dec t [53%N] then Some (of_Z 5) else None)
      (Some [53%N]).
Proof.
  apply (parse_number_ignores_decoration
           (fun t => if list_eq_dec N.eq_dec t [53%N] then Some (of_Z 5) else None)).
  - repeat constructor.
  - reflexivity.
  - reflexivity.
Defined.

(** ** The amount cell and the subtotal cell *)

(** X17: on an invoice of one row in app.py, the subtotal is printed with
    the text of the amount cell of that row, when [float] and
    [pd.to_numeric] read the amount as the same number, other than NaN and
    the negative zero. *)
Theorem single_row_subtotal_is_amount_cell
    (float_of_text numeric_of_text : string -> option float)
    (row : row_data) (amount_text : string) (x : float) (s : BillingSummary) :
  get row amount_key = Some amount_text ->
  float_of_text amount_text = Some x ->
  numeric_of_text amount_text = Some x ->
  is_nan x = false -> x <> S754_zero true ->
  summarize_rows numeric_of_text [row] = inr s ->
  format_amount (subtotal s)
  = cell_text (render_amount_app float_of_text) row amount_key.
Proof.
  intros Hget Hfloat Hnum Hnan Hzero Hs.
  unfold cell_text, render_amount_app. rewrite Hget, String.eqb_refl, Hfloat.
  unfold summarize_rows, summarize, amounts_of in Hs. cbn [map] in Hs.
  unfold amount_of_row, to_numeric_coerce in Hs. rewrite Hget, Hnum in Hs.
  cbn zeta in Hs. rewrite Hnan in Hs.
  assert (Hsum : py_sum [x] = x).
  { unfold py_sum. cbn [fold_left].
    destruct x as [[ | ] | sx | | sx mx ex]; try reflexivity.
    contradiction Hzero. reflexivity. }
  rewrite Hsum in Hs. unfold summary_of_subtotal in Hs.
  destruct (py_round x) as [e | n]; [discriminate | ]. cbn [bind] in Hs.
  destruct (py_float_of_int n) as [e | rounded_total]; [discriminate | ].
  cbn [bind] in Hs. injection Hs as <-. reflexivity.
Qed.

Lemma single_row_subtotal_is_amount_cell_witness :
  format_amount (of_decimal false 123456725 2)
  = cell_text (render_amount_app read_decimal)
      [("No.", "1"); (amount_key, "1234567.25")] amount_key.
Proof.
  apply (single_row_subtotal_is_amount_cell read_decimal read_decimal
           [("No.", "1"); (amount_key, "1234567.25")] "1234567.25"
           (of_decimal false 123456725 2)
           (mkSummary (of_decimal false 123456725 2) (of_decimal true 25 2)
              (of_Z 1234567))).
  - reflexivity.
  - reflexivity.
  - reflexivity.
  - reflexivity.
  - discriminate.
  - vm_compute. reflexivity.
Defined.
